(** * Exam-gen: question synthesis from law articles

    A shallow embedding of [src/text_processor.py],
    [src/question_generator.py], [src/docx_parser.py],
    [src/latex_generator.py] and of the entry point [main.py], followed by
    the properties of the parsed articles, of the generated questions and of
    the rendered document.

    Conventions of the embedding.
    - A Python [str] is a sequence of Unicode code points: [list N].
      [len], slicing, [in], [replace] and [strip] are the list operations
      written out below.  Literals are written as UTF-8 text and decoded
      once by [u].
    - A Python [float] is an IEEE 754 binary64 number, with the operations
      of the standard library's [SpecFloat] (round to nearest, ties to
      even); a Python [int] is a [Z] (or [N] where the code only builds
      naturals), with the interpreter's limit of 4300 digits on conversions
      between [int] and [str].
    - The two random sources of the program are kept apart: the state of the
      module-level generator of [random] (used by [weighted_sample]) and the
      state of the [random.Random] object passed as [rng].  A source is any
      type that implements the interface [RandomSource].
    - A Python exception is a value [Raise e] of the result type; functions
      that consume randomness or may raise live in the monad [M].
    - Files are not modelled: [read_docx] takes the name of the file and the
      texts of the paragraphs of the document, and [render_exam_latex]
      returns the text that [write_exam_files] writes. *)

From Stdlib Require Import Strings.String Strings.Byte.
From Stdlib Require Import List Bool Arith NArith ZArith Lia.
From Stdlib Require Import Permutation Floats.SpecFloat.
Import ListNotations.
Close Scope string_scope.

Set Implicit Arguments.

(* ===================================================================== *)
(** ** Python strings                                                     *)
(* ===================================================================== *)

Module Py.

(** The exceptions the program can raise, and the outcome of a call. *)
Inductive exn := IndexError | ValueError | TypeError.

Inductive result (A : Type) : Type :=
| Ok (a : A)
| Raise (e : exn).
Arguments Ok {A} a.
Arguments Raise {A} e.

Definition char := N.
Definition str := list char.

(** UTF-8 decoding of a literal of this file. *)
Fixpoint utf8_decode (bs : list N) : str :=
  match bs with
  | [] => []
  | b :: r =>
      if (b <? 0x80)%N then b :: utf8_decode r
      else if (b <? 0xE0)%N then
        match r with
        | c1 :: r1 => ((b - 0xC0) * 64 + (c1 - 0x80))%N :: utf8_decode r1
        | _ => []
        end
      else if (b <? 0xF0)%N then
        match r with
        | c1 :: c2 :: r2 =>
            ((b - 0xE0) * 4096 + (c1 - 0x80) * 64 + (c2 - 0x80))%N
            :: utf8_decode r2
        | _ => []
        end
      else
        match r with
        | c1 :: c2 :: c3 :: r3 =>
            ((b - 0xF0) * 262144 + (c1 - 0x80) * 4096
             + (c2 - 0x80) * 64 + (c3 - 0x80))%N :: utf8_decode r3
        | _ => []
        end
  end.

Definition u (s : string) : str :=
  utf8_decode (map Byte.to_N (list_byte_of_string s)).

Definition str_eqb (a b : str) : bool :=
  if list_eq_dec N.eq_dec a b then true else false.

(** [s.startswith(p)] *)
Fixpoint startswith (p s : str) : bool :=
  match p, s with
  | [], _ => true
  | _ :: _, [] => false
  | a :: p', b :: s' => (a =? b)%N && startswith p' s'
  end.

(** [s.find(p)]: the least index at which [p] occurs, [None] for -1. *)
Fixpoint find (p s : str) : option nat :=
  if startswith p s then Some 0
  else match s with
       | [] => None
       | _ :: r => option_map S (find p r)
       end.

(** [p in s] *)
Definition contains (p s : str) : bool :=
  match find p s with Some _ => true | None => false end.

(** [s.replace(a, b, 1)] *)
Definition replace1 (a b s : str) : str :=
  match find a s with
  | Some i => firstn i s ++ b ++ skipn (i + length a) s
  | None => s
  end.

(** [s.replace(a, b)] for a one-character [a]. *)
Definition replace_char (a : char) (b : char) (s : str) : str :=
  map (fun c => if (c =? a)%N then b else c) s.

(** [sep.join(l)] *)
Fixpoint join (sep : str) (l : list str) : str :=
  match l with
  | [] => []
  | [x] => x
  | x :: r => x ++ sep ++ join sep r
  end.

(** [x in l] for a list (or set) of strings. *)
Definition mem (x : str) (l : list str) : bool := existsb (str_eqb x) l.

(** [list(dict.fromkeys(l))]: duplicates removed, first occurrence kept. *)
Fixpoint dedup_acc (seen : list str) (l : list str) : list str :=
  match l with
  | [] => []
  | x :: r => if mem x seen then dedup_acc seen r
              else x :: dedup_acc (x :: seen) r
  end.
Definition fromkeys (l : list str) : list str := dedup_acc [] l.

(** [l.index(x)] *)
Fixpoint index (x : str) (l : list str) : option nat :=
  match l with
  | [] => None
  | y :: r => if str_eqb y x then Some 0 else option_map S (index x r)
  end.

(** Unicode white space: the characters [str.strip()] removes and the
    regular-expression class [\s] matches (the same table in CPython). *)
Definition isspace (c : char) : bool :=
  ((0x09 <=? c) && (c <=? 0x0D) || (0x1C <=? c) && (c <=? 0x20)
   || (c =? 0x85) || (c =? 0xA0) || (c =? 0x1680)
   || (0x2000 <=? c) && (c <=? 0x200A)
   || (c =? 0x2028) || (c =? 0x2029) || (c =? 0x202F) || (c =? 0x205F)
   || (c =? 0x3000))%N.

(** Unicode decimal digits (category Nd, the class [\d]): each block is ten
    consecutive code points starting at the listed zero (Unicode 14). *)
Definition DECIMAL_ZEROS : list N :=
  [0x30; 0x660; 0x6f0; 0x7c0; 0x966; 0x9e6; 0xa66; 0xae6; 0xb66; 0xbe6;
   0xc66; 0xce6; 0xd66; 0xde6; 0xe50; 0xed0; 0xf20; 0x1040; 0x1090; 0x17e0;
   0x1810; 0x1946; 0x19d0; 0x1a80; 0x1a90; 0x1b50; 0x1bb0; 0x1c40; 0x1c50;
   0xa620; 0xa8d0; 0xa900; 0xa9d0; 0xa9f0; 0xaa50; 0xabf0; 0xff10; 0x104a0;
   0x10d30; 0x11066; 0x110f0; 0x11136; 0x111d0; 0x112f0; 0x11450; 0x114d0;
   0x11650; 0x116c0; 0x11730; 0x118e0; 0x11950; 0x11c50; 0x11d50; 0x11da0;
   0x16a60; 0x16ac0; 0x16b50; 0x1d7ce; 0x1d7d8; 0x1d7e2; 0x1d7ec; 0x1d7f6;
   0x1e140; 0x1e2f0; 0x1e950; 0x1fbf0]%N.

Fixpoint decimal_in (zeros : list N) (c : char) : option N :=
  match zeros with
  | [] => None
  | z :: r => if ((z <=? c) && (c <? z + 10))%N then Some (c - z)%N
              else decimal_in r c
  end.

(** The digit value of a decimal character. *)
Definition decimal (c : char) : option N := decimal_in DECIMAL_ZEROS c.

Definition isdecimal (c : char) : bool :=
  match decimal c with Some _ => true | None => false end.

(** The interpreter's limit on the number of digits of a conversion between
    [int] and [str]: [sys.get_int_max_str_digits()], 4300 unless the
    interpreter is told otherwise (the program does not change it). *)
Definition INT_MAX_STR_DIGITS : Z := 4300.

(** The value of a run of decimal digits. *)
Definition int_step (a : N) (c : char) : N :=
  (10 * a + match decimal c with Some d => d | None => 0 end)%N.
Definition digits_value (s : str) : N := fold_left int_step s 0%N.

(** [int(s)] for a run of decimal digits: [ValueError] when the run has more
    digits than the limit (leading zeros count); Python integers are
    unbounded otherwise. *)
Definition int (s : str) : result N :=
  if (INT_MAX_STR_DIGITS <? Z.of_nat (length s))%Z then Raise ValueError
  else Ok (digits_value s).

(** The decimal digits of a natural number, in ASCII. *)
Fixpoint str_digits (fuel : nat) (n : N) (acc : str) : str :=
  match fuel with
  | O => acc
  | S f =>
      let acc' := (0x30 + n mod 10)%N :: acc in
      if (n <? 10)%N then acc' else str_digits f (n / 10)%N acc'
  end.
Definition decimal_digits (n : N) : str :=
  str_digits (S (N.to_nat (N.log2 n))) n [].

(** [str(n)] for a natural number: [ValueError] when it has more digits
    than the limit. *)
Definition str_of_int (n : N) : result str :=
  if (INT_MAX_STR_DIGITS <? Z.of_nat (length (decimal_digits n)))%Z
  then Raise ValueError
  else Ok (decimal_digits n).

(** Python's [float]: the binary64 numbers, with not-a-number and the
    infinities.  The operations do not raise. *)
Definition float : Type := spec_float.

Definition fadd : float -> float -> float := SFadd 53 1024.
Definition fmul : float -> float -> float := SFmul 53 1024.
Definition fdiv : float -> float -> float := SFdiv 53 1024.

(** [x < y], [x <= y]: false when an operand is not a number. *)
Definition flt : float -> float -> bool := SFltb.
Definition fle : float -> float -> bool := SFleb.

(** [math.isfinite(x)] *)
Definition isfinite (x : float) : bool :=
  match x with
  | S754_zero _ | S754_finite _ _ _ => true
  | S754_infinity _ | S754_nan => false
  end.

(** The float nearest to an integer (an integer of the program's
    literals: all are exact). *)
Definition float_of_Z (z : Z) : float := binary_normalize 53 1024 z 0 false.

(** The literals [0.0], [0.5] and [1.0]. *)
Definition float_zero : float := S754_zero false.
Definition float_half : float :=
  Eval vm_compute in binary_normalize 53 1024 1 (-1) false.
Definition float_one : float := Eval vm_compute in float_of_Z 1.

(** The float written as the decimal [m / 10 ** k], for [m] and [10 ** k]
    that are floats: the correctly rounded quotient. *)
Definition float_of_decimal (m : Z) (k : Z) : float :=
  fdiv (float_of_Z m) (float_of_Z (10 ^ k)).

(** [s.lstrip()], [s.rstrip()], [s.strip()] *)
Fixpoint lstrip (s : str) : str :=
  match s with
  | [] => []
  | c :: r => if isspace c then lstrip r else s
  end.
Definition rstrip (s : str) : str := rev (lstrip (rev s)).
Definition strip (s : str) : str := rstrip (lstrip s).

(** [chr(ord('A') + i)] *)
Definition letter (i : nat) : str := [(0x41 + N.of_nat i)%N].

End Py.
Import Py.

(* ===================================================================== *)
(** ** text_processor.py                                                  *)
(* ===================================================================== *)

Module tp.

Definition SPACE : char := 0x20%N.
Definition NBSP : char := 0xA0%N.

(** The class of [WHITESPACE_RE = re.compile(r"[\u3000\s]+")]. *)
Definition whitespace_class (c : char) : bool := (c =? 0x3000)%N || isspace c.

(** [WHITESPACE_RE.sub(" ", text)]: every maximal run of the class becomes
    one space.  [in_run] tells that the previous character was in the class
    (its run has already produced its space). *)
Fixpoint sub_whitespace (in_run : bool) (text : str) : str :=
  match text with
  | [] => []
  | c :: r =>
      if whitespace_class c then
        if in_run then sub_whitespace true r else SPACE :: sub_whitespace true r
      else c :: sub_whitespace false r
  end.

Definition normalize_text (text : str) : str :=
  let text := sub_whitespace false text in
  let text := replace_char NBSP SPACE text in
  strip text.

(** The look-behind class of [split_sentences]. *)
Definition SENTENCE_END : str := Eval vm_compute in u "。；！？!?".
Definition sentence_end (c : char) : bool := existsb (N.eqb c) SENTENCE_END.

(** [re.split(r"(?<=[。；！？!?])", text)]: cut after every terminator. *)
Fixpoint re_split (text : str) : list str :=
  match text with
  | [] => [[]]
  | c :: r =>
      if sentence_end c then [c] :: re_split r
      else match re_split r with
           | p :: ps => (c :: p) :: ps
           | [] => [[c]]
           end
  end.

(** The truth value of a string or list. *)
Definition nonempty {A} (l : list A) : bool :=
  match l with [] => false | _ => true end.

Definition split_sentences (text : str) : list str :=
  map strip
    (filter (fun p => nonempty p && nonempty (strip p)) (re_split text)).

(** [NUMBER_RE.findall(text)]: the maximal runs of decimal digits, in order.
    [digit_runs] returns the run that starts at the head (empty if the head
    is no digit) and the runs after it. *)
Fixpoint digit_runs (text : str) : str * list str :=
  match text with
  | [] => ([], [])
  | c :: r =>
      let (h, t) := digit_runs r in
      if isdecimal c then (c :: h, t)
      else ([], if nonempty h then h :: t else t)
  end.

Definition findall_number (text : str) : list str :=
  let (h, t) := digit_runs text in if nonempty h then h :: t else t.

Definition KEY_TERMS : list str := Eval vm_compute in
  map u ["不得"; "应当"; "可以"; "必须"; "禁止"; "批准"; "备案"; "罚款"; "责任"; "义务"]%string.

(** [DATE_RE = re.compile(r"(\d{4})年(\d{1,2})月(\d{1,2})日")] *)
Definition YEAR : char := Eval vm_compute in hd 0%N (u "年").
Definition MONTH : char := Eval vm_compute in hd 0%N (u "月").
Definition DAY : char := Eval vm_compute in hd 0%N (u "日").

(** [\d{4}]: four digits at the head. *)
Definition four_digits (s : str) : option (str * str) :=
  match s with
  | a :: b :: c :: d :: r =>
      if isdecimal a && isdecimal b && isdecimal c && isdecimal d
      then Some ([a; b; c; d], r) else None
  | _ => None
  end.

(** [(\d{1,2})] followed by the character [mark]: two digits are tried
    first, then one. *)
Definition digits_then (mark : char) (s : str) : option (str * str) :=
  match s with
  | a :: b :: m :: r =>
      if (isdecimal a && isdecimal b && (m =? mark))%N then Some ([a; b], r)
      else if (isdecimal a && (b =? mark))%N then Some ([a], m :: r)
      else None
  | a :: m :: r =>
      if (isdecimal a && (m =? mark))%N then Some ([a], r) else None
  | _ => None
  end.

(** A match of [DATE_RE] at the head: its three groups and its length. *)
Definition match_date (s : str) : option (str * str * str * nat) :=
  match four_digits s with
  | Some (y, c :: r) =>
      if (c =? YEAR)%N then
        match digits_then MONTH r with
        | Some (m, r') =>
            match digits_then DAY r' with
            | Some (d, _) => Some (y, m, d, 7 + length m + length d)
            | None => None
            end
        | None => None
        end
      else None
  | _ => None
  end.

(** The matches of [DATE_RE.findall(text)], each formatted again as
    year, "年", month, "月", day, "日": the text is scanned from the left;
    [skip] characters belong to the match just found. *)
Fixpoint findall_date (skip : nat) (text : str) : list str :=
  match text with
  | [] => []
  | _ :: r =>
      match skip with
      | S k => findall_date k r
      | O =>
          match match_date text with
          | Some (y, m, d, n) =>
              (y ++ [YEAR] ++ m ++ [MONTH] ++ d ++ [DAY])
              :: findall_date (n - 1) r
          | None => findall_date 0 r
          end
      end
  end.

(** The entities of a text. *)
Record Entities := {
  numbers : list str;
  dates : list str;
  terms : list str;
  nouns : list str;
  sentences : list str
}.

Section Extract.

(** The optional tokenizer: [tokens norm] is [Some] of the token texts of
    [spacy.blank("zh")(norm)] when spaCy is installed and the call
    succeeds, [None] otherwise. *)
Variable tokens : str -> option (list str).

Definition extract_entities (text : str) : Entities :=
  let norm := normalize_text text in
  {| numbers := findall_number norm;
     dates := findall_date 0 norm;
     terms := filter (fun t => contains t norm) KEY_TERMS;
     nouns := match tokens norm with
              | Some doc => filter (fun t => 2 <=? length t) doc
              | None => []
              end;
     sentences := split_sentences norm |}.

End Extract.

Definition pick_keywords (entities : Entities) (max_k : nat) : list str :=
  firstn max_k (fromkeys (terms entities ++ nouns entities)).

End tp.

(* ===================================================================== *)
(** ** Python's [random]: exceptions, the monad, the library functions    *)
(* ===================================================================== *)

Module random.

(** A random source.  [next_random] gives the 53 random bits [k] from which
    [random()] makes the float [k * 2 ** -53], in [0, 1);
    [next_below n] is [_randbelow(n)]; [next_sample n k] is the list of
    positions that [sample] selects among [n] items when asked for [k]
    (CPython computes them from [_randbelow], by a partial shuffle of a copy
    or by rejecting repeated positions: [k] distinct positions below [n]). *)
Class RandomSource (R : Type) : Type := {
  next_random : R -> N * R;
  next_below : nat -> R -> nat * R;
  next_sample : nat -> nat -> R -> list nat * R;
  next_random_range : forall r, (fst (next_random r) < 2 ^ 53)%N;
  next_below_lt : forall n r, 0 < n -> fst (next_below n r) < n;
  next_sample_distinct :
    forall n k r, k <= n ->
      length (fst (next_sample n k r)) = k
      /\ NoDup (fst (next_sample n k r))
      /\ Forall (fun i => i < n) (fst (next_sample n k r))
}.

(** Computations that read a state [S] and may raise. *)
Definition M (S A : Type) : Type := S -> result (A * S).

Definition ret {S A} (a : A) : M S A := fun s => Ok (a, s).
Definition raise {S A} (e : exn) : M S A := fun _ => Raise e.
Definition bind {S A B} (m : M S A) (f : A -> M S B) : M S B :=
  fun s => match m s with
           | Ok (a, s') => f a s'
           | Raise e => Raise e
           end.

Declare Scope py_scope.
Delimit Scope py_scope with py.
Notation "x <- m ;; f" := (bind m (fun x => f))
  (at level 100, m at next level, right associativity) : py_scope.
Open Scope py_scope.

(** A call that does not read the state. *)
Definition lift {S A} (x : result A) : M S A :=
  fun s => match x with
           | Ok a => Ok (a, s)
           | Raise e => Raise e
           end.

(** [l[i]], raising [IndexError] out of range. *)
Definition getitem {S A} (l : list A) (i : nat) : M S A :=
  match nth_error l i with
  | Some x => ret x
  | None => raise IndexError
  end.

(** [[l[i] for i in idx]] *)
Fixpoint getitems {S A} (l : list A) (idx : list nat) : M S (list A) :=
  match idx with
  | [] => ret []
  | i :: r => x <- getitem l i ;; xs <- getitems l r ;; ret (x :: xs)
  end.

(** [l[i] = v] *)
Fixpoint setitem {A} (l : list A) (i : nat) (v : A) : list A :=
  match l, i with
  | [], _ => []
  | _ :: r, O => v :: r
  | x :: r, S i' => x :: setitem r i' v
  end.

(** [list(itertools.accumulate(weights))]: the running sums, in floats. *)
Fixpoint accumulate_from (acc : float) (weights : list float) : list float :=
  match weights with
  | [] => []
  | w :: r => fadd acc w :: accumulate_from (fadd acc w) r
  end.
Definition accumulate (weights : list float) : list float :=
  match weights with
  | [] => []
  | w :: r => w :: accumulate_from w r
  end.

(** [bisect.bisect(a, x, lo, hi)] (bisect_right).  The interval [hi - lo]
    shrinks at every turn of the loop, so [hi - lo] turns are enough. *)
Fixpoint bisect_loop (fuel : nat) (a : list float) (x : float)
    (lo hi : nat) : nat :=
  match fuel with
  | O => lo
  | S f =>
      if lo <? hi then
        let mid := (lo + hi) / 2 in
        if flt x (nth mid a float_zero) then bisect_loop f a x lo mid
        else bisect_loop f a x (mid + 1) hi
      else lo
  end.
Definition bisect (a : list float) (x : float) (lo hi : nat) : nat :=
  bisect_loop (hi - lo) a x lo hi.

(** The float [k * 2 ** -53] that [random()] makes of its 53 bits. *)
Definition float_of_bits (k : N) : float :=
  binary_normalize 53 1024 (Z.of_N k) (-53) false.

Section Source.

Context {R : Type} {RS : RandomSource R}.

(** [rng.random()] *)
Definition random : M R float :=
  fun r => Ok (float_of_bits (fst (next_random r)), snd (next_random r)).

Definition randbelow (n : nat) : M R nat := fun r => Ok (next_below n r).

(** [rng.choice(seq)] *)
Definition choice {A} (seq : list A) : M R A :=
  match seq with
  | [] => raise IndexError
  | _ => j <- randbelow (length seq) ;; getitem seq j
  end.

(** [rng.randint(a, b)], that is [randrange(a, b + 1)]. *)
Definition randint (a b : Z) : M R Z :=
  let width := (b + 1 - a)%Z in
  if (0 <? width)%Z then
    j <- randbelow (Z.to_nat width) ;; ret (a + Z.of_nat j)%Z
  else raise ValueError.

(** [rng.sample(population, k)] *)
Definition sample {A} (population : list A) (k : Z) : M R (list A) :=
  let n := length population in
  if ((k <? 0) || (Z.of_nat n <? k))%Z then raise ValueError
  else fun r =>
    let (idx, r') := next_sample n (Z.to_nat k) r in
    getitems population idx r'.

(** [x[i], x[j] = x[j], x[i]] *)
Definition swap {A} (x : list A) (i j : nat) : M R (list A) :=
  xj <- getitem x j ;;
  xi <- getitem x i ;;
  ret (setitem (setitem x i xj) j xi).

(** [rng.shuffle(x)]: [for i in reversed(range(1, len(x)))]. *)
Fixpoint shuffle_from {A} (i : nat) (x : list A) : M R (list A) :=
  match i with
  | O => ret x
  | S i' =>
      j <- randbelow (i + 1) ;;
      x' <- swap x i j ;;
      shuffle_from i' x'
  end.
Definition shuffle {A} (x : list A) : M R (list A) :=
  shuffle_from (length x - 1) x.

(** The body of the comprehension of [choices], [k] times. *)
Fixpoint choices_loop {A} (population : list A) (cum_weights : list float)
    (total : float) (hi : nat) (k : nat) : M R (list A) :=
  match k with
  | O => ret []
  | S k' =>
      x <- random ;;
      a <- getitem population (bisect cum_weights (fmul x total) 0 hi) ;;
      rest <- choices_loop population cum_weights total hi k' ;;
      ret (a :: rest)
  end.

(** [random.choices(population, weights=weights, k=k)], as in CPython 3.9
    and later (earlier versions do not test the total). *)
Definition choices {A} (population : list A) (weights : list float) (k : Z)
  : M R (list A) :=
  let n := length population in
  let cum_weights := accumulate weights in
  if negb (length cum_weights =? n) then raise ValueError
  else match cum_weights with
       | [] => raise IndexError                 (* cum_weights[-1] *)
       | _ :: _ =>
           let total := fadd (last cum_weights float_zero) float_zero in
           if fle total float_zero then raise ValueError
           else if negb (isfinite total) then raise ValueError
           else
             let hi := n - 1 in
             choices_loop population cum_weights total hi (Z.to_nat k)
       end.

End Source.

End random.
Import random.

(* ===================================================================== *)
(** ** question_generator.py                                              *)
(* ===================================================================== *)

Module qg.

(** An article record, as produced by the document parser. *)
Record Article := {
  source_file : str;
  article_no : str;
  title : str;
  text : str;
  clauses : list str
}.

Inductive QType := T_true_false | T_single | T_multiple | T_fill | T_short.

(** ['answer': Union[str, List[str]]] *)
Inductive Answer :=
| AnsStr (s : str)
| AnsList (l : list str).

Record Source := { file : str; article : str }.

Record Question := {
  qtype : QType;
  question : str;
  options : option (list str);
  answer : Answer;
  source : Source
}.

(** A value of the configuration that may be the JSON [null]. *)
Inductive Nullable (A : Type) : Type :=
| Null
| Value (a : A).
Arguments Null {A}.
Arguments Value {A} a.

(** The configuration dictionaries; [None] is an absent key.  The weights
    are the floats that [float(...)] makes of the entries; the list of
    important articles may be [null], which [weighted_sample] allows for. *)
Record Weights := {
  important_articles : option (Nullable (list str));
  important_weight : option float;
  default : option float
}.

Record Counts := {
  true_false : option Z;
  single_choice : option Z;
  multiple_choice : option Z;
  fill_blank : option Z;
  short_answer : option Z
}.

Record Config := {
  counts : option Counts;
  weights : option Weights
}.

(** [d.get(key, dflt)] *)
Definition get {A} (o : option A) (dflt : A) : A :=
  match o with Some x => x | None => dflt end.

Definition no_counts : Counts :=
  {| true_false := None; single_choice := None; multiple_choice := None;
     fill_blank := None; short_answer := None |}.
Definition no_weights : Weights :=
  {| important_articles := None; important_weight := None; default := None |}.

Record Exam := {
  exam_true_false : list Question;
  exam_single : list Question;
  exam_multiple : list Question;
  exam_fill : list Question;
  exam_short : list Question
}.

Definition len {A} (l : list A) : Z := Z.of_nat (length l).

(** [l[:k]] *)
Definition slice_to {A} (l : list A) (k : Z) : list A :=
  if (0 <=? k)%Z then firstn (Z.to_nat k) l
  else firstn (Z.to_nat (len l + k)) l.

Definition source_of (art : Article) : Source :=
  {| file := source_file art; article := article_no art |}.

(** *** negate_statement *)

Definition swaps : list (str * str) := Eval vm_compute in
  map (fun p => (u (fst p), u (snd p)))
    [("应当", "不得"); ("必须", "可以"); ("可以", "不得"); ("不得", "可以");
     ("禁止", "允许")]%string.

Definition DISCLAIMER : str := Eval vm_compute in u "（本句可能为错误陈述）".

(** The loop over [swaps]: the first pair whose left word occurs in [s]. *)
Fixpoint first_swap (table : list (str * str)) (s : str) : option str :=
  match table with
  | [] => None
  | (a, b) :: r => if contains a s then Some (replace1 a b s)
                   else first_swap r s
  end.

(** The length of the run of decimal digits at the head of [s]. *)
Fixpoint digits_span (s : str) : nat :=
  match s with
  | [] => 0
  | c :: r => if isdecimal c then S (digits_span r) else 0
  end.

(** [re.search(r"\d+", s)]: [(m.start(), m.end())] of the first match. *)
Fixpoint search_number (s : str) : option (nat * nat) :=
  match s with
  | [] => None
  | c :: r =>
      if isdecimal c then Some (0, S (digits_span r))
      else match search_number r with
           | Some (a, b) => Some (S a, S b)
           | None => None
           end
  end.

(** [s[a:b]] for [0 <= a <= b]. *)
Definition slice (s : str) (a b : nat) : str := firstn (b - a) (skipn a s).

Definition negate_statement (s : str) : result str :=
  match first_swap swaps s with
  | Some r => Ok r
  | None =>
      match search_number s with
      | Some (m_start, m_end) =>
          match int (slice s m_start m_end) with
          | Raise e => Raise e
          | Ok num =>
              match str_of_int (num + 1) with
              | Raise e => Raise e
              | Ok digits => Ok (firstn m_start s ++ digits ++ skipn m_end s)
              end
          end
      | None => Ok (s ++ DISCLAIMER)
      end
  end.

(** *** String templates *)

Definition RIGHT : str := Eval vm_compute in u "对".
Definition WRONG : str := Eval vm_compute in u "错".
Definition BLANK : str := Eval vm_compute in u "\rule{2cm}{0.4pt}".

Definition lit_about : str := Eval vm_compute in u "关于“".
Definition lit_conforms : str := Eval vm_compute in u "”的表述符合该法条".
Definition lit_conforms_not : str := Eval vm_compute in u "”的表述不符合该法条".
Definition lit_with : str := Eval vm_compute in u "与“".
Definition lit_related : str := Eval vm_compute in u "”相关的规定符合该法条".
Definition lit_per : str := Eval vm_compute in u "依据".
Definition lit_which_one : str :=
  Eval vm_compute in u "，下列哪一项是正确的？" ++ [0x0A%N].
Definition lit_which_ones : str :=
  Eval vm_compute in u "，下列哪些项是正确的？" ++ [0x0A%N].
Definition lit_outline : str := Eval vm_compute in u "简述".
Definition lit_purpose : str := Eval vm_compute in u "的主要内容或立法目的。".

(** [f"关于“{key}”的表述符合该法条"] *)
Definition single_correct (key : str) : str :=
  lit_about ++ key ++ lit_conforms.

(** [f"关于“{kw}”的表述不符合该法条"] *)
Definition distractor (kw : str) : str :=
  lit_about ++ kw ++ lit_conforms_not.

(** [f"与“{kw}”相关的规定符合该法条"] *)
Definition multiple_correct (kw : str) : str :=
  lit_with ++ kw ++ lit_related.

(** [f"依据{art['article_no']}，下列哪一项是正确的？\n{stem}"] *)
Definition single_qtext (no stem : str) : str :=
  lit_per ++ no ++ lit_which_one ++ stem.

(** [f"依据{art['article_no']}，下列哪些项是正确的？\n{stem}"] *)
Definition multiple_qtext (no stem : str) : str :=
  lit_per ++ no ++ lit_which_ones ++ stem.

(** [f"简述{art['article_no']}的主要内容或立法目的。"] *)
Definition short_qtext (no : str) : str :=
  lit_outline ++ no ++ lit_purpose.

(** [[chr(ord('A') + i) for i, opt in enumerate(options) if opt in correct]],
    the enumeration starting at [i]. *)
Fixpoint letters_in (i : nat) (options correct : list str) : list str :=
  match options with
  | [] => []
  | opt :: r =>
      if mem opt correct then letter i :: letters_in (S i) r correct
      else letters_in (S i) r correct
  end.

Section Generators.

(** [R] is the state of the [rng] argument, [G] the state of the
    module-level generator of [random]; [tokens] is the optional
    tokenizer of [tp.extract_entities]. *)
Context {R : Type} {RS : RandomSource R}.
Context {G : Type} {GS : RandomSource G}.
Variable tokens : str -> option (list str).

Definition extract (art_text : str) : tp.Entities :=
  tp.extract_entities tokens art_text.

(** *** weighted_sample (reads the module-level generator) *)

(** [x or []] *)
Definition or_empty (x : Nullable (list str)) : list str :=
  match x with
  | Null => []
  | Value l => l
  end.

Definition article_weight (weights_cfg : Weights) (a : Article) : float :=
  let imp_list :=
    or_empty (get (important_articles weights_cfg) (Value [])) in
  let imp_w := get (important_weight weights_cfg) float_one in
  let default_w := get (default weights_cfg) float_one in
  if mem (article_no a) imp_list then imp_w else default_w.

Definition weighted_sample (articles : list Article) (weights_cfg : Weights)
    (k : Z) : M G (list Article) :=
  let weights := map (article_weight weights_cfg) articles in
  let population := seq 0 (length articles) in
  chosen_idx <- choices population weights
                  (Z.min k (Z.max 1 (len population))) ;;
  getitems articles chosen_idx.

(** *** make_true_false *)

Definition tf_question (art : Article) (q : str) (flip : bool) : Question :=
  {| qtype := T_true_false;
     question := q;
     options := Some [RIGHT; WRONG];
     answer := AnsStr (if negb flip then RIGHT else WRONG);
     source := source_of art |}.

(** The inner loop, over the sentences of one article.  The state is
    [(results, seen)]; a [break] returns the state as it is. *)
Fixpoint tf_sentences (art : Article) (count : Z) (sents : list str)
    (st : list Question * list str) : M R (list Question * list str) :=
  match sents with
  | [] => ret st
  | sent :: rest =>
      let (results, seen) := st in
      if (count <=? len results)%Z then ret st
      else
        let base := sent in
        if mem base seen || (length base <? 6) then
          tf_sentences art count rest st
        else
          x <- random ;;
          let flip := flt x float_half in
          q <- (if flip then lift (negate_statement base) else ret base) ;;
          tf_sentences art count rest
            (results ++ [tf_question art q flip], base :: seen)
  end.

Fixpoint tf_articles (count : Z) (arts : list Article)
    (st : list Question * list str) : M R (list Question * list str) :=
  match arts with
  | [] => ret st
  | art :: rest =>
      let entities := extract (text art) in
      st' <- tf_sentences art count (tp.sentences entities) st ;;
      if (count <=? len (fst st'))%Z then ret st'
      else tf_articles count rest st'
  end.

Definition make_true_false (arts : list Article) (count : Z)
  : M R (list Question) :=
  st <- tf_articles count arts ([], []) ;;
  ret (fst st).

(** *** Distractors *)

Definition build_distractor_pool (arts : list Article) : list str :=
  fromkeys
    (flat_map
       (fun art => map distractor (tp.pick_keywords (extract (text art)) 4))
       arts).

Definition sample_distractors (pool : list str) (key : str) (n : Z)
  : M R (list str) :=
  let candidates := filter (fun p => negb (contains key p)) pool in
  let candidates := if (len candidates <? n)%Z then pool else candidates in
  sample candidates (Z.min n (len candidates)).

(** *** make_single_choice *)

Definition pick_stem (art : Article) (entities : tp.Entities) (dflt : str)
  : M R str :=
  if tp.nonempty (tp.sentences entities)
  then choice (tp.sentences entities)
  else ret dflt.

Fixpoint sc_articles (pool : list str) (count : Z) (arts : list Article)
    (results : list Question) (seen_q : list str) : M R (list Question) :=
  match arts with
  | [] => ret results
  | art :: rest =>
      if (count <=? len results)%Z then ret results
      else
        let entities := extract (text art) in
        let kws := tp.pick_keywords entities 5 in
        if negb (tp.nonempty kws) then
          sc_articles pool count rest results seen_q
        else
          stem <- pick_stem art entities (firstn 50 (text art)) ;;
          key <- choice kws ;;
          let correct := single_correct key in
          distractors <- sample_distractors pool key 3 ;;
          opts <- shuffle (correct :: distractors) ;;
          ans <- match index correct opts with
                 | Some i => ret i
                 | None => raise ValueError
                 end ;;
          let qtext := single_qtext (article_no art) stem in
          if mem qtext seen_q then
            sc_articles pool count rest results seen_q
          else
            sc_articles pool count rest
              (results ++ [{| qtype := T_single;
                              question := qtext;
                              options := Some opts;
                              answer := AnsStr (letter ans);
                              source := source_of art |}])
              (qtext :: seen_q)
  end.

Definition make_single_choice (arts : list Article) (count : Z)
  : M R (list Question) :=
  sc_articles (build_distractor_pool arts) count arts [] [].

(** *** make_multiple_choice *)

Definition BAR : str := [0x7C%N].

Fixpoint mc_articles (pool : list str) (count : Z) (arts : list Article)
    (results : list Question) : M R (list Question) :=
  match arts with
  | [] => ret results
  | art :: rest =>
      if (count <=? len results)%Z then ret results
      else
        let entities := extract (text art) in
        let kws := tp.pick_keywords entities 6 in
        if (len kws <? 2)%Z then mc_articles pool count rest results
        else
          stem <- pick_stem art entities (firstn 50 (text art)) ;;
          num_correct <- randint 2 (Z.min 4 (len kws)) ;;
          chosen <- sample kws num_correct ;;
          let correct := map multiple_correct chosen in
          distractors <- sample_distractors pool (join BAR kws)
                           (5 - num_correct) ;;
          opts <- shuffle (correct ++ distractors) ;;
          let ans_letters := letters_in 0 opts correct in
          let qtext := multiple_qtext (article_no art) stem in
          mc_articles pool count rest
            (results ++ [{| qtype := T_multiple;
                            question := qtext;
                            options := Some opts;
                            answer := AnsList ans_letters;
                            source := source_of art |}])
  end.

Definition make_multiple_choice (arts : list Article) (count : Z)
  : M R (list Question) :=
  mc_articles (build_distractor_pool arts) count arts [].

(** *** make_fill_blank *)

Fixpoint fb_articles (count : Z) (arts : list Article)
    (results : list Question) : M R (list Question) :=
  match arts with
  | [] => ret results
  | art :: rest =>
      if (count <=? len results)%Z then ret results
      else
        let entities := extract (text art) in
        let candidates := tp.terms entities ++ tp.numbers entities in
        if negb (tp.nonempty candidates) then fb_articles count rest results
        else
          target <- choice candidates ;;
          sent <- pick_stem art entities (text art) ;;
          let sent := if negb (contains target sent) then text art
                      else sent in
          let blanked := replace1 target BLANK sent in
          fb_articles count rest
            (results ++ [{| qtype := T_fill;
                            question := blanked;
                            options := None;
                            answer := AnsStr target;
                            source := source_of art |}])
  end.

Definition make_fill_blank (arts : list Article) (count : Z)
  : M R (list Question) :=
  fb_articles count arts [].

(** *** make_short_answers (no randomness) *)

Fixpoint sa_articles (count : Z) (arts : list Article)
    (results : list Question) (taken : list str) : list Question :=
  match arts with
  | [] => results
  | art :: rest =>
      if (count <=? len results)%Z then results
      else if mem (article_no art) taken then
        sa_articles count rest results taken
      else
        sa_articles count rest
          (results ++ [{| qtype := T_short;
                          question := short_qtext (article_no art);
                          options := None;
                          answer := AnsStr (text art);
                          source := source_of art |}])
          (article_no art :: taken)
  end.

Definition make_short_answers (arts : list Article) (count : Z)
  : list Question :=
  sa_articles count arts [] [].

(** *** assemble_exam

    The state is the pair of the module-level generator, read by
    [weighted_sample], and of [rng], read by the generators. *)

Definition on_global {A} (m : M G A) : M (G * R) A :=
  fun s => match m (fst s) with
           | Ok (a, g') => Ok (a, (g', snd s))
           | Raise e => Raise e
           end.

Definition on_rng {A} (m : M R A) : M (G * R) A :=
  fun s => match m (snd s) with
           | Ok (a, r') => Ok (a, (fst s, r'))
           | Raise e => Raise e
           end.

(** [[a for a in articles if a.get("article_no") in set(...)]]: the set is
    built anew for every article, and [set(None)] raises [TypeError]. *)
Definition important_among (articles : list Article) (weights : Weights)
  : result (list Article) :=
  match articles, get (important_articles weights) (Value []) with
  | _ :: _, Null => Raise TypeError
  | _, imp_list =>
      Ok (filter (fun a => mem (article_no a) (or_empty imp_list)) articles)
  end.

Definition assemble_exam (articles : list Article) (cfg : Config)
  : M (G * R) Exam :=
  let counts := get (counts cfg) no_counts in
  let weights := get (weights cfg) no_weights in
  tf_arts <- on_global
    (weighted_sample articles weights (get (true_false counts) 0 * 2)%Z) ;;
  sc_arts <- on_global
    (weighted_sample articles weights (get (single_choice counts) 0 * 2)%Z) ;;
  mc_arts <- on_global
    (weighted_sample articles weights (get (multiple_choice counts) 0 * 2)%Z) ;;
  fb_arts <- on_global
    (weighted_sample articles weights (get (fill_blank counts) 0 * 2)%Z) ;;
  short_important <- lift (important_among articles weights) ;;
  let short_important :=
    if (len short_important <? get (short_answer counts) 0)%Z
    then slice_to (short_important ++ articles) (get (short_answer counts) 0%Z)
    else short_important in
  tf <- on_rng (make_true_false tf_arts (get (true_false counts) 0%Z)) ;;
  sc <- on_rng (make_single_choice sc_arts (get (single_choice counts) 0%Z)) ;;
  mc <- on_rng
    (make_multiple_choice mc_arts (get (multiple_choice counts) 0%Z)) ;;
  fb <- on_rng (make_fill_blank fb_arts (get (fill_blank counts) 0%Z)) ;;
  ret {| exam_true_false := tf;
         exam_single := sc;
         exam_multiple := mc;
         exam_fill := fb;
         exam_short :=
           make_short_answers short_important
             (get (short_answer counts) 0%Z) |}.

End Generators.

End qg.
Import qg.

(* ===================================================================== *)
(** ** docx_parser.py                                                     *)
(* ===================================================================== *)

Module dp.

Definition NL : str := [0x0A%N].

Definition DI : char := 0x7B2C%N.        (* 第 *)
Definition TIAO : char := 0x6761%N.      (* 条 *)
Definition KUAN : char := 0x6B3E%N.      (* 款 *)
Definition LPAREN : char := 0x28%N.
Definition RPAREN : char := 0x29%N.
Definition LPAREN_WIDE : char := 0xFF08%N.
Definition RPAREN_WIDE : char := 0xFF09%N.

(** The range [0-9] of the patterns: the ASCII digits only. *)
Definition ascii_digit (c : char) : bool := ((0x30 <=? c) && (c <=? 0x39))%N.

(** The class [[一二三四五六七八九十百千0-9]] of [ARTICLE_PATTERN]. *)
Definition ARTICLE_NUMERALS : str :=
  Eval vm_compute in u "一二三四五六七八九十百千".
Definition article_numeral (c : char) : bool :=
  existsb (N.eqb c) ARTICLE_NUMERALS || ascii_digit c.

(** The class [[一二三四五六七八九十0-9]] of the clause markers. *)
Definition CLAUSE_NUMERALS : str := Eval vm_compute in u "一二三四五六七八九十".
Definition clause_numeral (c : char) : bool :=
  existsb (N.eqb c) CLAUSE_NUMERALS || ascii_digit c.

(** The longest prefix of [s] in the class [p], and what follows it: what a
    greedy [[...]+] takes when the next item of the pattern is outside the
    class. *)
Fixpoint span (p : char -> bool) (s : str) : str * str :=
  match s with
  | [] => ([], [])
  | c :: r =>
      if p c then let (run, rest) := span p r in (c :: run, rest)
      else ([], s)
  end.

(** [m = ARTICLE_PATTERN.match(para)]: [m.group(0)] and [para[m.end():]]. *)
Definition match_article (para : str) : option (str * str) :=
  match para with
  | c :: r =>
      if (c =? DI)%N then
        match span article_numeral r with
        | (d :: ds, t :: rest) =>
            if (t =? TIAO)%N then Some (c :: (d :: ds) ++ [t], rest) else None
        | _ => None
        end
      else None
  | [] => None
  end.

(** The look-ahead of [split_clauses]: a clause marker starts at the head of
    [s]. *)
Definition marker_at (s : str) : bool :=
  match s with
  | c :: r =>
      if (c =? DI)%N then
        match span clause_numeral r with
        | (_ :: _, t :: _) => (t =? KUAN)%N
        | _ => false
        end
      else if (c =? LPAREN_WIDE)%N || (c =? LPAREN)%N then
        match span clause_numeral r with
        | (_ :: _, t :: _) => (t =? RPAREN)%N || (t =? RPAREN_WIDE)%N
        | _ => false
        end
      else false
  | [] => false
  end.

(** [re.split(r"(?=(?:...))", line)]: cut before every position where a
    marker starts; a marker at the very start gives a leading empty part. *)
Fixpoint re_split (line : str) : list str :=
  match line with
  | [] => [[]]
  | c :: r =>
      let parts :=
        match re_split r with
        | p :: ps => (c :: p) :: ps
        | [] => [[c]]
        end in
      if marker_at line then [] :: parts else parts
  end.

(** The line boundaries of [str.splitlines]. *)
Definition LINE_BOUNDARIES : str :=
  [0x0A; 0x0B; 0x0C; 0x0D; 0x1C; 0x1D; 0x1E; 0x85; 0x2028; 0x2029]%N.
Definition line_boundary (c : char) : bool :=
  existsb (N.eqb c) LINE_BOUNDARIES.

(** [s.splitlines()]; [after_cr] tells that the character before [s] is a
    carriage return, whose line feed belongs to the same boundary. *)
Fixpoint splitlines_from (after_cr : bool) (s : str) : list str :=
  match s with
  | [] => []
  | c :: r =>
      if after_cr && (c =? 0x0A)%N then splitlines_from false r
      else if line_boundary c then [] :: splitlines_from (c =? 0x0D)%N r
      else match splitlines_from false r with
           | p :: ps => (c :: p) :: ps
           | [] => [[c]]
           end
  end.

Definition splitlines (s : str) : list str := splitlines_from false s.

(** The parts of the lines, stripped, the empty ones dropped. *)
Definition chunks_of (text : str) : list str :=
  let lines :=
    map strip (filter (fun ln => tp.nonempty (strip ln)) (splitlines text)) in
  flat_map
    (fun line => filter (@tp.nonempty char) (map strip (re_split line)))
    lines.

Definition split_clauses (text : str) : list str :=
  let chunks := chunks_of text in
  if tp.nonempty chunks then chunks
  else if tp.nonempty text then [text] else [].

(** [s.strip(chars)] *)
Fixpoint lstrip_chars (chars : str) (s : str) : str :=
  match s with
  | [] => []
  | c :: r => if existsb (N.eqb c) chars then lstrip_chars chars r else s
  end.
Definition strip_chars (chars : str) (s : str) : str :=
  rev (lstrip_chars chars (rev (lstrip_chars chars s))).

(** The characters stripped from a title. *)
Definition TITLE_STRIP : str := [0x20; 0x3000; 0xFF1A; 0x3A; 0x2E; 0x2D]%N.

(** The variables of [read_docx] that its loop and [flush_article] update. *)
Record State := {
  articles : list Article;
  current_no : option str;
  current_title : str;
  buffer : list str
}.

Definition initial : State :=
  {| articles := []; current_no := None; current_title := []; buffer := [] |}.

Section Read.

(** [str(file_path.name)] *)
Variable name : str.

Definition flush_article (st : State) : State :=
  match current_no st with
  | None => st
  | Some no =>
      let full_text := strip (join NL (buffer st)) in
      {| articles :=
           articles st
           ++ [{| source_file := name;
                  article_no := no;
                  title := current_title st;
                  text := full_text;
                  clauses := split_clauses full_text |}];
         current_no := None;
         current_title := [];
         buffer := [] |}
  end.

(** One round of the loop over the paragraphs. *)
Definition step (st : State) (para : str) : State :=
  match match_article para with
  | Some (no, rest) =>
      let st := flush_article st in
      let t := strip_chars TITLE_STRIP rest in
      if tp.nonempty t && (50 <? length t)%nat then
        {| articles := articles st;
           current_no := Some no;
           current_title := [];
           buffer := buffer st ++ [para] |}
      else
        {| articles := articles st;
           current_no := Some no;
           current_title := t;
           buffer := buffer st |}
  | None =>
      match current_no st with
      | None => st
      | Some _ =>
          {| articles := articles st;
             current_no := current_no st;
             current_title := current_title st;
             buffer := buffer st ++ [para] |}
      end
  end.

(** [[p.text.strip() for p in doc.paragraphs if p.text and p.text.strip()]] *)
Definition paragraphs (texts : list str) : list str :=
  map strip
    (filter (fun t => tp.nonempty t && tp.nonempty (strip t)) texts).

(** [read_docx], from the file's name and the texts of the paragraphs of
    the document. *)
Definition read_docx (texts : list str) : list Article :=
  articles (flush_article (fold_left step (paragraphs texts) initial)).

End Read.

End dp.

(* ===================================================================== *)
(** ** latex_generator.py                                                 *)
(* ===================================================================== *)

Module lg.

Definition NL : str := [0x0A%N].

(** The raw string [HEADER_TMPL], line breaks included. *)
Definition HEADER_TMPL : str := Eval vm_compute in u "
\documentclass[12pt]{ctexart}
\usepackage[a4paper,margin=2cm]{geometry}
\usepackage{exam-zh}
\usepackage{enumitem}
\usepackage{xeCJK}
\setCJKmainfont{Noto Serif CJK SC}

% Toggle answers with \printanswers
% The answers version will add \printanswers after \begin{document}

\begin{document}
\vspace*{-2em}
\begin{center}
  {\LARGE %TITLE%}\\[4pt]
  考试时间：%TIME%分钟 \quad 满分：%TOTAL%分
\end{center}
\vspace{0.5em}

".

Definition FOOTER_TMPL : str := Eval vm_compute in u "
\end{document}
".

(** The configuration keys read by the renderer, beside [counts]. *)
Record Layout := {
  exam_title : option str;
  exam_time_minutes : option Z;
  points : option Counts
}.

(** [str(n)] for an integer; [None] when it raises (more digits than the
    interpreter's limit). *)
Definition str_of_Z (n : Z) : option str :=
  match str_of_int (Z.to_N (Z.abs n)) with
  | Ok digits => Some (if (n <? 0)%Z then 0x2D%N :: digits else digits)
  | Raise _ => None
  end.

(** [s.replace(old, new)] for a non-empty [old]: the occurrences are
    replaced from the left, without overlap; [skip] characters belong to
    the occurrence just replaced. *)
Fixpoint replace_from (skip : nat) (old new s : str) : str :=
  match s with
  | [] => []
  | c :: r =>
      match skip with
      | S k => replace_from k old new r
      | O =>
          if startswith old s
          then new ++ replace_from (length old - 1) old new r
          else c :: replace_from 0 old new r
      end
  end.
Definition replace (old new s : str) : str := replace_from 0 old new s.

(** [template.format(args...)] for a template whose only fields are [{}];
    doubled braces stand for themselves.  [None] is an exception (an index
    out of range, a lone brace) or a field this model does not cover. *)
Fixpoint format (template : str) (args : list str) : option str :=
  match template with
  | [] => Some []
  | c :: r =>
      if (c =? 0x7B)%N then
        match r with
        | d :: r' =>
            if (d =? 0x7B)%N then option_map (cons c) (format r' args)
            else if (d =? 0x7D)%N then
              match args with
              | a :: args' => option_map (app a) (format r' args')
              | [] => None
              end
            else None
        | [] => None
        end
      else if (c =? 0x7D)%N then
        match r with
        | d :: r' =>
            if (d =? 0x7D)%N then option_map (cons c) (format r' args)
            else None
        | [] => None
        end
      else option_map (cons c) (format r args)
  end.

Definition points_sum (points_cfg counts_cfg : Counts) : Z :=
  (get (true_false points_cfg) 0 * get (true_false counts_cfg) 0
   + get (single_choice points_cfg) 0 * get (single_choice counts_cfg) 0
   + get (multiple_choice points_cfg) 0 * get (multiple_choice counts_cfg) 0
   + get (fill_blank points_cfg) 0 * get (fill_blank counts_cfg) 0
   + get (short_answer points_cfg) 0 * get (short_answer counts_cfg) 0)%Z.

(** The dictionary [repl] of [latex_escape]. *)
Definition repl (ch : char) : option str :=
  if (ch =? 0x5C)%N then Some (u "\textbackslash{}")
  else if (ch =? 0x26)%N then Some (u "\&")
  else if (ch =? 0x25)%N then Some (u "\%")
  else if (ch =? 0x24)%N then Some (u "\$")
  else if (ch =? 0x23)%N then Some (u "\#")
  else if (ch =? 0x5F)%N then Some (u "\_")
  else if (ch =? 0x7B)%N then Some (u "\{")
  else if (ch =? 0x7D)%N then Some (u "\}")
  else if (ch =? 0x7E)%N then Some (u "\textasciitilde{}")
  else if (ch =? 0x5E)%N then Some (u "\textasciicircum{}")
  else None.

(** [repl.get(ch, ch)] *)
Definition escape_char (ch : char) : str :=
  match repl ch with Some r => r | None => [ch] end.

Definition latex_escape (s : str) : str := flat_map escape_char s.

(** [latex_escape] applied to a list of strings: the loop takes its items,
    and only an item that is one special character is in [repl]. *)
Definition escape_item (item : str) : str :=
  match item with
  | [ch] => escape_char ch
  | _ => item
  end.
Definition latex_escape_items (l : list str) : str := flat_map escape_item l.

Definition latex_escape_answer (a : Answer) : str :=
  match a with
  | AnsStr s => latex_escape s
  | AnsList l => latex_escape_items l
  end.

Definition lit_question : str := Eval vm_compute in u "\question {}".
Definition lit_fi : str := Eval vm_compute in u "\fi".
Definition lit_question_answer : str :=
  Eval vm_compute in u "\question {}\ifprintanswers\par\textbf{答案：}".
Definition lit_answer : str :=
  Eval vm_compute in u "\ifprintanswers\par\textbf{答案：}".
Definition lit_key_points : str :=
  Eval vm_compute in u "\ifprintanswers\par\textbf{要点：}".
Definition lit_begin_questions : str :=
  Eval vm_compute in u "\begin{questions}".
Definition lit_end_questions : str := Eval vm_compute in u "\end{questions}".
Definition lit_item : str := Eval vm_compute in u "\item ".
Definition lit_begin_enumerate : str :=
  Eval vm_compute in u "\begin{enumerate}[label=\Alph*.]".
Definition lit_end_enumerate : str := Eval vm_compute in u "\end{enumerate}".
Definition COMMA : str := [0x2C%N].

(** [f"\\section*{{{title}}}"] *)
Definition section (title : str) : str :=
  Eval vm_compute in u "\section*{" ++ title ++ [0x7D%N].

(** [render_choices(options)] *)
Definition render_choices (opts : list str) : str :=
  let items := join NL (map (fun opt => lit_item ++ opt) opts) in
  lit_begin_enumerate ++ NL ++ items ++ NL ++ lit_end_enumerate.

(** ["\\question {}".format(latex_escape(q["question"]))] *)
Definition question_line (q : Question) : option str :=
  format lit_question [latex_escape (question q)].

Section Render.

(** [str(l)] for a list of strings, needed only for a fill-in question
    whose answer is a list. *)
Variable repr_list : list str -> str.

(** The lines appended for one question of each type; [None] when the
    statement raises. *)
Definition true_false_lines (q : Question) : option (list str) :=
  match answer q, format lit_fi [latex_escape (question q)] with
  | AnsStr ans, Some fi => Some [lit_question_answer ++ ans ++ fi]
  | _, _ => None
  end.

Definition single_lines (q : Question) : option (list str) :=
  match question_line q, options q with
  | Some line, Some opts =>
      Some [line;
            render_choices (map latex_escape opts);
            lit_answer ++ latex_escape_answer (answer q) ++ lit_fi]
  | _, _ => None
  end.

Definition multiple_lines (q : Question) : option (list str) :=
  match question_line q, options q with
  | Some line, Some opts =>
      Some [line;
            render_choices (map latex_escape opts);
            lit_answer
            ++ join COMMA (match answer q with
                           | AnsStr s => map (fun c => [c]) s
                           | AnsList l => l
                           end)
            ++ lit_fi]
  | _, _ => None
  end.

Definition fill_lines (q : Question) : option (list str) :=
  match question_line q with
  | Some line =>
      Some [line;
            lit_answer
            ++ latex_escape (match answer q with
                             | AnsStr s => s
                             | AnsList l => repr_list l
                             end)
            ++ lit_fi]
  | None => None
  end.

Definition short_lines (q : Question) : option (list str) :=
  match question_line q with
  | Some line =>
      Some [line; lit_key_points ++ latex_escape_answer (answer q) ++ lit_fi]
  | None => None
  end.

(** The lines of the questions of a list, in order. *)
Fixpoint all_lines (lines : Question -> option (list str))
    (qs : list Question) : option (list str) :=
  match qs with
  | [] => Some []
  | q :: r =>
      match lines q, all_lines lines r with
      | Some l, Some ls => Some (l ++ ls)
      | _, _ => None
      end
  end.

(** One block of the body: nothing for an empty list. *)
Definition block (title : str) (lines : Question -> option (list str))
    (qs : list Question) : option (list str) :=
  if tp.nonempty qs then
    match all_lines lines qs with
    | Some ls =>
        Some ([section title; lit_begin_questions] ++ ls
              ++ [lit_end_questions])
    | None => None
    end
  else Some [].

Definition render_exam_latex (exam : Exam) (cfg : Config) (layout : Layout)
    (with_answers : bool) : option str :=
  let title := get (exam_title layout) (u "考试试卷") in
  let total :=
    points_sum (get (points layout) no_counts) (get (counts cfg) no_counts) in
  match str_of_Z (get (exam_time_minutes layout) 120%Z), str_of_Z total,
        block (u "一、判断题") true_false_lines (exam_true_false exam),
        block (u "二、单选题") single_lines (exam_single exam),
        block (u "三、多选题") multiple_lines (exam_multiple exam),
        block (u "四、填空题") fill_lines (exam_fill exam),
        block (u "五、简答题") short_lines (exam_short exam) with
  | Some time, Some total, Some b1, Some b2, Some b3, Some b4, Some b5 =>
      let header :=
        replace (u "%TOTAL%") total
          (replace (u "%TIME%") time
             (replace (u "%TITLE%") title HEADER_TMPL)) in
      let body := b1 ++ b2 ++ b3 ++ b4 ++ b5 in
      let content := join NL body in
      let header :=
        if with_answers then
          replace (u "\begin{document}")
            (u "\begin{document}" ++ NL ++ u "\printanswers") header
        else
          replace (u "\usepackage{exam-zh}")
            (u "\usepackage[answers=false]{exam-zh}") header in
      Some (header ++ content ++ NL ++ FOOTER_TMPL)
  | _, _, _, _, _, _, _ => None
  end.

End Render.

End lg.

(* ===================================================================== *)
(** ** main.py                                                            *)
(* ===================================================================== *)

Module main.

(** The sample fabricated when no article was parsed. *)
Definition sample : list Article :=
  [ {| source_file := u "sample.docx";
       article_no := u "第1条";
       title := u "总则";
       text := u "公民依法享有权利并履行义务。不得侵犯他人合法权益。违反规定的，应当承担相应责任。";
       clauses := [u "公民依法享有权利并履行义务。";
                   u "不得侵犯他人合法权益。";
                   u "违反规定的，应当承担相应责任。"] |};
    {| source_file := u "sample.docx";
       article_no := u "第2条";
       title := u "管理";
       text := u "行政机关可以依照法定权限和程序实施行政管理。应当公开、公正、公平。";
       clauses := [u "行政机关可以依照法定权限和程序实施行政管理。";
                   u "应当公开、公正、公平。"] |} ].

(** [articles = docx_parser.parse_directory(input_dir)] followed by
    [if not articles: articles = [...]]: the articles handed to
    [assemble_exam], given the parsed ones. *)
Definition articles_for_exam (parsed : list Article) : list Article :=
  if negb (tp.nonempty parsed) then sample else parsed.

Section Main.

Context {R : Type} {RS : RandomSource R}.
Context {G : Type} {GS : RandomSource G}.
Variable tokens : str -> option (list str).

(** [exam = qg.assemble_exam(articles, cfg, rng)], from the parsed
    articles. *)
Definition exam_of (parsed : list Article) (cfg : Config) : M (G * R) Exam :=
  assemble_exam tokens (articles_for_exam parsed) cfg.

End Main.

End main.

(* ===================================================================== *)
(** ** Specification-side definitions                                     *)
(* ===================================================================== *)

Module Spec.

(** The fields of a text between white-space characters, empty fields
    included ([" a  b"] has the fields [""], ["a"], [""], ["b"]). *)
Fixpoint fields (s : str) : list str :=
  match s with
  | [] => [[]]
  | c :: r =>
      if isspace c then [] :: fields r
      else match fields r with
           | w :: ws => (c :: w) :: ws
           | [] => [[c]]
           end
  end.

(** The words of a text: its maximal runs without white space. *)
Definition words (s : str) : list str := filter tp.nonempty (fields s).

(** The text with every run of white space collapsed to one ASCII space and
    both ends trimmed: its words, separated by single spaces. *)
Definition collapsed (s : str) : str := join [tp.SPACE] (words s).

(** [s] occurs in [t] as a contiguous substring. *)
Definition occurs_in (s t : str) : Prop :=
  exists pre post, t = pre ++ s ++ post.

(** The first occurrence of [a] in [s] is at [pre]: [s = pre ++ a ++ post]
    and [a] does not start at any earlier position. *)
Definition first_occurrence (a s pre post : str) : Prop :=
  s = pre ++ a ++ post
  /\ forall i, i < length pre -> startswith a (skipn i s) = false.


End Spec.

(* ===================================================================== *)
(** ** Properties of texts                                                *)
(* ===================================================================== *)

(** Texts without white space, without digits, of digits only. *)
Definition no_space (w : str) : Prop :=
  Forall (fun c => isspace c = false) w.
Definition no_digit (s : str) : Prop :=
  Forall (fun c => isdecimal c = false) s.
Definition all_digits (s : str) : Prop :=
  Forall (fun c => isdecimal c = true) s.

(** [post] does not continue a run of digits. *)
Definition run_ends (post : str) : Prop :=
  match post with
  | [] => True
  | c :: _ => isdecimal c = false
  end.

(** The words of the table before the chosen pair do not occur in [s]. *)
Definition none_occurs (table : list (str * str)) (s : str) : Prop :=
  forall a b, In (a, b) table -> contains a s = false.

(** The first pair of [swaps]. *)
Definition lit_shall : str := Eval vm_compute in u "应当".
Definition lit_shall_not : str := Eval vm_compute in u "不得".

(** The words after the first field, each preceded by the separator. *)
Definition spaced (l : list str) : str :=
  flat_map (fun w => tp.SPACE :: w) (filter tp.nonempty l).

(** [rstrip], by recursion from the left. *)
Fixpoint rstrip_rec (s : str) : str :=
  match s with
  | [] => []
  | c :: r =>
      match rstrip_rec r with
      | [] => if isspace c then [] else [c]
      | r' => c :: r'
      end
  end.

(* ===================================================================== *)
(** ** Properties of computations and of the questions                    *)
(* ===================================================================== *)

(** [returns m s P]: run from state [s], [m] does not raise, and its result
    and final state satisfy [P]. *)
Definition returns {S A} (m : M S A) (s : S) (P : A -> S -> Prop) : Prop :=
  match m s with
  | Ok (a, s') => P a s'
  | Raise _ => False
  end.

(** [ends m s P Q]: run from state [s], [m] returns a result and a final
    state that satisfy [P], or raises an exception that satisfies [Q]. *)
Definition ends {S A} (m : M S A) (s : S) (P : A -> S -> Prop)
    (Q : exn -> Prop) : Prop :=
  match m s with
  | Ok (a, s') => P a s'
  | Raise e => Q e
  end.

(** The negation of [s] does not raise. *)
Definition negatable (s : str) : bool :=
  match negate_statement s with
  | Ok _ => true
  | Raise _ => false
  end.

(** Elements taken at distinct positions of a list. *)
Definition taken_from {A} (l xs : list A) : Prop :=
  exists idx,
    NoDup idx /\ Forall2 (fun i x => nth_error l i = Some x) idx xs.

(** The question [q] was made from the sentence [base]: it states [base]
    and is labelled right, or states its negation and is labelled wrong. *)
Definition derived_from (base : str) (q : Question) : Prop :=
  (question q = base /\ answer q = AnsStr RIGHT)
  \/ (negate_statement base = Ok (question q) /\ answer q = AnsStr WRONG).

(** [base] is a sentence of one of the articles. *)
Definition sentence_of (tokens : str -> option (list str))
    (arts : list Article) (base : str) : Prop :=
  exists art, In art arts /\ In base (tp.sentences (extract tokens (text art))).

(** The only exception of a run of the true/false generator: [ValueError],
    from the negation of a sentence of the articles. *)
Definition negation_raised (origin : str -> Prop) (e : exn) : Prop :=
  e = ValueError
  /\ exists base, origin base /\ negate_statement base = Raise ValueError.

(** The invariant of both loops: [seen] lists, latest first, the sentences
    the results were made from. *)
Definition tf_inv (origin : str -> Prop) (count : Z)
    (st : list Question * list str) : Prop :=
  Forall2 derived_from (rev (snd st)) (fst st)
  /\ NoDup (snd st)
  /\ Forall (fun base => 6 <= length base /\ origin base) (snd st)
  /\ (len (fst st) <= Z.max 0 count)%Z.

(** The cumulated weights of the articles, and their total, as
    [random.choices] computes them: in floats, one rounding per sum. *)
Definition cum_weights (weights_cfg : Weights) (articles : list Article)
  : list float :=
  accumulate (map (article_weight weights_cfg) articles).

Definition total_weight (weights_cfg : Weights) (articles : list Article)
  : float :=
  fadd (last (cum_weights weights_cfg articles) float_zero) float_zero.

(** The total passes the two tests of [random.choices]: it is greater than
    zero, and finite. *)
Definition usable_total (weights_cfg : Weights) (articles : list Article)
  : bool :=
  negb (fle (total_weight weights_cfg articles) float_zero)
  && isfinite (total_weight weights_cfg articles).

(** The article selected by the draw [x]: the one at the position where the
    float [x * total] falls among the cumulated weights. *)
Definition drawn (weights_cfg : Weights) (articles : list Article)
    (x : float) (a : Article) : Prop :=
  nth_error articles
    (bisect (cum_weights weights_cfg articles)
       (fmul x (total_weight weights_cfg articles)) 0 (length articles - 1))
  = Some a.

(** The number of articles [weighted_sample] draws for a type whose
    configured count is [count]. *)
Definition sample_size (articles : list Article) (count : Z) : nat :=
  Z.to_nat (Z.min (count * 2)%Z (Z.max 1 (len articles))).

(** The number of values of [random()] that the four samplings of
    [assemble_exam] ask of the module-level generator. *)
Definition global_draws (articles : list Article) (cfg : Config) : nat :=
  let counts := get (counts cfg) no_counts in
  sample_size articles (get (true_false counts) 0%Z)
  + sample_size articles (get (single_choice counts) 0%Z)
  + sample_size articles (get (multiple_choice counts) 0%Z)
  + sample_size articles (get (fill_blank counts) 0%Z).

(** What a caller of [assemble_exam] sees: the exam and the state of its
    [rng], or the exception; not the state of the module-level generator. *)
Definition visible_outcome {G R A} (x : result (A * (G * R)))
  : result (A * R) :=
  match x with
  | Ok (a, (_, r)) => Ok (a, r)
  | Raise e => Raise e
  end.

(** The list of important articles of the configuration is not [null]. *)
Definition important_not_null (weights_cfg : Weights) : bool :=
  match important_articles weights_cfg with
  | Some Null => false
  | _ => true
  end.

Section Draws.

Context {G : Type} {GS : RandomSource G}.

(** The next [k] values of [random()] and the state after them. *)
Fixpoint draws (k : nat) (g : G) : list float :=
  match k with
  | O => []
  | S k' =>
      float_of_bits (fst (next_random g)) :: draws k' (snd (next_random g))
  end.

Fixpoint after_draws (k : nat) (g : G) : G :=
  match k with
  | O => g
  | S k' => after_draws k' (snd (next_random g))
  end.

End Draws.

Definition str_dec : forall a b : str, {a = b} + {a <> b} :=
  list_eq_dec N.eq_dec.

(** The candidates [sample_distractors] draws from. *)
Definition distractor_candidates (pool : list str) (key : str) (n : Z)
  : list str :=
  let candidates := filter (fun p => negb (contains key p)) pool in
  if (len candidates <? n)%Z then pool else candidates.

(** A well-formed single-choice question over the articles [arts]: the
    correct option, built from a keyword of one of the articles, occurs
    exactly once among the options, at the position the answer letter
    names; the other options are distractors of the pool, as many as
    [sample_distractors] could draw (three, or all the candidates when
    there are fewer). *)
Definition single_valid (tokens : str -> option (list str))
    (arts : list Article) (q : Question) : Prop :=
  exists art key opts ans,
    In art arts
    /\ In key (tp.pick_keywords (extract tokens (text art)) 5)
    /\ options q = Some opts
    /\ answer q = AnsStr (letter ans)
    /\ count_occ str_dec opts (single_correct key) = 1
    /\ nth_error opts ans = Some (single_correct key)
    /\ ans < 4
    /\ length opts
       = 1 + Nat.min 3
               (length (distractor_candidates
                          (build_distractor_pool tokens arts) key 3))
    /\ forall opt, In opt opts ->
         opt = single_correct key
         \/ In opt (build_distractor_pool tokens arts).

(** The positions of the options that are members of [correct], the
    enumeration starting at [i]. *)
Fixpoint positions_in (i : nat) (options correct : list str) : list nat :=
  match options with
  | [] => []
  | opt :: r =>
      if mem opt correct then i :: positions_in (S i) r correct
      else positions_in (S i) r correct
  end.

(** A well-formed multiple-choice question over the articles [arts]:
    [chosen] are the sampled keywords, [idx] the positions named by the
    answer letters. *)
Definition multiple_valid (tokens : str -> option (list str))
    (arts : list Article) (q : Question) : Prop :=
  exists art chosen distractors opts idx,
    In art arts
    /\ NoDup chosen
    /\ (forall kw, In kw chosen ->
          In kw (tp.pick_keywords (extract tokens (text art)) 6))
    /\ 2 <= length chosen <= 4
    /\ (forall d, In d distractors ->
          In d (build_distractor_pool tokens arts)
          /\ ~ In d (map multiple_correct chosen))
    /\ options q = Some opts
    /\ Permutation (map multiple_correct chosen ++ distractors) opts
    /\ answer q = AnsList (map letter idx)
    /\ NoDup idx
    /\ (forall i, In i idx <->
          exists opt, nth_error opts i = Some opt
                      /\ In opt (map multiple_correct chosen))
    /\ idx <> []
    /\ (distractors <> [] -> exists j, j < length opts /\ ~ In j idx).


Section Phases.

Context {R : Type} {RS : RandomSource R}.
Context {G : Type} {GS : RandomSource G}.
Variable tokens : str -> option (list str).

(** The four article samples of [assemble_exam], in the order they are
    drawn. *)
Definition sample_articles (articles : list Article) (cfg : Config)
  : M G (list Article * list Article * list Article * list Article) :=
  let counts := get (counts cfg) no_counts in
  let weights := get (weights cfg) no_weights in
  tf_arts <-
    weighted_sample articles weights (get (true_false counts) 0 * 2)%Z ;;
  sc_arts <-
    weighted_sample articles weights (get (single_choice counts) 0 * 2)%Z ;;
  mc_arts <-
    weighted_sample articles weights (get (multiple_choice counts) 0 * 2)%Z ;;
  fb_arts <-
    weighted_sample articles weights (get (fill_blank counts) 0 * 2)%Z ;;
  ret (tf_arts, sc_arts, mc_arts, fb_arts).

(** The candidates of the short-answer questions (for a list of important
    articles that is [null], read as the empty list; [assemble_exam] then
    raises before it uses them). *)
Definition short_candidates (articles : list Article) (cfg : Config)
  : list Article :=
  let counts := get (counts cfg) no_counts in
  let weights := get (weights cfg) no_weights in
  let short_important :=
    filter
      (fun a =>
         mem (article_no a)
           (or_empty (get (important_articles weights) (Value []))))
      articles in
  if (len short_important <? get (short_answer counts) 0)%Z
  then slice_to (short_important ++ articles) (get (short_answer counts) 0%Z)
  else short_important.

(** The five generators of [assemble_exam], run on given samples. *)
Definition generate_questions (articles : list Article) (cfg : Config)
    (samples : list Article * list Article * list Article * list Article)
  : M R Exam :=
  let counts := get (counts cfg) no_counts in
  let '(tf_arts, sc_arts, mc_arts, fb_arts) := samples in
  tf <- make_true_false tokens tf_arts (get (true_false counts) 0%Z) ;;
  sc <- make_single_choice tokens sc_arts (get (single_choice counts) 0%Z) ;;
  mc <- make_multiple_choice tokens mc_arts
          (get (multiple_choice counts) 0%Z) ;;
  fb <- make_fill_blank tokens fb_arts (get (fill_blank counts) 0%Z) ;;
  ret {| exam_true_false := tf;
         exam_single := sc;
         exam_multiple := mc;
         exam_fill := fb;
         exam_short :=
           make_short_answers (short_candidates articles cfg)
             (get (short_answer counts) 0%Z) |}.

End Phases.

(* ===================================================================== *)
(** ** A random source read from a tape                                   *)
(* ===================================================================== *)

(** A source whose draws are written in advance: each request consumes the
    next entry [h] of the tape ([0] once the tape is used up).  The bits of
    [random()] are those of [h mod 100] hundredths, rounded down,
    [_randbelow(n)] is [h mod n], and [sample] takes [k] consecutive
    positions (cyclically) from [h mod n]. *)
Module Tape.

Definition tape := list nat.

Definition draw (t : tape) : nat * tape :=
  match t with
  | [] => (0, [])
  | h :: r => (h, r)
  end.

Definition tape_random (t : tape) : N * tape :=
  ((N.of_nat (fst (draw t) mod 100) * 2 ^ 53 / 100)%N, snd (draw t)).

Definition tape_below (n : nat) (t : tape) : nat * tape :=
  (fst (draw t) mod n, snd (draw t)).

Definition rotate (start n : nat) : list nat :=
  skipn start (seq 0 n) ++ firstn start (seq 0 n).

Definition tape_sample (n k : nat) (t : tape) : list nat * tape :=
  (firstn k (rotate (fst (draw t) mod n) n), snd (draw t)).

#[export] Instance tape_source : RandomSource tape.
Proof.
  refine {| next_random := tape_random;
            next_below := tape_below;
            next_sample := tape_sample;
            next_random_range := _;
            next_below_lt := _;
            next_sample_distinct := _ |}.
  - intros t. unfold tape_random. cbn [fst].
    pose proof (Nat.mod_upper_bound (fst (draw t)) 100).
    apply N.Div0.div_lt_upper_bound. nia.
  - intros n t H. apply Nat.mod_upper_bound. lia.
  - intros n k t H. unfold tape_sample. cbn [fst].
    set (l := rotate (fst (draw t) mod n) n).
    assert (P : Permutation l (seq 0 n)).
    { unfold l, rotate. rewrite Permutation_app_comm.
      now rewrite firstn_skipn. }
    assert (N : NoDup l).
    { apply (Permutation_NoDup (Permutation_sym P)). apply seq_NoDup. }
    repeat split.
    + rewrite length_firstn, (Permutation_length P), length_seq. lia.
    + rewrite <- (firstn_skipn k l) in N. now apply NoDup_app_remove_r in N.
    + apply Forall_forall. intros i Hi.
      assert (Hl : In i l).
      { rewrite <- (firstn_skipn k l). apply in_or_app. now left. }
      apply (Permutation_in _ P) in Hl. apply in_seq in Hl. lia.
Defined.

End Tape.
Import Tape.

(** No tokenizer installed. *)
Definition no_tokens (norm : str) : option (list str) := None.

(* ===================================================================== *)
(** ** Concrete inputs                                                    *)
(* ===================================================================== *)

Definition article_1 : Article :=
  {| source_file := u "sample.docx";
     article_no := u "第1条";
     title := u "总则";
     text := u "公民应当遵守法律。禁止滥用权利。";
     clauses := [] |}.

Definition article_2 : Article :=
  {| source_file := u "sample.docx";
     article_no := u "第2条";
     title := u "管理";
     text := u "行政机关可以依照法定权限和程序实施行政管理。";
     clauses := [] |}.

Definition article_3 : Article :=
  {| source_file := u "sample.docx";
     article_no := u "第3条";
     title := u "监督";
     text := u "任何单位不得妨碍监督检查。";
     clauses := [] |}.

(** The first article weighs 0.1, the others 0.2. *)
Definition tenths : Weights :=
  {| important_articles := Some (Value [u "第1条"]);
     important_weight := Some (float_of_decimal 1 1);
     default := Some (float_of_decimal 2 1) |}.

(** The first article weighs -5.6, the others 0.7. *)
Definition heavy_last : Weights :=
  {| important_articles := Some (Value [u "第1条"]);
     important_weight := Some (float_of_decimal (-56) 1);
     default := Some (float_of_decimal 7 1) |}.

(** One question of each type, no [weights] entry. *)
Definition one_of_each : Config :=
  {| counts := Some {| true_false := Some 1%Z;
                       single_choice := Some 1%Z;
                       multiple_choice := Some 1%Z;
                       fill_blank := Some 1%Z;
                       short_answer := Some 1%Z |};
     weights := None |}.

(** An exam of one true/false question with the text [text]. *)
Definition true_false_only (text : str) : Exam :=
  {| exam_true_false := [tf_question article_1 text false];
     exam_single := [];
     exam_multiple := [];
     exam_fill := [];
     exam_short := [] |}.

Definition default_layout : lg.Layout :=
  {| lg.exam_title := None;
     lg.exam_time_minutes := None;
     lg.points := None |}.

(** An article whose text is one sentence of 4301 digits. *)
Definition article_of_digits : Article :=
  {| source_file := u "sample.docx";
     article_no := u "第4条";
     title := [];
     text := repeat 0x31%N 4301;
     clauses := [] |}.


(* ===================================================================== *)
(** ** Further properties of texts and articles                           *)
(* ===================================================================== *)

(** The characters of a text that are not white space, in order. *)
Definition visible (s : str) : str := filter (fun c => negb (isspace c)) s.

(** A sentence terminator occurs in [s] at most as its last character. *)
Definition ends_at_terminator (s : str) : Prop :=
  forall pre c post,
    s = pre ++ c :: post -> tp.sentence_end c = true -> post = [].

(** A date as [DATE_RE] matches it. *)
Definition date_shaped (d : str) : Prop :=
  exists y m dd,
    d = y ++ [tp.YEAR] ++ m ++ [tp.MONTH] ++ dd ++ [tp.DAY]
    /\ length y = 4 /\ all_digits y
    /\ 1 <= length m <= 2 /\ all_digits m
    /\ 1 <= length dd <= 2 /\ all_digits dd.

(** The articles of a list whose number was not met before, in order. *)
Fixpoint distinct_articles (taken : list str) (arts : list Article)
  : list Article :=
  match arts with
  | [] => []
  | art :: rest =>
      if mem (article_no art) taken then distinct_articles taken rest
      else art :: distinct_articles (article_no art :: taken) rest
  end.

(** The short-answer question of an article. *)
Definition short_question (art : Article) : Question :=
  {| qtype := T_short;
     question := short_qtext (article_no art);
     options := None;
     answer := AnsStr (text art);
     source := source_of art |}.

(** [q] is a question of type [t] whose source is one of [arts]. *)
Definition sourced (arts : list Article) (t : QType) (q : Question) : Prop :=
  qtype q = t /\ exists art, In art arts /\ source q = source_of art.

(** [q] has between [lo] and [hi] options, pairwise different. *)
Definition distinct_options (lo hi : nat) (q : Question) : Prop :=
  exists opts,
    options q = Some opts /\ NoDup opts /\ lo <= length opts <= hi.

(** The pool entries that do not contain [key]. *)
Definition without_key (pool : list str) (key : str) : list str :=
  filter (fun p => negb (contains key p)) pool.

(** Every sentence of the articles can be negated without an exception. *)
Definition all_negatable (tokens : str -> option (list str))
    (arts : list Article) : bool :=
  forallb
    (fun art => forallb negatable (tp.sentences (extract tokens (text art))))
    arts.

(** Every list of the exam is within the count configured for its type. *)
Definition within_counts (cfg : Config) (exam : Exam) : Prop :=
  let counts := get (counts cfg) no_counts in
  (len (exam_true_false exam) <= Z.max 0 (get (true_false counts) 0))%Z
  /\ (len (exam_single exam) <= Z.max 0 (get (single_choice counts) 0))%Z
  /\ (len (exam_multiple exam) <= Z.max 0 (get (multiple_choice counts) 0))%Z
  /\ (len (exam_fill exam) <= Z.max 0 (get (fill_blank counts) 0))%Z
  /\ (len (exam_short exam) <= Z.max 0 (get (short_answer counts) 0))%Z.

(** An article is in the important set of the configuration. *)
Definition important (cfg : Config) (a : Article) : bool :=
  mem (article_no a)
    (or_empty
       (get (important_articles (get (weights cfg) no_weights)) (Value []))).

(** A clause marker starts nowhere in [c] but, possibly, at its start. *)
Definition marker_only_at_start (c : str) : Prop :=
  forall pre post, c = pre ++ post -> pre <> [] -> dp.marker_at post = false.

(** The paragraph text [t] opens an article; the number it gives. *)
Definition is_heading (t : str) : bool :=
  match dp.match_article (strip t) with Some _ => true | None => false end.

Definition heading_no (t : str) : str :=
  match dp.match_article (strip t) with Some (no, _) => no | None => [] end.

(** An article number as [ARTICLE_PATTERN] matches it. *)
Definition article_no_shaped (no : str) : Prop :=
  exists run,
    no = dp.DI :: run ++ [dp.TIAO]
    /\ run <> []
    /\ Forall (fun c => dp.article_numeral c = true) run.

(** What [read_docx] guarantees of every article it returns. *)
Definition well_formed_article (name : str) (a : Article) : Prop :=
  source_file a = name
  /\ article_no_shaped (article_no a)
  /\ (length (title a) <= 50)%nat
  /\ dp.strip_chars dp.TITLE_STRIP (title a) = title a
  /\ strip (text a) = text a
  /\ clauses a = dp.split_clauses (text a).

(** What holds of the variables of [read_docx] all along. *)
Definition read_inv (name : str) (st : dp.State) : Prop :=
  Forall (well_formed_article name) (dp.articles st)
  /\ (forall no, dp.current_no st = Some no -> article_no_shaped no)
  /\ (length (dp.current_title st) <= 50)%nat
  /\ dp.strip_chars dp.TITLE_STRIP (dp.current_title st) = dp.current_title st
  /\ (dp.current_no st = None -> dp.buffer st = []).

(** The article numbers flushed so far, and the one that is open. *)
Definition numbers_of (st : dp.State) : list str :=
  map article_no (dp.articles st)
  ++ match dp.current_no st with Some no => [no] | None => [] end.

(** [st] is [st'] with the articles [pre] put before its own. *)
Definition shifted (pre : list Article) (st st' : dp.State) : Prop :=
  dp.articles st = pre ++ dp.articles st'
  /\ dp.current_no st = dp.current_no st'
  /\ dp.current_title st = dp.current_title st'
  /\ dp.buffer st = dp.buffer st'.

(** The characters [& % $ # _], which LaTeX reads as commands unless a
    backslash precedes them. *)
Definition hot (c : char) : bool :=
  ((c =? 0x26) || (c =? 0x25) || (c =? 0x24) || (c =? 0x23) || (c =? 0x5F))%N.

Definition BACKSLASH : char := 0x5C%N.

(** Every hot character of [s] comes right after a backslash; [prev]
    tells whether the character before [s] is a backslash. *)
Fixpoint guarded_from (prev : bool) (s : str) : bool :=
  match s with
  | [] => true
  | c :: r =>
      (if hot c then prev else true) && guarded_from (c =? BACKSLASH)%N r
  end.

(** No backslash of [s] is followed by the letter r. *)
Fixpoint no_backslash_r (prev : bool) (s : str) : bool :=
  match s with
  | [] => true
  | c :: r =>
      negb (prev && (c =? 0x72)%N) && no_backslash_r (c =? BACKSLASH)%N r
  end.

(** The blank marker after [latex_escape]. *)
Definition ESCAPED_BLANK : str :=
  Eval vm_compute in u "\textbackslash{}rule\{2cm\}\{0.4pt\}".

(* ===================================================================== *)
(** ** Strings: basic facts                                               *)
(* ===================================================================== *)

Section StringFacts.

Lemma str_eqb_eq (a b : str) : str_eqb a b = true <-> a = b.
Proof.
  unfold str_eqb. destruct (list_eq_dec N.eq_dec a b); split; congruence.
Qed.

Lemma str_eqb_neq (a b : str) : str_eqb a b = false <-> a <> b.
Proof.
  unfold str_eqb. destruct (list_eq_dec N.eq_dec a b); split; congruence.
Qed.

Lemma str_eqb_refl (a : str) : str_eqb a a = true.
Proof. now apply str_eqb_eq. Qed.

Lemma mem_In (x : str) (l : list str) : mem x l = true <-> In x l.
Proof.
  unfold mem. rewrite existsb_exists. split.
  - intros (y & Hy & E). apply str_eqb_eq in E. now subst.
  - intros H. exists x. split; [assumption | apply str_eqb_refl].
Qed.

Lemma mem_not_In (x : str) (l : list str) : mem x l = false <-> ~ In x l.
Proof.
  rewrite <- mem_In. destruct (mem x l); split; congruence.
Qed.

Lemma startswith_app (p s : str) :
  startswith p s = true <-> exists post, s = p ++ post.
Proof.
  revert s. induction p as [|a p IH]; intros s; simpl.
  - split; [intros _; now exists s | reflexivity].
  - destruct s as [|b s].
    + split; [discriminate | intros (post & E); discriminate].
    + rewrite andb_true_iff, N.eqb_eq, IH. split.
      * intros (-> & post & ->). now exists post.
      * intros (post & E). injection E as -> ->. split; [reflexivity|].
        now exists post.
Qed.

Lemma find_Some (p s : str) (i : nat) :
  find p s = Some i ->
  Spec.first_occurrence p s (firstn i s) (skipn (i + length p) s).
Proof.
  revert i. induction s as [|c s IH]; intros i.
  - simpl. destruct (startswith p []) eqn:E; [|discriminate].
    intros [= <-]. destruct p; [|discriminate]. split; [reflexivity|].
    simpl. intros i Hi. lia.
  - cbn [find]. destruct (startswith p (c :: s)) eqn:E.
    + intros [= <-]. apply startswith_app in E as (post & E).
      split.
      * cbn [firstn app Nat.add]. rewrite E.
        rewrite skipn_app, skipn_all, Nat.sub_diag. reflexivity.
      * simpl. intros i Hi. lia.
    + destruct (find p s) as [j|] eqn:F; [|discriminate].
      intros [= <-]. destruct (IH j eq_refl) as (E1 & E2). split.
      * simpl. f_equal. exact E1.
      * intros [|i] Hi; [exact E|]. simpl in Hi. simpl. apply E2. lia.
Qed.

Lemma find_None (p s : str) :
  find p s = None -> forall pre post, s <> pre ++ p ++ post.
Proof.
  induction s as [|c s IH]; cbn [find].
  - destruct (startswith p []) eqn:E; [discriminate|].
    intros _ pre post H. destruct pre; destruct p; try discriminate.
  - destruct (startswith p (c :: s)) eqn:E; [discriminate|].
    destruct (find p s) eqn:F; [discriminate|]. intros _ pre post H.
    destruct pre as [|d pre].
    + simpl in H. assert (startswith p (c :: s) = true).
      { apply startswith_app. now exists post. }
      congruence.
    + injection H as -> H. now apply (IH eq_refl pre post).
Qed.

Lemma contains_occurs (p s : str) :
  contains p s = true <-> Spec.occurs_in p s.
Proof.
  unfold contains. destruct (find p s) as [i|] eqn:F; split; try discriminate.
  - intros _. apply find_Some in F as (E & _). red. eauto.
  - reflexivity.
  - intros (pre & post & E). exfalso. now apply (find_None _ F pre post).
Qed.

Lemma replace1_first (a b s : str) :
  contains a s = true ->
  exists pre post,
    Spec.first_occurrence a s pre post /\ replace1 a b s = pre ++ b ++ post.
Proof.
  unfold contains, replace1. destruct (find a s) as [i|] eqn:F;
    [|discriminate].
  intros _. eexists _, _. split; [exact (find_Some _ _ F) | reflexivity].
Qed.

Lemma replace1_absent (a b s : str) :
  contains a s = false -> replace1 a b s = s.
Proof.
  unfold contains, replace1. now destruct (find a s).
Qed.

End StringFacts.

(* ===================================================================== *)
(** ** normalize_text                                                     *)
(* ===================================================================== *)

Section Normalize.

Import tp Spec.

Lemma whitespace_class_isspace (c : char) : whitespace_class c = isspace c.
Proof.
  unfold whitespace_class. destruct (N.eqb_spec c 0x3000%N) as [->|_];
    reflexivity.
Qed.

(** After the substitution no NBSP is left: the [replace] changes nothing. *)
Lemma replace_nbsp_sub (b : bool) (s : str) :
  replace_char NBSP SPACE (sub_whitespace b s) = sub_whitespace b s.
Proof.
  revert b. induction s as [|c s IH]; intros b; [reflexivity|].
  cbn [sub_whitespace]. destruct (whitespace_class c) eqn:E.
  - destruct b; [apply IH|]. cbn [replace_char map]. f_equal. apply IH.
  - cbn [replace_char map]. f_equal; [|apply IH].
    destruct (N.eqb_spec c NBSP) as [->|_]; [discriminate|reflexivity].
Qed.

Lemma lstrip_sub_true (s : str) :
  lstrip (sub_whitespace true s) = sub_whitespace true s.
Proof.
  induction s as [|c s IH]; [reflexivity|].
  cbn [sub_whitespace]. destruct (whitespace_class c) eqn:E; [exact IH|].
  cbn [lstrip]. rewrite <- whitespace_class_isspace, E. reflexivity.
Qed.

Lemma lstrip_sub_false (s : str) :
  lstrip (sub_whitespace false s) = sub_whitespace true s.
Proof.
  destruct s as [|c s]; [reflexivity|].
  cbn [sub_whitespace]. destruct (whitespace_class c) eqn:E.
  - cbn [lstrip]. change (isspace SPACE) with true. cbv iota.
    apply lstrip_sub_true.
  - cbn [lstrip]. rewrite <- whitespace_class_isspace, E. reflexivity.
Qed.

Lemma lstrip_snoc (l : str) (c : char) :
  lstrip (l ++ [c]) =
  match lstrip l with
  | [] => if isspace c then [] else [c]
  | l' => l' ++ [c]
  end.
Proof.
  induction l as [|d l IH]; [reflexivity|].
  cbn [app lstrip]. destruct (isspace d); [exact IH | reflexivity].
Qed.

Lemma rstrip_rstrip_rec (s : str) : rstrip s = rstrip_rec s.
Proof.
  unfold rstrip. induction s as [|c s IH]; [reflexivity|].
  cbn [rev rstrip_rec]. rewrite lstrip_snoc, <- IH.
  destruct (lstrip (rev s)) as [|d l] eqn:E.
  - simpl. now destruct (isspace c).
  - rewrite rev_app_distr. cbn [rev app].
    destruct (rev l ++ [d]) eqn:E'; [|reflexivity].
    now apply app_eq_nil in E' as [_ ?].
Qed.

Lemma join_spaced (x : str) (l : list str) :
  join [SPACE] (x :: filter nonempty l) = x ++ spaced l.
Proof.
  unfold spaced. revert x. induction l as [|y l IH]; intros x.
  - simpl. now rewrite app_nil_r.
  - cbn [filter]. destruct (nonempty y); [|apply IH].
    change (join [SPACE] (x :: y :: filter nonempty l))
      with (x ++ [SPACE] ++ join [SPACE] (y :: filter nonempty l)).
    rewrite IH. reflexivity.
Qed.

Lemma collapsed_fields (s : str) :
  collapsed s =
  match fields s with
  | [] => []
  | w :: l => if nonempty w then w ++ spaced l else tl (spaced l)
  end.
Proof.
  unfold collapsed, words. destruct (fields s) as [|w l]; [reflexivity|].
  cbn [filter]. destruct (nonempty w); [apply join_spaced|].
  unfold spaced. induction l as [|y l IH]; [reflexivity|].
  cbn [filter]. destruct (nonempty y); [|exact IH].
  cbn [flat_map tl app]. apply join_spaced.
Qed.

Lemma fields_not_nil (s : str) : fields s <> [].
Proof.
  destruct s as [|c s]; [discriminate|]. cbn [fields].
  destruct (isspace c); [discriminate|]. now destruct (fields s).
Qed.

(** What is left of the substituted text once its right end is trimmed. *)
Lemma rstrip_sub (s : str) :
  match fields s with
  | [] => False
  | w :: l =>
      rstrip_rec (sub_whitespace false s) = w ++ spaced l
      /\ rstrip_rec (sub_whitespace true s) =
         (if nonempty w then w ++ spaced l else tl (spaced l))
  end.
Proof.
  induction s as [|c s IH]; [now split|].
  cbn [fields sub_whitespace]. rewrite whitespace_class_isspace.
  destruct (fields s) as [|w l] eqn:F; [contradiction|].
  destruct IH as [IHf IHt]. destruct (isspace c) eqn:E.
  - cbn [nonempty app]. unfold spaced in *. cbn [filter].
    destruct (nonempty w) eqn:Ew.
    + cbn [flat_map tl app]. split; [|exact IHt].
      cbn [rstrip_rec]. rewrite IHt. destruct w; [discriminate|reflexivity].
    + split; [|exact IHt]. cbn [rstrip_rec]. rewrite IHt.
      change (isspace SPACE) with true.
      destruct (filter nonempty l) as [|y l'] eqn:El; [reflexivity|].
      assert (Hy : nonempty y = true).
      { assert (In y (filter nonempty l)) by (rewrite El; now left).
        now apply filter_In in H. }
      cbn [flat_map tl app]. destruct y; [discriminate|reflexivity].
  - assert (rstrip_rec (c :: sub_whitespace false s) = (c :: w) ++ spaced l).
    { cbn [rstrip_rec]. rewrite IHf.
      change ((c :: w) ++ spaced l) with (c :: (w ++ spaced l)).
      destruct (w ++ spaced l); [rewrite E|]; reflexivity. }
    now split.
Qed.

Lemma normalize_text_collapsed (x : str) : normalize_text x = collapsed x.
Proof.
  unfold normalize_text, strip. rewrite replace_nbsp_sub, lstrip_sub_false.
  rewrite rstrip_rstrip_rec, collapsed_fields.
  pose proof (rstrip_sub x) as H. destruct (fields x); [contradiction|].
  apply H.
Qed.

Lemma fields_no_space (w : str) : no_space w -> fields w = [w].
Proof.
  induction 1 as [|c w Hc _ IH]; [reflexivity|].
  cbn [fields]. now rewrite Hc, IH.
Qed.

Lemma fields_app_space (w rest : str) :
  no_space w -> fields (w ++ SPACE :: rest) = w :: fields rest.
Proof.
  induction 1 as [|c w Hc _ IH]; [reflexivity|].
  cbn [app fields]. now rewrite Hc, IH.
Qed.

Lemma fields_Forall_no_space (s : str) : Forall no_space (fields s).
Proof.
  induction s as [|c s IH]; [repeat constructor|].
  cbn [fields]. destruct (isspace c) eqn:E.
  - constructor; [constructor | exact IH].
  - destruct (fields s) as [|w l]; [repeat constructor; exact E|].
    inversion IH; subst. constructor; [now constructor | assumption].
Qed.

Lemma fields_join (x : str) (l : list str) :
  Forall no_space (x :: l) -> fields (join [SPACE] (x :: l)) = x :: l.
Proof.
  revert x. induction l as [|y l IH]; intros x H; inversion H; subst.
  - now apply fields_no_space.
  - cbn [join]. cbn [app]. rewrite fields_app_space by assumption.
    f_equal. now apply IH.
Qed.

Lemma collapsed_idempotent (x : str) : collapsed (collapsed x) = collapsed x.
Proof.
  unfold collapsed at 2 3. unfold words.
  assert (H : Forall no_space (filter nonempty (fields x))).
  { apply Forall_forall. intros w Hw. apply filter_In in Hw as [Hw _].
    pose proof (fields_Forall_no_space x) as F.
    rewrite Forall_forall in F. now apply F. }
  assert (N : forall w, In w (filter nonempty (fields x)) -> nonempty w = true).
  { intros w Hw. now apply filter_In in Hw. }
  destruct (filter nonempty (fields x)) as [|w l] eqn:E; [reflexivity|].
  unfold collapsed, words. rewrite fields_join by assumption.
  f_equal. apply forallb_filter_id. apply forallb_forall. exact N.
Qed.

End Normalize.

(** C8.  [normalize_text] turns a text into its words (the maximal runs
    without white space, the full-width space U+3000 counting as white
    space) separated by single ASCII spaces, with nothing before the first
    word or after the last; and normalizing twice is normalizing once. *)
Theorem normalize_text_collapses_idempotent :
  forall x : str,
    tp.normalize_text x = Spec.collapsed x
    /\ isspace 0x3000%N = true
    /\ tp.normalize_text (tp.normalize_text x) = tp.normalize_text x.
Proof.
  intros x. split; [apply normalize_text_collapsed|]. split; [reflexivity|].
  rewrite !normalize_text_collapsed. apply collapsed_idempotent.
Qed.

(* ===================================================================== *)
(** ** negate_statement                                                   *)
(* ===================================================================== *)

Section Negate.

Import Spec.

Lemma decimal_ascii (d : N) : (d < 10)%N -> decimal (0x30 + d)%N = Some d.
Proof.
  intros H. unfold decimal, DECIMAL_ZEROS. cbn [decimal_in].
  assert (E : ((0x30 <=? 0x30 + d) && (0x30 + d <? 0x30 + 10))%N = true).
  { apply andb_true_iff. split; [apply N.leb_le | apply N.ltb_lt]; lia. }
  rewrite E. f_equal. lia.
Qed.

Lemma int_step_ascii (a d : N) :
  (d < 10)%N -> int_step a (0x30 + d)%N = (10 * a + d)%N.
Proof. intros H. unfold int_step. now rewrite decimal_ascii. Qed.

Lemma log2_div10 (n : N) (f : nat) :
  (10 <= n)%N -> N.to_nat (N.log2 n) < S f -> N.to_nat (N.log2 (n / 10)) < f.
Proof.
  intros Hn Hf.
  assert (H1 : (n / 10 <= n / 2)%N).
  { apply N.div_le_lower_bound; [lia|].
    pose proof (N.Div0.mul_div_le n 10). pose proof (N.Div0.mul_div_le n 2).
    assert (2 * (n / 10) <= n / 2)%N; [|lia].
    apply N.div_le_lower_bound; lia. }
  assert (H2 : (0 < n / 2)%N) by (apply N.div_str_pos; lia).
  assert (H3 : (N.log2 (2 * (n / 2)) <= N.log2 n)%N).
  { apply N.log2_le_mono. apply N.Div0.mul_div_le. }
  rewrite N.log2_double in H3 by assumption.
  pose proof (N.log2_le_mono _ _ H1). lia.
Qed.

Lemma int_str_digits (fuel : nat) :
  forall (n : N) (acc : str),
    N.to_nat (N.log2 n) < fuel ->
    fold_left int_step (str_digits fuel n acc) 0%N = fold_left int_step acc n.
Proof.
  induction fuel as [|f IH]; intros n acc Hf; [lia|].
  cbn [str_digits]. destruct (N.ltb_spec n 10) as [Hn|Hn].
  - cbn [fold_left]. rewrite int_step_ascii by (apply N.mod_lt; lia).
    rewrite N.mod_small by assumption. f_equal.
  - rewrite IH by (now apply log2_div10). cbn [fold_left].
    rewrite int_step_ascii by (apply N.mod_lt; lia). f_equal.
    symmetry. apply N.div_mod. lia.
Qed.

(** The value of the decimal digits of [n] is [n]. *)
Lemma digits_value_decimal_digits (n : N) :
  digits_value (decimal_digits n) = n.
Proof.
  unfold digits_value, decimal_digits. rewrite int_str_digits by lia.
  reflexivity.
Qed.

Lemma int_Ok (s : str) (n : N) : int s = Ok n -> n = digits_value s.
Proof.
  unfold int. destruct (INT_MAX_STR_DIGITS <? Z.of_nat (length s))%Z;
    [discriminate | now intros [= <-]].
Qed.

Lemma str_of_int_Ok (n : N) (d : str) :
  str_of_int n = Ok d -> d = decimal_digits n.
Proof.
  unfold str_of_int.
  destruct (INT_MAX_STR_DIGITS <? Z.of_nat (length (decimal_digits n)))%Z;
    [discriminate | now intros [= <-]].
Qed.

(** The only exception of a conversion is [ValueError]. *)
Lemma int_Raise (s : str) (e : exn) : int s = Raise e -> e = ValueError.
Proof.
  unfold int. destruct (INT_MAX_STR_DIGITS <? Z.of_nat (length s))%Z;
    [now intros [= <-] | discriminate].
Qed.

Lemma str_of_int_Raise (n : N) (e : exn) :
  str_of_int n = Raise e -> e = ValueError.
Proof.
  unfold str_of_int.
  destruct (INT_MAX_STR_DIGITS <? Z.of_nat (length (decimal_digits n)))%Z;
    [now intros [= <-] | discriminate].
Qed.

Lemma slice_decompose (s : str) (a b : nat) :
  a <= b -> s = firstn a s ++ slice s a b ++ skipn b s.
Proof.
  intros H. unfold slice.
  replace (skipn b s) with (skipn (b - a) (skipn a s)).
  - now rewrite firstn_skipn, firstn_skipn.
  - rewrite skipn_skipn. f_equal. lia.
Qed.

Lemma search_number_bounds (s : str) (a b : nat) :
  search_number s = Some (a, b) -> a < b.
Proof.
  revert a b. induction s as [|c s IH]; intros a b; [discriminate|].
  cbn [search_number]. destruct (isdecimal c).
  - intros [= <- <-]. lia.
  - destruct (search_number s) as [[a' b']|]; [|discriminate].
    intros [= <- <-]. specialize (IH _ _ eq_refl). lia.
Qed.

Lemma digits_span_run (m post : str) :
  all_digits m -> run_ends post -> digits_span (m ++ post) = length m.
Proof.
  induction 1 as [|c m Hc _ IH]; intros Hp.
  - destruct post as [|d post]; [reflexivity|]. simpl in *. now rewrite Hp.
  - cbn [app digits_span length]. rewrite Hc. f_equal. now apply IH.
Qed.

Lemma search_number_first_run (pre m post : str) :
  no_digit pre -> m <> [] -> all_digits m -> run_ends post ->
  search_number (pre ++ m ++ post)
  = Some (length pre, length pre + length m).
Proof.
  intros Hpre Hm Hd Hp. induction Hpre as [|c pre Hc _ IH].
  - destruct m as [|c m]; [contradiction|]. inversion Hd; subst.
    cbn [app search_number length]. rewrite H1.
    rewrite digits_span_run by assumption. reflexivity.
  - cbn [app search_number length]. rewrite Hc, IH. reflexivity.
Qed.

Lemma search_number_None (s : str) :
  search_number s = None <-> no_digit s.
Proof.
  induction s as [|c s IH]; cbn [search_number].
  - split; [constructor | reflexivity].
  - destruct (isdecimal c) eqn:E.
    + split; [discriminate|]. inversion 1; congruence.
    + destruct (search_number s) as [[a b]|].
      * split; [discriminate|]. inversion 1; subst.
        now apply IH in H3.
      * split; [|reflexivity]. intros _. constructor; [assumption|].
        now apply IH.
Qed.

Lemma first_swap_None (table : list (str * str)) (s : str) :
  first_swap table s = None <-> none_occurs table s.
Proof.
  unfold none_occurs. induction table as [|[a b] table IH]; cbn [first_swap].
  - split; [intros _ a b [] | reflexivity].
  - destruct (contains a s) eqn:E.
    + split; [discriminate|]. intros H.
      specialize (H a b (or_introl eq_refl)). congruence.
    + rewrite IH. split.
      * intros H a' b' [[= <- <-]|H']; [assumption | now apply (H a' b')].
      * intros H a' b' H'. apply (H a' b'). now right.
Qed.

Lemma first_swap_at (before after : list (str * str)) (a b s : str) :
  none_occurs before s -> contains a s = true ->
  first_swap (before ++ (a, b) :: after) s = Some (replace1 a b s).
Proof.
  unfold none_occurs. induction before as [|[a' b'] before IH]; intros Hb Ha.
  - cbn [app first_swap]. now rewrite Ha.
  - cbn [app first_swap]. rewrite (Hb a' b') by now left.
    apply IH; [|assumption]. intros x y H. apply (Hb x y). now right.
Qed.

Lemma first_swap_Some (table : list (str * str)) (s r : str) :
  first_swap table s = Some r ->
  exists a b, In (a, b) table /\ contains a s = true /\ r = replace1 a b s.
Proof.
  induction table as [|[a b] table IH]; cbn [first_swap]; [discriminate|].
  destruct (contains a s) eqn:E.
  - intros [= <-]. exists a, b. repeat split; [now left | assumption].
  - intros H. destruct (IH H) as (a' & b' & Hin & Hc & Hr).
    exists a', b'. repeat split; [now right | assumption | assumption].
Qed.

Lemma app_middle_neq (pre post a b : str) :
  a <> b -> pre ++ a ++ post <> pre ++ b ++ post.
Proof.
  intros H E. apply app_inv_head in E. apply app_inv_tail in E. contradiction.
Qed.

(** The digit runs of a text depend on its tail only through the digit runs
    of the tail. *)
Lemma digit_runs_app (pre x y : str) :
  tp.digit_runs x = tp.digit_runs y ->
  tp.digit_runs (pre ++ x) = tp.digit_runs (pre ++ y).
Proof.
  intros H. induction pre as [|c pre IH]; [exact H|].
  cbn [app tp.digit_runs]. now rewrite IH.
Qed.

Lemma digit_runs_two (a1 a2 b1 b2 : char) (post : str) :
  isdecimal a1 = false -> isdecimal a2 = false ->
  isdecimal b1 = false -> isdecimal b2 = false ->
  tp.digit_runs (a1 :: a2 :: post) = tp.digit_runs (b1 :: b2 :: post).
Proof.
  intros H1 H2 H3 H4. cbn [tp.digit_runs].
  destruct (tp.digit_runs post) as [h t]. now rewrite H1, H2, H3, H4.
Qed.

End Negate.

Lemma swaps_distinct (a b : str) : In (a, b) swaps -> a <> b.
Proof.
  unfold swaps. cbn [In]. intros H.
  repeat (destruct H as [[= <- <-]|H]; [discriminate|]). contradiction.
Qed.

Lemma negate_statement_Raise (s : str) (e : exn) :
  negate_statement s = Raise e -> e = ValueError.
Proof.
  unfold negate_statement.
  destruct (first_swap swaps s); [discriminate|].
  destruct (search_number s) as [[m_start m_end]|]; [|discriminate].
  destruct (int (slice s m_start m_end)) as [num|e1] eqn:I.
  - destruct (str_of_int (num + 1)) as [d|e2] eqn:T; [discriminate|].
    intros [= <-]. now apply str_of_int_Raise in T.
  - intros [= <-]. now apply int_Raise in I.
Qed.

(** C10.  [negate_statement] never returns the sentence it was given: what
    it returns differs from it.  (It returns for every sentence but one
    without a word of the table whose first run of digits, or the successor
    of that run, has more digits than the interpreter's limit; there it
    raises [ValueError] and returns nothing.) *)
Theorem negate_statement_differs :
  forall s : str, negate_statement s <> Ok s.
Proof.
  intros s. unfold negate_statement.
  destruct (first_swap swaps s) as [r|] eqn:F.
  - apply first_swap_Some in F as (a & b & Hin & Hc & ->).
    destruct (replace1_first a b s Hc) as (pre & post & [E _] & ->).
    intros [= Eq]. revert Eq. rewrite E at 1. apply app_middle_neq.
    intros Eq. symmetry in Eq. now apply (swaps_distinct Hin).
  - destruct (search_number s) as [[m_start m_end]|] eqn:S.
    + apply search_number_bounds in S.
      destruct (int (slice s m_start m_end)) as [num|e] eqn:I;
        [|discriminate].
      destruct (str_of_int (num + 1)) as [d|e] eqn:T; [|discriminate].
      apply int_Ok in I. apply str_of_int_Ok in T. subst d.
      intros [= E]. rewrite (slice_decompose s (Nat.lt_le_incl _ _ S)) in E at 3.
      apply app_inv_head in E. apply app_inv_tail in E.
      apply (f_equal digits_value) in E.
      rewrite digits_value_decimal_digits in E. lia.
    + intros [= E]. apply (f_equal (@length _)) in E.
      rewrite length_app in E. simpl in E. lia.
Qed.

(** C7.  [negate_statement] applies, in this order of precedence:
    (1) the first pair of the table [swaps] whose left word occurs in the
    sentence, replacing the first occurrence of that word and nothing else;
    (2) if no word of the table occurs, the successor of the first run of
    digits in place of that run (the call raises [ValueError] instead when
    the run, or its successor, has more digits than the interpreter's
    limit); (3) if there is no digit either, the disclaimer suffix.  In
    particular (4) a sentence that contains both "应当" and a digit gets
    "不得" in place of the first "应当" and keeps every run of digits as it
    was. *)
Theorem negate_statement_precedence :
  forall s : str,
    (forall before a b after,
        swaps = before ++ (a, b) :: after ->
        none_occurs before s -> contains a s = true ->
        exists pre post,
          Spec.first_occurrence a s pre post
          /\ negate_statement s = Ok (pre ++ b ++ post))
    /\ (forall pre m post,
          none_occurs swaps s ->
          s = pre ++ m ++ post ->
          no_digit pre -> m <> [] -> all_digits m -> run_ends post ->
          let successor := decimal_digits (digits_value m + 1) in
          negate_statement s
          = if ((INT_MAX_STR_DIGITS <? len m)
                || (INT_MAX_STR_DIGITS <? len successor))%Z
            then Raise ValueError
            else Ok (pre ++ successor ++ post))
    /\ (none_occurs swaps s -> no_digit s ->
        negate_statement s = Ok (s ++ DISCLAIMER))
    /\ (contains lit_shall s = true ->
        (exists c, In c s /\ isdecimal c = true) ->
        exists pre post,
          Spec.first_occurrence lit_shall s pre post
          /\ negate_statement s = Ok (pre ++ lit_shall_not ++ post)
          /\ tp.findall_number (pre ++ lit_shall_not ++ post)
             = tp.findall_number s).
Proof.
  intros s. repeat split.
  - intros before a b after Et Hb Ha. unfold negate_statement.
    rewrite Et, (first_swap_at _ _ _ Hb Ha).
    destruct (replace1_first a b s Ha) as (pre & post & Hf & ->).
    now exists pre, post.
  - intros pre m post Hn -> Hpre Hm Hd Hp. unfold negate_statement.
    apply first_swap_None in Hn. rewrite Hn.
    rewrite (search_number_first_run _ Hpre Hm Hd Hp).
    unfold slice. rewrite firstn_app, firstn_all, Nat.sub_diag.
    rewrite skipn_app, skipn_all, Nat.sub_diag. cbn [firstn skipn app].
    replace (length pre + length m - length pre) with (length m) by lia.
    rewrite firstn_app, firstn_all, Nat.sub_diag. cbn [firstn].
    rewrite !app_nil_r.
    rewrite !skipn_app, (skipn_all2 pre), (skipn_all2 m) by lia.
    replace (length pre + length m - length pre - length m) with 0 by lia.
    cbn [skipn app]. unfold int, str_of_int, len.
    destruct (INT_MAX_STR_DIGITS <? Z.of_nat (length m))%Z; [reflexivity|].
    cbn [orb].
    now destruct (INT_MAX_STR_DIGITS
                  <? Z.of_nat (length (decimal_digits (digits_value m + 1))))%Z.
  - intros Hn Hd. unfold negate_statement.
    apply first_swap_None in Hn. apply search_number_None in Hd.
    now rewrite Hn, Hd.
  - intros Hc _. unfold negate_statement.
    assert (F : first_swap swaps s = Some (replace1 lit_shall lit_shall_not s)).
    { apply (@first_swap_at [] (tl swaps) lit_shall lit_shall_not s);
        [intros a b [] | assumption]. }
    rewrite F. destruct (replace1_first lit_shall lit_shall_not s Hc)
      as (pre & post & Hf & ->).
    exists pre, post. repeat split; try apply Hf.
    destruct Hf as [-> _]. unfold tp.findall_number.
    rewrite (@digit_runs_app pre (lit_shall_not ++ post) (lit_shall ++ post));
      [reflexivity|].
    now apply digit_runs_two.
Qed.

(** The branches on concrete sentences: "应当" before a digit; the pair
    "可以" -> "不得", third of the table, before the pair "不得" -> "可以",
    fourth, although "不得" comes first in the sentence; a digit run; the
    suffix. *)
(** The limit at work: a run of 4301 digits is not converted, and neither
    is the successor of 4300 nines, which has 4301 digits. *)
Example negate_statement_digit_limit :
  negate_statement (repeat 0x31%N 4301) = Raise ValueError
  /\ negate_statement (repeat 0x39%N 4300) = Raise ValueError.
Proof. split; vm_compute; reflexivity. Qed.

Lemma negate_statement_precedence_witness :
  (exists pre post,
      Spec.first_occurrence lit_shall (u "可以延长30日，应当报备案。") pre post
      /\ negate_statement (u "可以延长30日，应当报备案。")
         = Ok (pre ++ lit_shall_not ++ post)
      /\ tp.findall_number (pre ++ lit_shall_not ++ post)
         = tp.findall_number (u "可以延长30日，应当报备案。"))
  /\ (exists pre post,
         Spec.first_occurrence (u "可以") (u "不得拒绝，可以申请。") pre post
         /\ negate_statement (u "不得拒绝，可以申请。")
            = Ok (pre ++ u "不得" ++ post))
  /\ negate_statement (u "第9条") = Ok (u "第10条")
  /\ negate_statement (u "总则") = Ok (u "总则" ++ DISCLAIMER).
Proof.
  split; [|split; [|split]].
  - apply (proj2 (proj2 (proj2
             (negate_statement_precedence (u "可以延长30日，应当报备案。"))))).
    + reflexivity.
    + exists 0x33%N. split; [vm_compute; tauto | reflexivity].
  - apply (proj1 (negate_statement_precedence (u "不得拒绝，可以申请。"))
             (firstn 2 swaps) (u "可以") (u "不得") (skipn 3 swaps)).
    + reflexivity.
    + intros a b H. unfold swaps in H. cbn [firstn In] in H.
      repeat (destruct H as [[= <- <-]|H]; [reflexivity|]). contradiction.
    + reflexivity.
  - apply (proj1 (proj2 (negate_statement_precedence (u "第9条")))
             (u "第") (u "9") (u "条")).
    + intros a b H. unfold swaps in H. cbn [In] in H.
      repeat (destruct H as [[= <- <-]|H]; [reflexivity|]). contradiction.
    + reflexivity.
    + repeat constructor.
    + discriminate.
    + repeat constructor.
    + reflexivity.
  - apply (proj1 (proj2 (proj2 (negate_statement_precedence (u "总则"))))).
    + intros a b H. unfold swaps in H. cbn [In] in H.
      repeat (destruct H as [[= <- <-]|H]; [reflexivity|]). contradiction.
    + repeat constructor.
Defined.

(* ===================================================================== *)
(** ** Reasoning about computations in [M]                                *)
(* ===================================================================== *)

Section Returns.

Context {S : Type}.

Lemma returns_ret {A} (a : A) (s : S) (P : A -> S -> Prop) :
  P a s -> returns (ret a) s P.
Proof. exact (fun H => H). Qed.

Lemma returns_bind {A B} (m : M S A) (f : A -> M S B) (s : S)
    (P : B -> S -> Prop) :
  returns m s (fun a s' => returns (f a) s' P) -> returns (bind m f) s P.
Proof.
  unfold returns, bind. destruct (m s) as [[a s']|e]; [exact (fun H => H)|].
  contradiction.
Qed.

Lemma returns_weaken {A} (m : M S A) (s : S) (P Q : A -> S -> Prop) :
  returns m s P -> (forall a s', P a s' -> Q a s') -> returns m s Q.
Proof.
  unfold returns. destruct (m s) as [[a s']|e]; [|contradiction].
  intros H HPQ. now apply HPQ.
Qed.

Lemma returns_Ok {A} (m : M S A) (s : S) (P : A -> S -> Prop) :
  returns m s P <-> exists a s', m s = Ok (a, s') /\ P a s'.
Proof.
  unfold returns. destruct (m s) as [[a s']|e]; split.
  - intros H. now exists a, s'.
  - intros (a0 & s0 & [= <- <-] & H). exact H.
  - contradiction.
  - intros (a0 & s0 & E & _). discriminate.
Qed.

Lemma returns_getitem {A} (l : list A) (i : nat) (s : S)
    (P : A -> S -> Prop) :
  (forall x, nth_error l i = Some x -> P x s) -> i < length l ->
  returns (getitem l i) s P.
Proof.
  intros H Hi. unfold returns, getitem.
  destruct (nth_error l i) as [x|] eqn:E; [now apply H|].
  apply nth_error_None in E. lia.
Qed.

Lemma returns_getitems {A} (l : list A) (idx : list nat) (s : S) :
  Forall (fun i => i < length l) idx ->
  returns (getitems l idx) s
    (fun xs s' => s' = s /\ Forall2 (fun i x => nth_error l i = Some x) idx xs).
Proof.
  induction 1 as [|i idx Hi _ IH]; cbn [getitems].
  - apply returns_ret. split; [reflexivity | constructor].
  - apply returns_bind. apply returns_getitem; [|assumption]. intros x Hx.
    apply returns_bind. eapply returns_weaken; [exact IH|].
    intros xs s' [-> Hxs]. apply returns_ret. split; [reflexivity|].
    now constructor.
Qed.

Lemma ends_returns {A} (m : M S A) (s : S) (P : A -> S -> Prop)
    (Q : exn -> Prop) :
  returns m s P -> ends m s P Q.
Proof.
  unfold returns, ends. destruct (m s) as [[a s']|e]; [auto | contradiction].
Qed.

Lemma ends_bind {A B} (m : M S A) (f : A -> M S B) (s : S)
    (P : B -> S -> Prop) (Q : exn -> Prop) :
  ends m s (fun a s' => ends (f a) s' P Q) Q -> ends (bind m f) s P Q.
Proof.
  unfold ends, bind. now destruct (m s) as [[a s']|e].
Qed.

Lemma ends_weaken {A} (m : M S A) (s : S) (P P' : A -> S -> Prop)
    (Q Q' : exn -> Prop) :
  ends m s P Q ->
  (forall a s', P a s' -> P' a s') -> (forall e, Q e -> Q' e) ->
  ends m s P' Q'.
Proof.
  unfold ends. destruct (m s) as [[a s']|e]; intros H HP HQ; auto.
Qed.

(** A computation that can only raise exceptions that are excluded
    returns. *)
Lemma ends_never {A} (m : M S A) (s : S) (P : A -> S -> Prop)
    (Q : exn -> Prop) :
  ends m s P Q -> (forall e, ~ Q e) -> returns m s P.
Proof.
  unfold ends, returns. destruct (m s) as [[a s']|e]; intros H HQ; auto.
  now apply (HQ e).
Qed.

End Returns.

Section TakenFrom.

Context {A : Type}.

Lemma Forall2_nth_In (l : list A) (idx : list nat) (xs : list A) :
  Forall2 (fun i x => nth_error l i = Some x) idx xs ->
  forall x, In x xs -> In x l.
Proof.
  induction 1 as [|i y idx xs Hy _ IH]; intros x; [intros []|].
  intros [<-|H]; [now apply nth_error_In in Hy | now apply IH].
Qed.

Lemma taken_from_incl (l xs : list A) :
  taken_from l xs -> forall x, In x xs -> In x l.
Proof. intros (idx & _ & H). now apply Forall2_nth_In with idx. Qed.

Lemma taken_from_length (l xs : list A) :
  taken_from l xs -> length xs <= length l.
Proof.
  intros (idx & Hn & H).
  rewrite <- (Forall2_length H).
  assert (Hb : incl idx (seq 0 (length l))).
  { intros i Hi. apply in_seq. split; [lia|]. simpl.
    clear Hn. induction H as [|j y idx xs Hy _ IH]; [contradiction|].
    destruct Hi as [->|Hi]; [|now apply IH].
    apply nth_error_Some. congruence. }
  pose proof (NoDup_incl_length Hn Hb) as L. now rewrite length_seq in L.
Qed.

Lemma taken_from_NoDup (l xs : list A) :
  NoDup l -> taken_from l xs -> NoDup xs.
Proof.
  intros Hl (idx & Hn & H). induction H as [|i x idx xs Hx H IH].
  - constructor.
  - inversion Hn as [|? ? Hi Hn']; subst. constructor; [|now apply IH].
    intros Hin. apply Hi. clear IH Hn Hn' Hi.
    induction H as [|j y idx xs Hy _ IH]; [contradiction|].
    destruct Hin as [->|Hin]; [left | right; now apply IH].
    apply (proj1 (NoDup_nth_error l) Hl); [|congruence].
    apply nth_error_Some. congruence.
Qed.

End TakenFrom.

(* ===================================================================== *)
(** ** The library functions of [random]                                  *)
(* ===================================================================== *)

Section SetItem.

Context {A : Type}.

Lemma length_setitem (l : list A) (i : nat) (v : A) :
  length (setitem l i v) = length l.
Proof.
  revert i. induction l as [|x l IH]; intros [|i]; simpl; auto.
Qed.

Lemma nth_error_setitem_eq (l : list A) (i : nat) (v : A) :
  i < length l -> nth_error (setitem l i v) i = Some v.
Proof.
  revert i. induction l as [|x l IH]; intros [|i] H; simpl in *;
    try lia; [reflexivity | apply IH; lia].
Qed.

Lemma nth_error_setitem_neq (l : list A) (i n : nat) (v : A) :
  n <> i -> nth_error (setitem l i v) n = nth_error l n.
Proof.
  revert i n. induction l as [|x l IH]; intros [|i] [|n] H; simpl; auto.
  contradiction.
Qed.

(** Exchanging two items of a list permutes it. *)
Lemma swap_Permutation (x : list A) (i j : nat) (xi xj : A) :
  nth_error x i = Some xi -> nth_error x j = Some xj ->
  Permutation x (setitem (setitem x i xj) j xi).
Proof.
  intros Hi Hj.
  assert (Li : i < length x) by (apply nth_error_Some; congruence).
  assert (Lj : j < length x) by (apply nth_error_Some; congruence).
  apply Permutation_nth_error. split; [now rewrite !length_setitem|].
  exists (fun n => if n =? j then i else if n =? i then j else n). split.
  - intros a b.
    destruct (Nat.eqb_spec a j), (Nat.eqb_spec a i),
      (Nat.eqb_spec b j), (Nat.eqb_spec b i); lia.
  - intros n. destruct (Nat.eqb_spec n j) as [->|Nj].
    + rewrite nth_error_setitem_eq by (now rewrite length_setitem).
      now rewrite Hi.
    + rewrite nth_error_setitem_neq by assumption.
      destruct (Nat.eqb_spec n i) as [->|Ni].
      * rewrite nth_error_setitem_eq by assumption. now rewrite Hj.
      * now rewrite nth_error_setitem_neq.
Qed.

End SetItem.

Section RandomFacts.

Context {R : Type} {RS : RandomSource R}.

Lemma returns_random (r : R) (P : float -> R -> Prop) :
  (forall k r', (k < 2 ^ 53)%N -> P (float_of_bits k) r') ->
  returns random r P.
Proof.
  intros H. unfold returns, random. apply H. apply next_random_range.
Qed.

Lemma returns_randbelow (n : nat) (r : R) (P : nat -> R -> Prop) :
  0 < n -> (forall j r', j < n -> P j r') -> returns (randbelow n) r P.
Proof.
  intros Hn H. unfold returns, randbelow.
  pose proof (next_below_lt r Hn) as Hj.
  destruct (next_below n r) as [j r']. now apply H.
Qed.

Lemma returns_choice {A} (seq : list A) (r : R) (P : A -> R -> Prop) :
  seq <> [] -> (forall x r', In x seq -> P x r') -> returns (choice seq) r P.
Proof.
  intros Hne H. unfold choice. destruct seq as [|a seq]; [contradiction|].
  apply returns_bind. apply returns_randbelow; [simpl; lia|].
  intros j r' Hj. apply returns_getitem; [|assumption].
  intros x Hx. apply H. now apply nth_error_In in Hx.
Qed.

Lemma returns_randint (a b : Z) (r : R) (P : Z -> R -> Prop) :
  (a <= b)%Z -> (forall x r', (a <= x <= b)%Z -> P x r') ->
  returns (randint a b) r P.
Proof.
  intros Hab H. unfold randint. destruct (Z.ltb_spec 0 (b + 1 - a)); [|lia].
  apply returns_bind. apply returns_randbelow; [lia|].
  intros j r' Hj. apply returns_ret. apply H. lia.
Qed.

Lemma returns_sample {A} (population : list A) (k : Z) (r : R)
    (P : list A -> R -> Prop) :
  (0 <= k <= len population)%Z ->
  (forall xs r',
      length xs = Z.to_nat k -> taken_from population xs -> P xs r') ->
  returns (sample population k) r P.
Proof.
  unfold len. intros Hk H. unfold sample.
  destruct (Z.ltb_spec k 0); [lia|].
  destruct (Z.ltb_spec (Z.of_nat (length population)) k); [lia|].
  cbn [orb]. unfold returns.
  assert (Hk' : Z.to_nat k <= length population) by lia.
  pose proof (next_sample_distinct r Hk') as (L & N & B).
  destruct (next_sample (length population) (Z.to_nat k) r) as [idx r'].
  cbn [fst] in *. pose proof (returns_getitems population r' B) as G.
  unfold returns in G.
  destruct (getitems population idx r') as [[xs r'']|e]; [|contradiction].
  destruct G as [-> G]. apply H.
  - now rewrite <- (Forall2_length G).
  - now exists idx.
Qed.

Lemma returns_swap {A} (x : list A) (i j : nat) (r : R)
    (P : list A -> R -> Prop) :
  i < length x -> j < length x ->
  (forall x', Permutation x x' -> P x' r) -> returns (swap x i j) r P.
Proof.
  intros Hi Hj H. unfold swap. apply returns_bind.
  apply returns_getitem; [|assumption]. intros xj Ej.
  apply returns_bind. apply returns_getitem; [|assumption]. intros xi Ei.
  apply returns_ret. apply H. now apply swap_Permutation.
Qed.

Lemma returns_shuffle_from {A} (i : nat) :
  forall (x : list A) (r : R) (P : list A -> R -> Prop),
    i < length x \/ i = 0 ->
    (forall x' r', Permutation x x' -> P x' r') ->
    returns (shuffle_from i x) r P.
Proof.
  induction i as [|i IH]; intros x r P Hi H; cbn [shuffle_from].
  - apply returns_ret. now apply H.
  - destruct Hi as [Hi|Hi]; [|discriminate].
    apply returns_bind. apply returns_randbelow; [lia|]. intros j r' Hj.
    apply returns_bind. apply returns_swap; [assumption | lia |].
    intros x' Hx. apply IH.
    + left. rewrite <- (Permutation_length Hx). lia.
    + intros x'' r'' Hx'. apply H. now transitivity x'.
Qed.

Lemma returns_shuffle {A} (x : list A) (r : R) (P : list A -> R -> Prop) :
  (forall x' r', Permutation x x' -> P x' r') -> returns (shuffle x) r P.
Proof.
  intros H. unfold shuffle. apply returns_shuffle_from; [|assumption].
  destruct x; simpl; [now right | left; lia].
Qed.

End RandomFacts.

(* ===================================================================== *)
(** ** make_true_false                                                    *)
(* ===================================================================== *)

Section TrueFalse.

Context {R : Type} {RS : RandomSource R}.
Variable origin : str -> Prop.
Variable count : Z.

Lemma tf_sentences_inv (art : Article) (sents : list str) :
  forall (st : list Question * list str) (r : R),
    tf_inv origin count st -> Forall origin sents ->
    ends (tf_sentences art count sents st) r
      (fun st' _ => tf_inv origin count st') (negation_raised origin).
Proof.
  induction sents as [|sent rest IH]; intros [results seen] r Hinv Ho;
    cbn [tf_sentences].
  - exact Hinv.
  - inversion Ho as [|? ? Hsent Hrest]; subst.
    destruct (Z.leb_spec count (len results)) as [Hc|Hc]; [exact Hinv|].
    destruct (mem sent seen) eqn:Em; cbn [orb]; [now apply IH|].
    destruct (Nat.ltb_spec (length sent) 6) as [Hl|Hl]; [now apply IH|].
    apply ends_bind. apply ends_returns. apply returns_random.
    intros k r' _. apply ends_bind.
    assert (Step :
      forall q flip,
        derived_from sent (tf_question art q flip) ->
        ends (tf_sentences art count rest
                (results ++ [tf_question art q flip], sent :: seen)) r'
          (fun st' _ => tf_inv origin count st') (negation_raised origin)).
    { intros q flip Hq. apply IH; [|assumption].
      destruct Hinv as (H1 & H2 & H3 & H4). unfold tf_inv.
      cbn [fst snd] in *. repeat split.
      - cbn [rev]. apply Forall2_app; [assumption|].
        constructor; [exact Hq | constructor].
      - constructor; [now apply mem_not_In | assumption].
      - constructor; [split; [lia | assumption] | assumption].
      - unfold len in *. rewrite length_app. simpl. lia. }
    destruct (flt (float_of_bits k) float_half).
    + unfold ends at 1, lift.
      destruct (negate_statement sent) as [q|e] eqn:N.
      * apply Step. right. now split.
      * pose proof (negate_statement_Raise _ N) as ->.
        split; [reflexivity|]. now exists sent.
    + unfold ends at 1, ret. apply Step. left. now split.
Qed.

End TrueFalse.

Section TrueFalseArticles.

Context {R : Type} {RS : RandomSource R}.
Variable tokens : str -> option (list str).
Variable count : Z.
Variable all : list Article.

Lemma tf_articles_inv (arts : list Article) :
  forall (st : list Question * list str) (r : R),
    incl arts all ->
    tf_inv (sentence_of tokens all) count st ->
    ends (tf_articles tokens count arts st) r
      (fun st' _ => tf_inv (sentence_of tokens all) count st')
      (negation_raised (sentence_of tokens all)).
Proof.
  induction arts as [|art rest IH]; intros st r Hincl Hinv;
    cbn [tf_articles].
  - exact Hinv.
  - apply ends_bind.
    eapply ends_weaken; [| |intros e He; exact He].
    + apply tf_sentences_inv; [exact Hinv|].
      apply Forall_forall. intros base Hb. exists art. split; [|assumption].
      apply Hincl. now left.
    + intros st' r' Hinv'. cbn beta.
      destruct (count <=? len (fst st'))%Z; [exact Hinv'|].
      apply IH; [|assumption]. intros a Ha. apply Hincl. now right.
Qed.

(** When every sentence of the articles can be negated, no sentence makes
    the run raise. *)
Lemma all_negatable_never (e : exn) :
  all_negatable tokens all = true ->
  ~ negation_raised (sentence_of tokens all) e.
Proof.
  intros H (_ & base & (art & Hart & Hbase) & N).
  unfold all_negatable in H. rewrite forallb_forall in H.
  specialize (H art Hart). rewrite forallb_forall in H.
  specialize (H base Hbase). unfold negatable in H. now rewrite N in H.
Qed.

Lemma make_true_false_ends (r : R) :
  ends (make_true_false tokens all count) r
    (fun results _ =>
       (len results <= Z.max 0 count)%Z
       /\ exists bases,
            Forall2 derived_from bases results
            /\ NoDup bases
            /\ Forall (fun base => 6 <= length base) bases
            /\ Forall (sentence_of tokens all) bases)
    (negation_raised (sentence_of tokens all)).
Proof.
  unfold make_true_false. apply ends_bind.
  eapply ends_weaken; [| |intros e He; exact He].
  - apply tf_articles_inv.
    + apply incl_refl.
    + repeat split; cbn; try constructor. lia.
  - intros [results seen] r' (H1 & H2 & H3 & H4). unfold ends, ret.
    cbn [fst snd] in *. split; [assumption|]. exists (rev seen).
    repeat split.
    + assumption.
    + now apply NoDup_rev.
    + apply Forall_rev. eapply Forall_impl; [|exact H3]. now intros b [? _].
    + apply Forall_rev. eapply Forall_impl; [|exact H3]. now intros b [_ ?].
Qed.

End TrueFalseArticles.

(** The scenario of the specification: one article, one question asked, a
    first draw of 0.5 (no flip). *)
Example make_true_false_scenario :
  exists q r',
    make_true_false no_tokens [article_1] 1%Z [50] = Ok ([q], r')
    /\ question q = u "公民应当遵守法律。"
    /\ answer q = AnsStr (u "对").
Proof. eexists _, _. split; [vm_compute; reflexivity|]. now split. Qed.

(** A sentence whose only run of digits is longer than the interpreter's
    limit, drawn to be negated: the run raises [ValueError]. *)
Example make_true_false_digit_limit :
  make_true_false no_tokens [article_of_digits] 1%Z [0] = Raise ValueError
  /\ length (text article_of_digits) = 4301.
Proof. split; vm_compute; reflexivity. Qed.

(** C9.  A run of the true/false generator ends in one of two ways.  When
    it returns, the questions were made, in order, from pairwise different
    sentences (the set [seen] is shared by all the articles of the run),
    each a sentence of one of the articles and none shorter than 6
    characters; there are at most [count] of them, fewer when the
    sentences run out, which is no error.  The only exception it can raise
    is the [ValueError] of [negate_statement], on a sentence of the articles
    whose digits exceed the interpreter's limit; when every sentence of the
    articles can be negated, the run returns. *)
Theorem make_true_false_dedup :
  forall (R : Type) (RS : RandomSource R) (tokens : str -> option (list str))
         (arts : list Article) (count : Z) (r : R),
    match make_true_false tokens arts count r with
    | Ok (results, _) =>
        (len results <= Z.max 0 count)%Z
        /\ exists bases,
             Forall2 derived_from bases results
             /\ NoDup bases
             /\ Forall (fun base => 6 <= length base) bases
             /\ Forall (sentence_of tokens arts) bases
    | Raise e =>
        e = ValueError
        /\ exists base,
             sentence_of tokens arts base
             /\ negate_statement base = Raise ValueError
    end
    /\ (all_negatable tokens arts = true ->
        exists results r',
          make_true_false tokens arts count r = Ok (results, r')).
Proof.
  intros R RS tokens arts count r.
  pose proof (make_true_false_ends tokens count arts r) as H.
  unfold ends in H. split.
  - destruct (make_true_false tokens arts count r) as [[results r']|e];
      exact H.
  - intros Hn.
    destruct (make_true_false tokens arts count r) as [[results r']|e].
    + now exists results, r'.
    + now apply (all_negatable_never Hn) in H.
Qed.

(** Two articles, three questions asked, the first two sentences drawn to
    be negated: the run returns. *)
Lemma make_true_false_dedup_witness :
  exists results r',
    make_true_false no_tokens [article_1; article_2] 3%Z [0; 0; 50]
    = Ok (results, r').
Proof.
  apply (proj2 (@make_true_false_dedup tape tape_source no_tokens
                  [article_1; article_2] 3%Z [0; 0; 50])).
  reflexivity.
Defined.

(* ===================================================================== *)
(** ** weighted_sample                                                    *)
(* ===================================================================== *)

Section WeightedSample.

Context {G : Type} {GS : RandomSource G}.

Lemma bisect_loop_bounds (fuel : nat) :
  forall (a : list float) (x : float) (lo hi : nat),
    lo <= hi ->
    lo <= bisect_loop fuel a x lo hi /\ bisect_loop fuel a x lo hi <= hi.
Proof.
  induction fuel as [|f IH]; intros a x lo hi H; cbn [bisect_loop]; [lia|].
  destruct (Nat.ltb_spec lo hi) as [Hlt|Hge]; [|lia].
  assert (Hm : lo <= (lo + hi) / 2 /\ (lo + hi) / 2 < hi).
  { split; [apply Nat.div_le_lower_bound; lia|].
    apply Nat.Div0.div_lt_upper_bound. lia. }
  destruct (flt x (nth ((lo + hi) / 2) a float_zero)).
  - specialize (IH a x lo ((lo + hi) / 2)). lia.
  - specialize (IH a x ((lo + hi) / 2 + 1) hi). lia.
Qed.

Lemma bisect_le (a : list float) (x : float) (hi : nat) :
  bisect a x 0 hi <= hi.
Proof. unfold bisect. apply bisect_loop_bounds. lia. Qed.

Lemma length_accumulate_from (acc : float) (ws : list float) :
  length (accumulate_from acc ws) = length ws.
Proof.
  revert acc. induction ws as [|w ws IH]; intros acc; simpl; auto.
Qed.

Lemma length_accumulate (ws : list float) :
  length (accumulate ws) = length ws.
Proof.
  destruct ws as [|w ws]; simpl; [|rewrite length_accumulate_from]; auto.
Qed.

Lemma nth_error_seq0 (n i : nat) : i < n -> nth_error (seq 0 n) i = Some i.
Proof.
  intros H. rewrite (nth_error_nth' _ 0) by (now rewrite length_seq).
  now rewrite seq_nth.
Qed.

(** The positions chosen by the loop of [choices] over [range(n)]. *)
Lemma choices_loop_range (n : nat) (cum : list float) (total : float)
    (k : nat) :
  forall g : G,
    0 < n ->
    choices_loop (seq 0 n) cum total (n - 1) k g
    = Ok (map (fun x => bisect cum (fmul x total) 0 (n - 1)) (draws k g),
          after_draws k g).
Proof.
  induction k as [|k IH]; intros g Hn; [reflexivity|].
  cbn [choices_loop draws after_draws map]. unfold bind at 1, random at 1.
  unfold bind at 1, getitem.
  rewrite nth_error_seq0
    by (pose proof (bisect_le cum
                      (fmul (float_of_bits (fst (next_random g))) total)
                      (n - 1));
        lia).
  unfold ret at 1. unfold bind at 1. rewrite IH by assumption. reflexivity.
Qed.

Lemma Forall2_map_l {A B C} (f : A -> B) (P : B -> C -> Prop)
    (l : list A) (l' : list C) :
  Forall2 P (map f l) l' <-> Forall2 (fun a c => P (f a) c) l l'.
Proof.
  revert l'. induction l as [|a l IH]; intros l'; split; intros H;
    inversion H; subst; constructor; try assumption; now apply IH.
Qed.

Lemma cum_weights_not_nil (weights_cfg : Weights) (articles : list Article) :
  articles <> [] -> cum_weights weights_cfg articles <> [].
Proof.
  intros Hne E. apply (f_equal (@length _)) in E. unfold cum_weights in E.
  rewrite length_accumulate, length_map in E.
  destruct articles; [contradiction | discriminate].
Qed.

(** [weighted_sample] up to the loop of [choices]: the two tests of the
    total. *)
Lemma weighted_sample_tests (articles : list Article) (weights_cfg : Weights)
    (k : Z) (g : G) :
  articles <> [] ->
  weighted_sample articles weights_cfg k g
  = if usable_total weights_cfg articles
    then bind (choices_loop (seq 0 (length articles))
                 (cum_weights weights_cfg articles)
                 (total_weight weights_cfg articles)
                 (length articles - 1)
                 (Z.to_nat (Z.min k (Z.max 1 (len articles)))))
           (fun chosen_idx => getitems articles chosen_idx) g
    else Raise ValueError.
Proof.
  intros Hne. unfold weighted_sample, choices, usable_total.
  rewrite length_accumulate, length_map, length_seq, Nat.eqb_refl.
  cbn [negb]. fold (cum_weights weights_cfg articles).
  pose proof (cum_weights_not_nil weights_cfg Hne) as Hc.
  destruct (cum_weights weights_cfg articles) as [|c cum] eqn:Ec;
    [contradiction|].
  rewrite <- Ec. fold (total_weight weights_cfg articles).
  unfold len. rewrite length_seq. unfold bind at 1.
  destruct (fle (total_weight weights_cfg articles) float_zero);
    [reflexivity|].
  cbn [negb andb].
  now destruct (isfinite (total_weight weights_cfg articles)).
Qed.

Lemma weighted_sample_returns (articles : list Article) (weights_cfg : Weights)
    (k : Z) (g : G) :
  articles <> [] -> usable_total weights_cfg articles = true ->
  let size := Z.to_nat (Z.min k (Z.max 1 (len articles))) in
  exists sample,
    weighted_sample articles weights_cfg k g = Ok (sample, after_draws size g)
    /\ length sample = size
    /\ Forall2 (drawn weights_cfg articles) (draws size g) sample.
Proof.
  intros Hne Hu size. rewrite weighted_sample_tests, Hu by assumption.
  assert (Hn : 0 < length articles) by (destruct articles; simpl; [easy|lia]).
  fold size. unfold bind. rewrite choices_loop_range by assumption.
  set (idx := map _ (draws size g)).
  assert (B : Forall (fun i => i < length articles) idx).
  { apply Forall_forall. intros i Hi. apply in_map_iff in Hi as (x & <- & _).
    pose proof (bisect_le (cum_weights weights_cfg articles)
                  (fmul x (total_weight weights_cfg articles))
                  (length articles - 1)). lia. }
  pose proof (returns_getitems articles (after_draws size g) B) as H.
  unfold returns in H.
  destruct (getitems articles idx (after_draws size g)) as [[sample g']|e];
    [|contradiction].
  destruct H as [-> H]. exists sample. split; [reflexivity|].
  apply Forall2_map_l in H. split; [|exact H].
  rewrite <- (Forall2_length H). clear. generalize g.
  induction size as [|n IH]; intros g0; cbn [draws length]; auto.
Qed.

Lemma weighted_sample_empty (weights_cfg : Weights) (k : Z) (g : G) :
  weighted_sample [] weights_cfg k g = Raise IndexError.
Proof. reflexivity. Qed.

Lemma weighted_sample_raises (articles : list Article) (weights_cfg : Weights)
    (k : Z) (g : G) :
  articles <> [] -> usable_total weights_cfg articles = false ->
  weighted_sample articles weights_cfg k g = Raise ValueError.
Proof.
  intros Hne Hu. now rewrite weighted_sample_tests, Hu.
Qed.

(** The articles drawn are a function of the draws. *)
Lemma drawn_functional (weights_cfg : Weights) (articles : list Article)
    (xs : list float) :
  forall sample sample',
    Forall2 (drawn weights_cfg articles) xs sample ->
    Forall2 (drawn weights_cfg articles) xs sample' ->
    sample = sample'.
Proof.
  induction xs as [|x xs IH]; intros sample sample' H H';
    inversion H; inversion H'; subst; [reflexivity|].
  f_equal; [unfold drawn in *; congruence | now apply IH].
Qed.

(** Two states of the generator that give the same draws give the same
    sample, or the same exception. *)
Lemma weighted_sample_same_draws (articles : list Article)
    (weights_cfg : Weights) (k : Z) (g g' : G) :
  let size := Z.to_nat (Z.min k (Z.max 1 (len articles))) in
  draws size g = draws size g' ->
  (exists e,
      weighted_sample articles weights_cfg k g = Raise e
      /\ weighted_sample articles weights_cfg k g' = Raise e)
  \/ (exists sample,
         weighted_sample articles weights_cfg k g
         = Ok (sample, after_draws size g)
         /\ weighted_sample articles weights_cfg k g'
            = Ok (sample, after_draws size g')).
Proof.
  intros size Hd.
  assert (Hne : articles = [] \/ articles <> [])
    by (destruct articles; [now left | now right]).
  destruct Hne as [->|Hne].
  - left. exists IndexError. now split.
  - destruct (usable_total weights_cfg articles) eqn:Hu.
    + right.
      destruct (weighted_sample_returns weights_cfg k g Hne Hu)
        as (sample & E & _ & D).
      destruct (weighted_sample_returns weights_cfg k g' Hne Hu)
        as (sample' & E' & _ & D').
      fold size in E, E', D, D'. rewrite <- Hd in D'.
      rewrite (drawn_functional D' D) in E'. now exists sample.
    + left. exists ValueError. split; now apply weighted_sample_raises.
Qed.

End WeightedSample.

(** On three articles of weights 0.1, 0.2 and 0.2 the cumulated weights are
    the floats 0.1, 0.30000000000000004 and 0.5, and the draw 0.6 falls at
    0.3: below the second cumulated weight, so that the second article is
    drawn (with exact sums it would be the third). *)
Example weighted_sample_rounds :
  cum_weights tenths [article_1; article_2; article_3]
  = [float_of_decimal 1 1; float_of_decimal 30000000000000004 17;
     float_of_decimal 5 1]
  /\ weighted_sample [article_1; article_2; article_3] tenths 1%Z [60]
     = Ok ([article_2], []).
Proof. split; vm_compute; reflexivity. Qed.

(** C3 (as amended).  On a non-empty article list whose weights have a
    total, computed in floats, that is greater than zero and finite, the
    sampling made for a question type whose target is [target_count] returns
    [min(2 * target_count, max(1, n))] articles, [n] being the number of
    articles: one article per draw of the module-level generator, each draw
    selecting, from the whole list again (with replacement), the article at
    the position where the draw, times the total, falls among the cumulated
    weights; the weight of an article is [important_weight] when its
    [article_no] is in the important set and [default] otherwise (each 1.0
    when absent from the configuration). *)
Theorem weighted_sample_size :
  forall (G : Type) (GS : RandomSource G) (articles : list Article)
         (weights_cfg : Weights) (target_count : Z) (g : G),
    articles <> [] -> usable_total weights_cfg articles = true ->
    exists sample g',
      weighted_sample articles weights_cfg (target_count * 2)%Z g
      = Ok (sample, g')
      /\ length sample
         = Z.to_nat (Z.min (2 * target_count)%Z (Z.max 1 (len articles)))
      /\ Forall2 (drawn weights_cfg articles) (draws (length sample) g) sample
      /\ g' = after_draws (length sample) g
      /\ Forall (fun a => In a articles) sample
      /\ forall a,
           article_weight weights_cfg a
           = if mem (article_no a)
                  (or_empty
                     (get (important_articles weights_cfg) (Value [])))
             then get (important_weight weights_cfg) float_one
             else get (default weights_cfg) float_one.
Proof.
  intros G GS articles weights_cfg target_count g Hne Hpos.
  destruct (@weighted_sample_returns G GS articles weights_cfg
              (target_count * 2)%Z g Hne Hpos)
    as (sample & E & L & D).
  exists sample, (after_draws (length sample) g).
  split; [now rewrite L|]. split; [rewrite L; f_equal; lia|].
  split; [now rewrite L|]. split; [reflexivity|]. split; [|reflexivity].
  apply Forall_forall. intros a Ha. clear E L.
  induction D as [|x b xs sample Hb _ IH]; [contradiction|].
  destruct Ha as [<-|Ha]; [|now apply IH].
  now apply nth_error_In in Hb.
Qed.

Lemma weighted_sample_size_witness :
  exists sample g',
    weighted_sample [article_1; article_2] no_weights (1 * 2)%Z [0; 99]
    = Ok (sample, g')
    /\ length sample = 2.
Proof.
  destruct (@weighted_sample_size tape tape_source [article_1; article_2]
              no_weights 1%Z [0; 99]) as (sample & g' & E & L & _).
  - discriminate.
  - reflexivity.
  - exists sample, g'. split; [exact E | exact L].
Defined.

(** With one article and a target of two questions, one article is drawn,
    not four. *)
Lemma weighted_sample_not_twice_count :
  weighted_sample [article_1] no_weights (2 * 2)%Z [0; 0; 0; 0]
  = Ok ([article_1], [0; 0; 0])
  /\ length [article_1] <> Z.to_nat (2 * 2).
Proof. split; [reflexivity | discriminate]. Qed.

(* ===================================================================== *)
(** ** assemble_exam                                                      *)
(* ===================================================================== *)

Section Assemble.

Context {R : Type} {RS : RandomSource R}.
Context {G : Type} {GS : RandomSource G}.
Variable tokens : str -> option (list str).

Lemma important_among_Ok (articles : list Article) (weights_cfg : Weights)
    (l : list Article) :
  important_among articles weights_cfg = Ok l ->
  l = filter
        (fun a =>
           mem (article_no a)
             (or_empty (get (important_articles weights_cfg) (Value []))))
        articles.
Proof.
  unfold important_among.
  destruct articles as [|a articles],
    (get (important_articles weights_cfg) (Value [])) as [|imp];
    try discriminate; now intros [= <-].
Qed.

Lemma important_among_not_null (articles : list Article)
    (weights_cfg : Weights) :
  important_not_null weights_cfg = true ->
  exists l, important_among articles weights_cfg = Ok l.
Proof.
  unfold important_not_null, important_among, get.
  destruct (important_articles weights_cfg) as [[|imp]|]; [discriminate| |];
    intros _; destruct articles; now eexists.
Qed.

Lemma assemble_exam_phases (articles : list Article) (cfg : Config)
    (g : G) (r : R) :
  assemble_exam tokens articles cfg (g, r)
  = match sample_articles articles cfg g with
    | Raise e => Raise e
    | Ok (samples, g') =>
        match important_among articles (get (weights cfg) no_weights) with
        | Raise e => Raise e
        | Ok _ =>
            match generate_questions tokens articles cfg samples r with
            | Raise e => Raise e
            | Ok (exam, r') => Ok (exam, (g', r'))
            end
        end
    end.
Proof.
  unfold assemble_exam, sample_articles, generate_questions, short_candidates,
    bind, on_global, on_rng, ret, lift.
  repeat (cbv beta iota zeta; cbn [fst snd];
          match goal with
          | |- context [weighted_sample ?a ?w ?k ?s] =>
              destruct (weighted_sample a w k s) as [[? ?]|?]
          | |- context [important_among ?a ?w] =>
              let E := fresh "E" in
              destruct (important_among a w) as [?|?] eqn:E;
              [apply important_among_Ok in E; subst|]
          | |- context [make_true_false ?t ?a ?k ?s] =>
              destruct (make_true_false t a k s) as [[? ?]|?]
          | |- context [make_single_choice ?t ?a ?k ?s] =>
              destruct (make_single_choice t a k s) as [[? ?]|?]
          | |- context [make_multiple_choice ?t ?a ?k ?s] =>
              destruct (make_multiple_choice t a k s) as [[? ?]|?]
          | |- context [make_fill_blank ?t ?a ?k ?s] =>
              destruct (make_fill_blank t a k s) as [[? ?]|?]
          end);
    reflexivity.
Qed.

Lemma length_draws (k : nat) : forall g : G, length (draws k g) = k.
Proof. induction k as [|k IH]; intros g; cbn [draws length]; auto. Qed.

Lemma draws_add (a b : nat) :
  forall g : G, draws (a + b) g = draws a g ++ draws b (after_draws a g).
Proof.
  induction a as [|a IH]; intros g; [reflexivity|].
  cbn [Nat.add draws after_draws app]. now rewrite IH.
Qed.

Lemma after_draws_add (a b : nat) :
  forall g : G, after_draws (a + b) g = after_draws b (after_draws a g).
Proof.
  induction a as [|a IH]; intros g; [reflexivity|].
  cbn [Nat.add after_draws]. now rewrite IH.
Qed.

Lemma draws_add_eq (a b : nat) (g g' : G) :
  draws (a + b) g = draws (a + b) g' ->
  draws a g = draws a g'
  /\ draws b (after_draws a g) = draws b (after_draws a g').
Proof.
  rewrite !draws_add. intros H.
  assert (E : draws a g = draws a g').
  { apply (f_equal (firstn a)) in H.
    rewrite !firstn_app, !length_draws, Nat.sub_diag in H.
    cbn [firstn] in H. rewrite !app_nil_r in H.
    now rewrite !firstn_all2 in H by (rewrite length_draws; lia). }
  split; [exact E|]. rewrite E in H. now apply app_inv_head in H.
Qed.

(** The four samples depend on the module-level generator through its
    first [global_draws] values only, and leave it after them. *)
Lemma sample_articles_same_draws (articles : list Article) (cfg : Config)
    (g g' : G) :
  draws (global_draws articles cfg) g = draws (global_draws articles cfg) g' ->
  (exists e,
      sample_articles articles cfg g = Raise e
      /\ sample_articles articles cfg g' = Raise e)
  \/ (exists samples,
         sample_articles articles cfg g
         = Ok (samples, after_draws (global_draws articles cfg) g)
         /\ sample_articles articles cfg g'
            = Ok (samples, after_draws (global_draws articles cfg) g')).
Proof.
  unfold global_draws, sample_articles. cbv zeta.
  set (w := get (weights cfg) no_weights).
  set (c := get (counts cfg) no_counts).
  intros H.
  apply draws_add_eq in H as [H H4]. apply draws_add_eq in H as [H H3].
  apply draws_add_eq in H as [H1 H2].
  rewrite !after_draws_add in *. unfold sample_size in *. unfold bind.
  destruct (weighted_sample_same_draws articles w _ _ _ H1)
    as [(e & -> & ->)|(s1 & -> & ->)]; [left; now exists e|].
  destruct (weighted_sample_same_draws articles w _ _ _ H2)
    as [(e & -> & ->)|(s2 & -> & ->)]; [left; now exists e|].
  destruct (weighted_sample_same_draws articles w _ _ _ H3)
    as [(e & -> & ->)|(s3 & -> & ->)]; [left; now exists e|].
  destruct (weighted_sample_same_draws articles w _ _ _ H4)
    as [(e & -> & ->)|(s4 & -> & ->)]; [left; now exists e|].
  right. now exists (s1, s2, s3, s4).
Qed.

End Assemble.

(** C1 (the code at the failing input).  On an empty article list
    [assemble_exam] raises [IndexError], whatever the configuration and the
    random sources: the first [weighted_sample] already raises, its call of
    [random.choices] reading the last item of an empty list of cumulated
    weights. *)
Theorem assemble_exam_empty_raises :
  forall (R : Type) (RS : RandomSource R) (G : Type) (GS : RandomSource G)
         (tokens : str -> option (list str)) (cfg : Config) (g : G) (r : R)
         (weights_cfg : Weights) (k : Z),
    assemble_exam tokens [] cfg (g, r) = Raise IndexError
    /\ weighted_sample [] weights_cfg k g = Raise IndexError.
Proof. intros. split; reflexivity. Qed.

(** C2 (as amended).  The exam is not determined by the articles, the
    configuration and the [rng] passed in: the four article samples are
    drawn from the module-level generator of [random].  The samplings ask it
    for [global_draws] values of [random()] in all, as many as the sizes of
    the four samples, and nothing else reads it: when the call returns, the
    module-level generator is in the state after these draws, whatever
    [rng] is.  Two runs on the same articles, configuration and state of
    [rng] end alike (the same exam and the same state of [rng], or the same
    exception) whenever the module-level generator gives the same values
    for these draws, be it from two different states. *)
Theorem assemble_exam_two_sources :
  forall (R : Type) (RS : RandomSource R) (G : Type) (GS : RandomSource G)
         (tokens : str -> option (list str)) (articles : list Article)
         (cfg : Config) (g g' : G) (r : R),
    draws (global_draws articles cfg) g
    = draws (global_draws articles cfg) g' ->
    visible_outcome (assemble_exam tokens articles cfg (g, r))
    = visible_outcome (assemble_exam tokens articles cfg (g', r))
    /\ (forall exam s,
           assemble_exam tokens articles cfg (g, r) = Ok (exam, s) ->
           fst s = after_draws (global_draws articles cfg) g).
Proof.
  intros R RS G GS tokens articles cfg g g' r H.
  rewrite !assemble_exam_phases.
  destruct (@sample_articles_same_draws G GS articles cfg g g' H)
    as [(e & -> & ->)|(samples & -> & ->)].
  - split; [reflexivity | discriminate].
  - destruct (important_among articles (get (weights cfg) no_weights));
      [|split; [reflexivity | discriminate]].
    destruct (generate_questions tokens articles cfg samples r)
      as [[exam r']|e]; [|split; [reflexivity | discriminate]].
    split; [reflexivity|]. now intros exam0 s [= <- <-].
Qed.

(** Two states of the module-level generator that differ after the eight
    draws of the samplings. *)
Lemma assemble_exam_two_sources_witness :
  visible_outcome
    (assemble_exam no_tokens [article_1; article_2] one_of_each
       ([0; 99; 0; 99; 0; 99; 0; 99; 7],
        [50; 0; 0; 0; 0; 0; 0; 0; 0; 0; 0; 0]))
  = visible_outcome
      (assemble_exam no_tokens [article_1; article_2] one_of_each
         ([0; 99; 0; 99; 0; 99; 0; 99; 42; 5],
          [50; 0; 0; 0; 0; 0; 0; 0; 0; 0; 0; 0])).
Proof.
  apply (@assemble_exam_two_sources tape tape_source tape tape_source
           no_tokens [article_1; article_2] one_of_each
           [0; 99; 0; 99; 0; 99; 0; 99; 7]
           [0; 99; 0; 99; 0; 99; 0; 99; 42; 5]).
  reflexivity.
Defined.

(** Two runs on the same articles, configuration and [rng], from two states
    of the module-level generator: both use up the eight draws of the
    module-level tape, and their true/false questions differ. *)
Lemma assemble_exam_not_determined_by_rng :
  exists exam exam' s s',
    assemble_exam no_tokens [article_1; article_2] one_of_each
      ([0; 0; 0; 0; 0; 0; 0; 0], [50; 0; 0; 0; 0; 0; 0; 0; 0; 0; 0; 0])
    = Ok (exam, s)
    /\ assemble_exam no_tokens [article_1; article_2] one_of_each
         ([99; 99; 99; 99; 99; 99; 99; 99],
          [50; 0; 0; 0; 0; 0; 0; 0; 0; 0; 0; 0])
       = Ok (exam', s')
    /\ fst s = [] /\ fst s' = []
    /\ map question (exam_true_false exam) = [u "公民应当遵守法律。"]
    /\ map question (exam_true_false exam')
       = [u "行政机关可以依照法定权限和程序实施行政管理。"]
    /\ exam <> exam'.
Proof.
  eexists _, _, _, _. split; [vm_compute; reflexivity|].
  split; [vm_compute; reflexivity|].
  repeat (split; [reflexivity|]). discriminate.
Qed.

(* ===================================================================== *)
(** ** Distractors                                                        *)
(* ===================================================================== *)

Section Distractors.

Context {R : Type} {RS : RandomSource R}.
Variable tokens : str -> option (list str).

Lemma dedup_acc_In (seen l : list str) (x : str) :
  In x (dedup_acc seen l) -> In x l.
Proof.
  revert seen. induction l as [|y l IH]; intros seen; cbn [dedup_acc];
    [auto|].
  destruct (mem y seen); [intros H; right; now apply IH with seen|].
  intros [<-|H]; [now left | right; now apply IH with (y :: seen)].
Qed.

Lemma dedup_acc_complete (seen l : list str) (x : str) :
  In x l -> In x seen \/ In x (dedup_acc seen l).
Proof.
  revert seen. induction l as [|y l IH]; intros seen; [intros []|].
  cbn [dedup_acc]. intros [->|H].
  - destruct (mem x seen) eqn:E; [left; now apply mem_In | right; now left].
  - destruct (mem y seen).
    + now apply IH.
    + destruct (IH (y :: seen) H) as [[->|H']|H']; auto.
      * right. now left.
      * right. now right.
Qed.

Lemma dedup_acc_NoDup (seen l : list str) :
  NoDup (dedup_acc seen l)
  /\ forall x, In x (dedup_acc seen l) -> ~ In x seen.
Proof.
  revert seen. induction l as [|y l IH]; intros seen; cbn [dedup_acc].
  - split; [constructor | intros x []].
  - destruct (mem y seen) eqn:E; [apply IH|].
    destruct (IH (y :: seen)) as [N D]. split.
    + constructor; [|exact N]. intros H. apply (D y H). now left.
    + intros x [<-|H]; [now apply mem_not_In|].
      intros Hs. apply (D x H). now right.
Qed.

Lemma fromkeys_In (l : list str) (x : str) : In x (fromkeys l) <-> In x l.
Proof.
  split; [apply dedup_acc_In|]. intros H.
  now destruct (dedup_acc_complete [] l x H) as [[]|].
Qed.

Lemma fromkeys_NoDup (l : list str) : NoDup (fromkeys l).
Proof. apply dedup_acc_NoDup. Qed.

Lemma pool_distractor (arts : list Article) (p : str) :
  In p (build_distractor_pool tokens arts) -> exists kw, p = distractor kw.
Proof.
  unfold build_distractor_pool. rewrite fromkeys_In, in_flat_map.
  intros (art & _ & H). apply in_map_iff in H as (kw & <- & _). now exists kw.
Qed.

Lemma pool_keyword (arts : list Article) (art : Article) (kw : str) :
  In art arts -> In kw (tp.pick_keywords (extract tokens (text art)) 4) ->
  In (distractor kw) (build_distractor_pool tokens arts).
Proof.
  intros Ha Hk. unfold build_distractor_pool.
  rewrite fromkeys_In, in_flat_map. exists art. split; [assumption|].
  now apply in_map.
Qed.

Lemma single_correct_not_distractor (key kw : str) :
  single_correct key <> distractor kw.
Proof.
  unfold single_correct, distractor. intros E. apply app_inv_head in E.
  apply (f_equal (@rev _)) in E. rewrite !rev_app_distr in E.
  discriminate E.
Qed.

Lemma multiple_correct_not_distractor (key kw : str) :
  multiple_correct key <> distractor kw.
Proof. discriminate. Qed.

Lemma distractor_candidates_incl (pool : list str) (key : str) (n : Z) :
  incl (distractor_candidates pool key n) pool.
Proof.
  unfold distractor_candidates. intros x.
  destruct (len _ <? n)%Z; [auto|]. intros H. now apply filter_In in H.
Qed.

Lemma returns_sample_distractors (pool : list str) (key : str) (n : Z)
    (r : R) (P : list str -> R -> Prop) :
  (0 <= n)%Z ->
  (forall ds r',
      length ds
      = Nat.min (Z.to_nat n) (length (distractor_candidates pool key n)) ->
      taken_from (distractor_candidates pool key n) ds -> P ds r') ->
  returns (sample_distractors pool key n) r P.
Proof.
  intros Hn H. unfold sample_distractors.
  fold (distractor_candidates pool key n).
  apply returns_sample; [unfold len; lia|].
  intros ds r' L T. apply H; [|assumption]. rewrite L. unfold len. lia.
Qed.

Lemma index_In (x : str) (l : list str) :
  In x l -> exists i, index x l = Some i /\ nth_error l i = Some x.
Proof.
  induction l as [|y l IH]; [intros []|]. intros H. cbn [index].
  destruct (str_eqb y x) eqn:E.
  - apply str_eqb_eq in E as ->. now exists 0.
  - apply str_eqb_neq in E. destruct H as [H|H]; [contradiction|].
    destruct (IH H) as (i & -> & Hi). now exists (S i).
Qed.

Lemma index_Some (x : str) (l : list str) (i : nat) :
  index x l = Some i -> nth_error l i = Some x.
Proof.
  revert i. induction l as [|y l IH]; intros i; [discriminate|].
  cbn [index]. destruct (str_eqb y x) eqn:E.
  - apply str_eqb_eq in E as ->. now intros [= <-].
  - destruct (index x l) as [j|]; [|discriminate]. intros [= <-].
    now apply IH.
Qed.

End Distractors.

(* ===================================================================== *)
(** ** make_single_choice                                                 *)
(* ===================================================================== *)

Section SingleChoice.

Context {R : Type} {RS : RandomSource R}.
Variable tokens : str -> option (list str).
Variable count : Z.
Variable all : list Article.

Lemma returns_pick_stem (art : Article) (entities : tp.Entities) (dflt : str)
    (r : R) (P : str -> R -> Prop) :
  (forall stem r', P stem r') -> returns (pick_stem art entities dflt) r P.
Proof.
  intros H. unfold pick_stem.
  destruct (tp.sentences entities) as [|s l] eqn:E; cbn [tp.nonempty].
  - apply returns_ret. apply H.
  - apply returns_choice; [discriminate|]. intros stem r' _. apply H.
Qed.

Lemma sc_articles_valid (arts : list Article) :
  forall (results : list Question) (seen_q : list str) (r : R),
    incl arts all ->
    Forall (single_valid tokens all) results ->
    returns
      (sc_articles tokens (build_distractor_pool tokens all) count arts
         results seen_q) r
      (fun results' _ => Forall (single_valid tokens all) results').
Proof.
  induction arts as [|art rest IH]; intros results seen_q r Hincl Hres;
    cbn [sc_articles].
  - now apply returns_ret.
  - assert (Hrest : incl rest all) by (intros a Ha; apply Hincl; now right).
    assert (Hart : In art all) by (apply Hincl; now left).
    destruct (count <=? len results)%Z; [now apply returns_ret|].
    destruct (tp.pick_keywords (extract tokens (text art)) 5)
      as [|kw0 kws'] eqn:Ek; cbn [tp.nonempty negb]; [now apply IH|].
    apply returns_bind. apply returns_pick_stem. intros stem r1.
    apply returns_bind. apply returns_choice; [discriminate|].
    intros key r2 Hkey. rewrite <- Ek in Hkey.
    set (pool := build_distractor_pool tokens all).
    apply returns_bind. apply returns_sample_distractors; [lia|].
    intros ds r3 Lds Tds.
    apply returns_bind. apply returns_shuffle. intros opts r4 Hperm.
    assert (Hds : forall d, In d ds -> In d pool).
    { intros d Hd. apply (@distractor_candidates_incl pool key 3).
      now apply (taken_from_incl Tds). }
    assert (Hc : In (single_correct key) opts).
    { apply (Permutation_in _ Hperm). now left. }
    destruct (index_In _ _ Hc) as (ans & Ei & Hans). rewrite Ei.
    apply returns_bind. apply returns_ret.
    destruct (mem _ seen_q); [now apply IH|].
    apply IH; [assumption|]. apply Forall_app. split; [assumption|].
    constructor; [|constructor].
    exists art, key, opts, ans. cbn [options answer].
    assert (Lopts : length opts = 1 + length ds).
    { now rewrite <- (Permutation_length Hperm). }
    repeat split; try assumption; try reflexivity.
    + rewrite <- (proj1 (Permutation_count_occ str_dec _ _) Hperm).
      rewrite count_occ_cons_eq by reflexivity. f_equal.
      apply count_occ_not_In. intros Hin. apply Hds in Hin.
      apply pool_distractor in Hin as (kw & E).
      now apply (single_correct_not_distractor E).
    + assert (ans < length opts) by (apply nth_error_Some; congruence).
      change (Z.to_nat 3) with 3 in Lds. lia.
    + rewrite Lopts, Lds. reflexivity.
    + intros opt Hopt. apply (Permutation_in _ (Permutation_sym Hperm)) in Hopt.
      destruct Hopt as [<-|Hopt]; [now left | right; now apply Hds].
Qed.

End SingleChoice.

(** C4 (as amended).  A run of the single-choice generator never raises, and
    in every question it returns exactly one option is the "correct" string
    built from the chosen keyword, and the answer letter (A to D) names the
    position of that option in the shuffled list.  The question has one to
    four options: the correct one and the distractors drawn, three of them
    or, when the pool offers fewer candidates, all the candidates. *)
Theorem make_single_choice_valid :
  forall (R : Type) (RS : RandomSource R) (tokens : str -> option (list str))
         (arts : list Article) (count : Z) (r : R),
  exists results r',
    make_single_choice tokens arts count r = Ok (results, r')
    /\ Forall (single_valid tokens arts) results.
Proof.
  intros R RS tokens arts count r. apply returns_Ok.
  unfold make_single_choice. apply sc_articles_valid;
    [apply incl_refl | constructor].
Qed.

(** The article of the specification's scenario has two keywords, so the
    pool has two distractors and its question has three options. *)
Lemma make_single_choice_three_options :
  exists q r',
    make_single_choice no_tokens [article_1] 1%Z [0; 0; 0; 0; 0; 0; 0; 0]
    = Ok ([q], r')
    /\ option_map (@length str) (options q) = Some 3.
Proof. eexists _, _. split; [vm_compute; reflexivity | reflexivity]. Qed.

(* ===================================================================== *)
(** ** make_multiple_choice                                               *)
(* ===================================================================== *)

Section MultipleChoice.

Context {R : Type} {RS : RandomSource R}.
Variable tokens : str -> option (list str).
Variable count : Z.
Variable all : list Article.

Lemma letters_in_positions (options correct : list str) :
  forall i, letters_in i options correct
            = map letter (positions_in i options correct).
Proof.
  induction options as [|opt r IH]; intros i; [reflexivity|].
  cbn [letters_in positions_in]. destruct (mem opt correct); cbn [map];
    now rewrite IH.
Qed.

Lemma positions_in_spec (options correct : list str) :
  forall i j,
    In j (positions_in i options correct) <->
    i <= j /\ exists opt, nth_error options (j - i) = Some opt
                          /\ In opt correct.
Proof.
  induction options as [|opt r IH]; intros i j; cbn [positions_in].
  - split; [intros [] | intros (_ & o & H & _)]. now destruct (j - i).
  - assert (Hr : In j (positions_in (S i) r correct) <->
                 i < j /\ exists o, nth_error (opt :: r) (j - i) = Some o
                                    /\ In o correct).
    { rewrite IH. split.
      - intros (Hj & o & Ho & Hc). split; [lia|]. exists o.
        split; [|assumption].
        replace (j - i) with (S (j - S i)) by lia. exact Ho.
      - intros (Hj & o & Ho & Hc). split; [lia|]. exists o.
        split; [|assumption].
        replace (j - i) with (S (j - S i)) in Ho by lia. exact Ho. }
    destruct (mem opt correct) eqn:E.
    + cbn [In]. rewrite Hr. split.
      * intros [<-|(Hj & H)]; [|split; [lia | exact H]].
        split; [lia|]. exists opt. rewrite Nat.sub_diag.
        split; [reflexivity | now apply mem_In].
      * intros (Hj & H). destruct (Nat.eq_dec i j) as [->|Hn]; [now left|].
        right. split; [lia | exact H].
    + rewrite Hr. split.
      * intros (Hj & H). split; [lia | exact H].
      * intros (Hj & o & Ho & Hc). split; [|now exists o].
        destruct (Nat.eq_dec i j) as [->|Hn]; [|lia].
        rewrite Nat.sub_diag in Ho. injection Ho as <-.
        apply mem_In in Hc. congruence.
Qed.

Lemma positions_in_NoDup (options correct : list str) :
  forall i, NoDup (positions_in i options correct).
Proof.
  induction options as [|opt r IH]; intros i; cbn [positions_in];
    [constructor|].
  destruct (mem opt correct); [|apply IH]. constructor; [|apply IH].
  intros H. apply positions_in_spec in H. lia.
Qed.

Lemma NoDup_firstn {A} (n : nat) (l : list A) : NoDup l -> NoDup (firstn n l).
Proof.
  intros H. rewrite <- (firstn_skipn n l) in H.
  now apply NoDup_app_remove_r in H.
Qed.

Lemma pick_keywords_NoDup (entities : tp.Entities) (max_k : nat) :
  NoDup (tp.pick_keywords entities max_k).
Proof. apply NoDup_firstn, fromkeys_NoDup. Qed.

Lemma mc_articles_valid (arts : list Article) :
  forall (results : list Question) (r : R),
    incl arts all ->
    Forall (multiple_valid tokens all) results ->
    returns
      (mc_articles tokens (build_distractor_pool tokens all) count arts results)
      r (fun results' _ => Forall (multiple_valid tokens all) results').
Proof.
  induction arts as [|art rest IH]; intros results r Hincl Hres;
    cbn [mc_articles].
  - now apply returns_ret.
  - assert (Hrest : incl rest all) by (intros a Ha; apply Hincl; now right).
    assert (Hart : In art all) by (apply Hincl; now left).
    destruct (count <=? len results)%Z; [now apply returns_ret|].
    set (kws := tp.pick_keywords (extract tokens (text art)) 6).
    destruct (Z.ltb_spec (len kws) 2) as [Hk|Hk]; [now apply IH|].
    apply returns_bind. apply returns_pick_stem. intros stem r1.
    apply returns_bind. apply returns_randint; [lia|]. intros nc r2 Hnc.
    apply returns_bind. apply returns_sample; [lia|]. intros chosen r3 Lc Tc.
    set (pool := build_distractor_pool tokens all).
    apply returns_bind. apply returns_sample_distractors; [lia|].
    intros ds r4 _ Tds.
    apply returns_bind. apply returns_shuffle. intros opts r5 Hperm.
    apply IH; [assumption|]. apply Forall_app. split; [assumption|].
    constructor; [|constructor].
    set (correct := map multiple_correct chosen) in *.
    assert (Hds : forall d, In d ds -> In d pool /\ ~ In d correct).
    { intros d Hd.
      assert (Hp : In d pool).
      { apply (@distractor_candidates_incl pool (join BAR kws) (5 - nc)).
        now apply (taken_from_incl Tds). }
      split; [assumption|]. intros Hc.
      apply pool_distractor in Hp as (kw & ->).
      apply in_map_iff in Hc as (kw' & E & _).
      now apply (multiple_correct_not_distractor E). }
    assert (Hidx : forall i,
               In i (positions_in 0 opts correct) <->
               exists opt, nth_error opts i = Some opt /\ In opt correct).
    { intros i. rewrite positions_in_spec, Nat.sub_0_r. split.
      - now intros [_ H].
      - intros H. split; [lia | exact H]. }
    exists art, chosen, ds, opts, (positions_in 0 opts correct).
    cbn [options answer]. fold correct.
    repeat split; try assumption; try reflexivity.
    + apply (taken_from_NoDup (pick_keywords_NoDup _ _) Tc).
    + intros kw Hkw. now apply (taken_from_incl Tc).
    + lia.
    + lia.
    + now apply Hds.
    + now apply Hds.
    + now rewrite letters_in_positions.
    + apply positions_in_NoDup.
    + now apply Hidx.
    + now apply Hidx.
    + destruct chosen as [|kw0 chosen']; [simpl in Lc; lia|].
      assert (Hc : In (multiple_correct kw0) opts).
      { apply (Permutation_in _ Hperm). now left. }
      apply In_nth_error in Hc as (j & Hj). intros E.
      assert (Hin : In j (positions_in 0 opts correct)).
      { apply Hidx. exists (multiple_correct kw0). split; [assumption|].
        now left. }
      rewrite E in Hin. contradiction.
    + intros Hne. destruct ds as [|d ds']; [contradiction|].
      assert (Hd : In d opts).
      { apply (Permutation_in _ Hperm). apply in_or_app. right. now left. }
      apply In_nth_error in Hd as (j & Hj). exists j. split.
      * apply nth_error_Some. congruence.
      * intros Hin. apply Hidx in Hin as (opt & Ho & Hc).
        assert (opt = d) by congruence. subst opt.
        apply (Hds d); [now left | assumption].
Qed.

End MultipleChoice.

(** C5.  A run of the multiple-choice generator never raises, and in every
    question it returns the answer letters name exactly the positions, in
    the shuffled list, of the options whose text was built from the sampled
    keywords (two to four distinct keywords of the article); no distractor
    has the text of a correct option; the answer is not empty, and when a
    distractor was added some position of the list is not in the answer. *)
Theorem make_multiple_choice_valid :
  forall (R : Type) (RS : RandomSource R) (tokens : str -> option (list str))
         (arts : list Article) (count : Z) (r : R),
  exists results r',
    make_multiple_choice tokens arts count r = Ok (results, r')
    /\ Forall (multiple_valid tokens arts) results.
Proof.
  intros R RS tokens arts count r. apply returns_Ok.
  unfold make_multiple_choice. apply mc_articles_valid;
    [apply incl_refl | constructor].
Qed.

(* ===================================================================== *)
(** ** make_fill_blank                                                    *)
(* ===================================================================== *)

Section Occurrences.

Import Spec tp.

Lemma occurs_in_app (t pre s post : str) :
  occurs_in t s -> occurs_in t (pre ++ s ++ post).
Proof.
  intros (a & b & ->). exists (pre ++ a), (b ++ post).
  now rewrite <- !app_assoc.
Qed.

Lemma occurs_in_cons (t : str) (c : char) (s : str) :
  occurs_in t s -> occurs_in t (c :: s).
Proof.
  intros H. apply (@occurs_in_app t [c] s []) in H.
  now rewrite app_nil_r in H.
Qed.

Lemma lstrip_suffix (s : str) : exists a, s = a ++ lstrip s.
Proof.
  induction s as [|c s (a & IH)]; [now exists []|].
  cbn [lstrip]. destruct (isspace c); [|now exists []].
  exists (c :: a). simpl. now f_equal.
Qed.

Lemma occurs_in_strip (t s : str) : occurs_in t (strip s) -> occurs_in t s.
Proof.
  unfold strip, rstrip. intros H.
  destruct (lstrip_suffix s) as (a & Ea).
  destruct (lstrip_suffix (rev (lstrip s))) as (b & Eb).
  apply (f_equal (@rev _)) in Eb. rewrite rev_involutive, rev_app_distr in Eb.
  rewrite Ea, Eb. now apply occurs_in_app.
Qed.

(** A text without white space that starts the substituted text starts the
    text itself. *)
Lemma sub_whitespace_prefix (t : str) :
  no_space t ->
  forall s post,
    sub_whitespace false s = t ++ post -> exists post', s = t ++ post'.
Proof.
  induction 1 as [|c t Hc _ IH]; intros s post E; [now exists s|].
  destruct s as [|d s]; [discriminate|]. cbn [sub_whitespace] in E.
  rewrite whitespace_class_isspace in E. destruct (isspace d) eqn:Ed.
  - injection E as <- _. discriminate.
  - injection E as -> E. destruct (IH _ _ E) as (post' & ->). now exists post'.
Qed.

Lemma sub_whitespace_occurs (t : str) :
  no_space t ->
  forall s b, occurs_in t (sub_whitespace b s) -> occurs_in t s.
Proof.
  intros Ht. induction s as [|d s IH]; intros b (pre & post & E).
  - destruct pre; destruct t; try discriminate. now exists [], [].
  - cbn [sub_whitespace] in E. rewrite whitespace_class_isspace in E.
    destruct (isspace d) eqn:Ed.
    + destruct b.
      * apply occurs_in_cons. apply (IH true). now exists pre, post.
      * destruct pre as [|p pre].
        -- destruct t as [|c t]; [now exists [], (d :: s)|].
           injection E as <- _. inversion Ht; subst. discriminate.
        -- injection E as _ E. apply occurs_in_cons. apply (IH true).
           now exists pre, post.
    + destruct pre as [|p pre].
      * assert (E' : sub_whitespace false (d :: s) = t ++ post).
        { cbn [sub_whitespace]. now rewrite whitespace_class_isspace, Ed. }
        destruct (@sub_whitespace_prefix t Ht _ _ E') as (post' & ->).
        now exists [], post'.
      * injection E as _ E. apply occurs_in_cons. apply (IH false).
        now exists pre, post.
Qed.

Lemma normalize_text_occurs (t text : str) :
  no_space t -> occurs_in t (normalize_text text) -> occurs_in t text.
Proof.
  intros Ht H. unfold normalize_text in H. apply occurs_in_strip in H.
  rewrite replace_nbsp_sub in H. now apply sub_whitespace_occurs in H.
Qed.

Lemma isdecimal_not_space (c : char) : isdecimal c = true -> isspace c = false.
Proof.
  unfold isdecimal, decimal. intros H.
  assert (T : forallb
                (fun z => forallb (fun k => negb (isspace (z + k)%N))
                            [0; 1; 2; 3; 4; 5; 6; 7; 8; 9]%N)
                DECIMAL_ZEROS = true) by (vm_compute; reflexivity).
  rewrite forallb_forall in T.
  assert (Z0 : exists z, In z DECIMAL_ZEROS /\ (z <= c < z + 10)%N).
  { revert H. generalize DECIMAL_ZEROS. intros zs.
    induction zs as [|z zs IH]; cbn [decimal_in]; [discriminate|].
    destruct ((z <=? c) && (c <? z + 10))%N eqn:E.
    - intros _. apply andb_true_iff in E as [E1 E2].
      apply N.leb_le in E1. apply N.ltb_lt in E2. exists z.
      split; [now left | lia].
    - intros H. destruct (IH H) as (z' & Hin & Hz). exists z'.
      split; [now right | assumption]. }
  destruct Z0 as (z & Hin & Hz). specialize (T z Hin).
  rewrite forallb_forall in T. specialize (T (c - z)%N).
  replace (z + (c - z))%N with c in T by lia.
  apply negb_true_iff. apply T.
  assert (K : (c - z < 10)%N) by lia. revert K. generalize (c - z)%N.
  intros k K. cbn [In].
  destruct (N.eq_dec k 0); [auto|]. destruct (N.eq_dec k 1); [auto|].
  destruct (N.eq_dec k 2); [auto|]. destruct (N.eq_dec k 3); [auto 6|].
  destruct (N.eq_dec k 4); [auto 6|]. destruct (N.eq_dec k 5); [auto 7|].
  destruct (N.eq_dec k 6); [auto 8|]. destruct (N.eq_dec k 7); [auto 9|].
  destruct (N.eq_dec k 8); [auto 10|]. destruct (N.eq_dec k 9); [auto 11|].
  lia.
Qed.

(** The runs found by [digit_runs]: the head run starts the text, the
    others occur in it, and all consist of digits. *)
Lemma digit_runs_spec (s : str) :
  all_digits (fst (digit_runs s))
  /\ (exists post, s = fst (digit_runs s) ++ post)
  /\ Forall (fun m => all_digits m /\ occurs_in m s) (snd (digit_runs s)).
Proof.
  induction s as [|c s (IH1 & (post & IH2) & IH3)]; cbn [digit_runs].
  - repeat split; [constructor | now exists [] | constructor].
  - destruct (digit_runs s) as [h t]. cbn [fst snd] in *.
    assert (T : Forall (fun m => all_digits m /\ occurs_in m (c :: s)) t).
    { eapply Forall_impl; [|exact IH3]. intros m [? ?].
      split; [assumption | now apply occurs_in_cons]. }
    destruct (isdecimal c) eqn:E; cbn [fst snd].
    + repeat split; [now constructor | | exact T].
      exists post. simpl. now f_equal.
    + repeat split; [constructor | now exists (c :: s) |].
      destruct h as [|d h]; cbn [nonempty]; [exact T|].
      constructor; [|exact T]. split; [assumption|].
      exists [c], post. simpl. now f_equal.
Qed.

Lemma findall_number_spec (s m : str) :
  In m (findall_number s) -> all_digits m /\ occurs_in m s.
Proof.
  unfold findall_number.
  pose proof (digit_runs_spec s) as (H1 & (post & H2) & H3).
  destruct (digit_runs s) as [h t]. cbn [fst snd] in *.
  rewrite Forall_forall in H3.
  destruct h as [|d h]; cbn [nonempty]; [apply H3|].
  intros [<-|H]; [|now apply H3]. split; [assumption|]. now exists [], post.
Qed.

Lemma KEY_TERMS_no_space : Forall no_space KEY_TERMS.
Proof. repeat constructor. Qed.

End Occurrences.

Section CountOccurrences.

Import Spec.


Lemma not_contains_occurs (p s : str) :
  contains p s = false <-> ~ occurs_in p s.
Proof.
  rewrite <- contains_occurs. destruct (contains p s); split; congruence.
Qed.

Variable b0 : char.
Variable rest : str.
Hypothesis b0_fresh : ~ In b0 rest.




End CountOccurrences.

Section FillBlank.

Context {R : Type} {RS : RandomSource R}.
Variable tokens : str -> option (list str).
Variable count : Z.
Variable all : list Article.





End FillBlank.



(* ===================================================================== *)
(** ** split_sentences                                                    *)
(* ===================================================================== *)

Section Sentences.

Import Spec tp.

Lemma concat_re_split (text : str) : concat (re_split text) = text.
Proof.
  induction text as [|c text IH]; [reflexivity|]. cbn [re_split].
  destruct (sentence_end c).
  - cbn [concat app]. now rewrite IH.
  - destruct (re_split text) as [|p ps]; [simpl in IH; now subst|].
    cbn [concat app] in *. now rewrite IH.
Qed.

Lemma re_split_ends (text : str) :
  Forall ends_at_terminator (re_split text).
Proof.
  induction text as [|c text IH]; cbn [re_split].
  - constructor; [|constructor]. intros pre c post E. now destruct pre.
  - destruct (sentence_end c) eqn:Ec.
    + constructor; [|exact IH]. intros pre d post E _.
      destruct pre as [|x pre]; [now injection E|].
      injection E as _ E. now destruct pre.
    + destruct (re_split text) as [|p ps].
      * constructor; [|constructor]. intros pre d post E Hd.
        destruct pre as [|x pre]; [injection E as -> _; congruence|].
        injection E as _ E. now destruct pre.
      * inversion IH as [|? ? Hp Hps]; subst. constructor; [|exact Hps].
        intros pre d post E Hd. destruct pre as [|x pre].
        -- injection E as -> _. congruence.
        -- injection E as _ E. now apply (Hp pre d post).
Qed.

Lemma lstrip_spaces (s : str) :
  exists a, s = a ++ lstrip s /\ Forall (fun c => isspace c = true) a.
Proof.
  induction s as [|c s (a & E & Ha)]; [now exists []|].
  cbn [lstrip]. destruct (isspace c) eqn:Ec; [|now exists []].
  exists (c :: a). split; [simpl; now f_equal | now constructor].
Qed.

Lemma strip_spaces (s : str) :
  exists a b,
    s = a ++ strip s ++ b
    /\ Forall (fun c => isspace c = true) a
    /\ Forall (fun c => isspace c = true) b.
Proof.
  unfold strip, rstrip.
  destruct (lstrip_spaces s) as (a & Ea & Ha).
  destruct (lstrip_spaces (rev (lstrip s))) as (b & Eb & Hb).
  exists a, (rev b). repeat split; [|assumption|now apply Forall_rev].
  apply (f_equal (@rev _)) in Eb. rewrite rev_involutive, rev_app_distr in Eb.
  now rewrite <- Eb.
Qed.

Lemma lstrip_idempotent (s : str) : lstrip (lstrip s) = lstrip s.
Proof.
  induction s as [|c s IH]; [reflexivity|]. cbn [lstrip].
  destruct (isspace c) eqn:E; [exact IH|]. cbn [lstrip]. now rewrite E.
Qed.

Lemma rstrip_strip (s : str) : rstrip (strip s) = strip s.
Proof.
  unfold strip, rstrip. now rewrite rev_involutive, lstrip_idempotent.
Qed.

Lemma lstrip_fixed (s : str) :
  lstrip s = s <-> match s with [] => True | c :: _ => isspace c = false end.
Proof.
  destruct s as [|c s]; [easy|]. cbn [lstrip].
  destruct (isspace c) eqn:E; split; try easy.
  intros H. destruct (lstrip_spaces s) as (a & Ea & _).
  apply (f_equal (@length _)) in H. apply (f_equal (@length _)) in Ea.
  rewrite length_app in Ea. simpl in H. lia.
Qed.

Lemma rstrip_rec_head (c : char) (s : str) :
  isspace c = false -> exists r, rstrip_rec (c :: s) = c :: r.
Proof.
  intros E. cbn [rstrip_rec]. destruct (rstrip_rec s) as [|d r].
  - rewrite E. now exists [].
  - now exists (d :: r).
Qed.

Lemma lstrip_strip (s : str) : lstrip (strip s) = strip s.
Proof.
  unfold strip. rewrite rstrip_rstrip_rec.
  destruct (lstrip s) as [|c r] eqn:E; [reflexivity|].
  assert (Hc : isspace c = false).
  { pose proof (lstrip_idempotent s) as H. rewrite E in H.
    apply lstrip_fixed in H. exact H. }
  destruct (@rstrip_rec_head c r Hc) as (r' & ->). cbn [lstrip].
  now rewrite Hc.
Qed.

Lemma visible_spaces (a : str) :
  Forall (fun c => isspace c = true) a -> visible a = [].
Proof.
  induction 1 as [|c a Hc _ IH]; [reflexivity|].
  unfold visible in *. cbn [filter]. now rewrite Hc.
Qed.

Lemma visible_app (a b : str) : visible (a ++ b) = visible a ++ visible b.
Proof. apply filter_app. Qed.

Lemma visible_strip (s : str) : visible (strip s) = visible s.
Proof.
  destruct (strip_spaces s) as (a & b & E & Ha & Hb).
  rewrite E at 2. rewrite !visible_app, (visible_spaces Ha), (visible_spaces Hb).
  now rewrite app_nil_r.
Qed.

Lemma visible_sentences (parts : list str) :
  visible
    (concat (map strip
               (filter (fun p => nonempty p && nonempty (strip p)) parts)))
  = visible (concat parts).
Proof.
  induction parts as [|p parts IH]; [reflexivity|].
  cbn [filter concat]. rewrite visible_app, <- IH.
  destruct (nonempty p && nonempty (strip p)) eqn:E.
  - cbn [map concat]. now rewrite visible_app, visible_strip.
  - rewrite <- (visible_strip p).
    destruct p as [|c p]; [reflexivity|]. cbn [nonempty andb] in E.
    destruct (strip (c :: p)); [reflexivity | discriminate].
Qed.

End Sentences.

(** X1.  Every sentence returned by [split_sentences] is non-empty, has no
    white space at either end, occurs in the text, and contains a sentence
    terminator at most as its last character. *)
Theorem split_sentences_wellformed :
  forall (text s : str),
    In s (tp.split_sentences text) ->
    s <> []
    /\ lstrip s = s /\ rstrip s = s
    /\ Spec.occurs_in s text
    /\ ends_at_terminator s.
Proof.
  intros text s H. unfold tp.split_sentences in H.
  apply in_map_iff in H as (p & <- & Hp).
  apply filter_In in Hp as [Hp Hne]. apply andb_true_iff in Hne as [_ Hne].
  split; [now destruct (strip p)|].
  split; [apply lstrip_strip|]. split; [apply rstrip_strip|].
  destruct (strip_spaces p) as (a & b & E & _ & _). split.
  - apply in_split in Hp as (l1 & l2 & Hs).
    pose proof (concat_re_split text) as C. rewrite Hs in C.
    rewrite concat_app in C. cbn [concat] in C. rewrite <- C.
    exists (concat l1 ++ a), (b ++ concat l2). rewrite <- !app_assoc.
    f_equal. rewrite E at 1. now rewrite <- !app_assoc.
  - pose proof (re_split_ends text) as T. rewrite Forall_forall in T.
    specialize (T p Hp). intros pre c post Es Hc.
    assert (Ep : p = (a ++ pre) ++ c :: post ++ b).
    { rewrite E at 1. rewrite Es, <- !app_assoc. reflexivity. }
    specialize (T (a ++ pre) c (post ++ b) Ep Hc).
    now apply app_eq_nil in T.
Qed.

Lemma split_sentences_wellformed_witness :
  u "禁止滥用权利。" <> []
  /\ Spec.occurs_in (u "禁止滥用权利。") (u "公民应当遵守法律。 禁止滥用权利。").
Proof.
  destruct (@split_sentences_wellformed
              (u "公民应当遵守法律。 禁止滥用权利。") (u "禁止滥用权利。"))
    as (H1 & _ & _ & H2 & _).
  - vm_compute. right. now left.
  - split; assumption.
Defined.

(** X2.  Splitting into sentences loses white space only: the sentences,
    put end to end, have the characters of the text that are not white
    space, in the same order. *)
Theorem split_sentences_lossless :
  forall text : str,
    visible (concat (tp.split_sentences text)) = visible text.
Proof.
  intros text. unfold tp.split_sentences.
  now rewrite visible_sentences, concat_re_split.
Qed.

(* ===================================================================== *)
(** ** normalize_text and extract_entities                                *)
(* ===================================================================== *)

Section Entities.

Import Spec tp.

Variable keep : char -> bool.
Hypothesis keep_no_space : forall c, isspace c = true -> keep c = false.

Lemma filter_sub_whitespace (b : bool) (s : str) :
  filter keep (sub_whitespace b s) = filter keep s.
Proof.
  revert b. induction s as [|c s IH]; intros b; [reflexivity|].
  cbn [sub_whitespace]. rewrite whitespace_class_isspace.
  destruct (isspace c) eqn:E.
  - cbn [filter]. rewrite (keep_no_space c E).
    destruct b; cbn [filter]; [apply IH|].
    rewrite (keep_no_space SPACE eq_refl). apply IH.
  - cbn [filter]. now rewrite IH.
Qed.

Lemma filter_spaces (a : str) :
  Forall (fun c => isspace c = true) a -> filter keep a = [].
Proof.
  induction 1 as [|c a Hc _ IH]; [reflexivity|].
  cbn [filter]. now rewrite (keep_no_space c Hc).
Qed.

Lemma filter_strip (s : str) : filter keep (strip s) = filter keep s.
Proof.
  destruct (strip_spaces s) as (a & b & E & Ha & Hb).
  rewrite E at 2. rewrite !filter_app, (filter_spaces Ha), (filter_spaces Hb).
  now rewrite app_nil_r.
Qed.

Lemma filter_normalize_text (s : str) :
  filter keep (normalize_text s) = filter keep s.
Proof.
  unfold normalize_text.
  now rewrite filter_strip, replace_nbsp_sub, filter_sub_whitespace.
Qed.

End Entities.

Section EntitiesFacts.

Import Spec tp.

Lemma length_sub_whitespace (b : bool) (s : str) :
  length (sub_whitespace b s) <= length s.
Proof.
  revert b. induction s as [|c s IH]; intros b; [reflexivity|].
  cbn [sub_whitespace]. destruct (whitespace_class c); [destruct b|];
    cbn [length]; specialize (IH true) as IHt; specialize (IH false); lia.
Qed.

Lemma length_strip (s : str) : length (strip s) <= length s.
Proof.
  destruct (strip_spaces s) as (a & b & E & _).
  apply (f_equal (@length _)) in E. rewrite !length_app in E. lia.
Qed.

Lemma digit_runs_concat (s : str) :
  fst (digit_runs s) ++ concat (snd (digit_runs s)) = filter isdecimal s
  /\ Forall (fun m => m <> []) (snd (digit_runs s)).
Proof.
  induction s as [|c s [IH1 IH2]]; cbn [digit_runs]; [now split|].
  destruct (digit_runs s) as [h t]. cbn [fst snd filter] in *.
  destruct (isdecimal c); cbn [fst snd].
  - split; [simpl; now f_equal | assumption].
  - destruct h as [|d h]; cbn [nonempty]; [now split|].
    split; [exact IH1 | constructor; [discriminate | assumption]].
Qed.

Lemma findall_number_concat (s : str) :
  concat (findall_number s) = filter isdecimal s
  /\ Forall (fun m => m <> []) (findall_number s).
Proof.
  unfold findall_number. destruct (digit_runs_concat s) as [H1 H2].
  destruct (digit_runs s) as [h t]. cbn [fst snd] in *.
  destruct h as [|d h]; cbn [nonempty]; [now split|].
  split; [exact H1 | constructor; [discriminate | assumption]].
Qed.

(** A text without white space keeps its place through the substitution. *)
Lemma sub_whitespace_word (k : str) :
  no_space k ->
  forall post, sub_whitespace false (k ++ post) = k ++ sub_whitespace false post.
Proof.
  induction 1 as [|c k Hc _ IH]; intros post; [reflexivity|].
  cbn [app sub_whitespace]. rewrite whitespace_class_isspace, Hc.
  now rewrite IH.
Qed.

Lemma sub_whitespace_keeps (k : str) :
  no_space k -> k <> [] ->
  forall pre post b,
  exists pre' post', sub_whitespace b (pre ++ k ++ post) = pre' ++ k ++ post'.
Proof.
  intros Hk Hne. induction pre as [|d pre IH]; intros post b.
  - exists [], (sub_whitespace false post). cbn [app].
    destruct k as [|c k]; [contradiction|]. inversion Hk; subst.
    cbn [app sub_whitespace]. rewrite whitespace_class_isspace, H1.
    now rewrite sub_whitespace_word.
  - cbn [app sub_whitespace]. destruct (whitespace_class d).
    + destruct (IH post true) as (pre' & post' & ->). destruct b.
      * now exists pre', post'.
      * now exists (SPACE :: pre'), post'.
    + destruct (IH post false) as (pre' & post' & ->).
      now exists (d :: pre'), post'.
Qed.

Lemma lstrip_keeps (k : str) :
  no_space k -> k <> [] ->
  forall pre post, exists pre', lstrip (pre ++ k ++ post) = pre' ++ k ++ post.
Proof.
  intros Hk Hne. induction pre as [|d pre IH]; intros post.
  - exists []. cbn [app]. destruct k as [|c k]; [contradiction|].
    inversion Hk; subst. cbn [app lstrip]. now rewrite H1.
  - cbn [app lstrip]. destruct (isspace d); [apply IH|].
    now exists (d :: pre).
Qed.

Lemma strip_keeps (k : str) :
  no_space k -> k <> [] ->
  forall pre post, occurs_in k (strip (pre ++ k ++ post)).
Proof.
  intros Hk Hne pre post. unfold strip, rstrip.
  destruct (lstrip_keeps Hk Hne pre post) as (pre' & ->).
  rewrite !rev_app_distr, <- app_assoc.
  assert (Hr : no_space (rev k)) by now apply Forall_rev.
  assert (Hn : rev k <> []).
  { intros E. apply (f_equal (@rev _)) in E. rewrite rev_involutive in E.
    contradiction. }
  destruct (lstrip_keeps Hr Hn (rev post) (rev pre')) as (post' & ->).
  rewrite !rev_app_distr, !rev_involutive, <- app_assoc.
  now exists pre', (rev post').
Qed.

Lemma normalize_text_keeps (k text : str) :
  no_space k -> occurs_in k text -> occurs_in k (normalize_text text).
Proof.
  intros Hk (pre & post & ->). destruct k as [|c k].
  - now exists [], (normalize_text (pre ++ [] ++ post)).
  - unfold normalize_text. rewrite replace_nbsp_sub.
    assert (Hne : c :: k <> []) by discriminate.
    destruct (sub_whitespace_keeps Hk Hne pre post false) as (p' & q' & ->).
    now apply strip_keeps.
Qed.

Lemma contains_normalize_text (k text : str) :
  no_space k -> contains k (normalize_text text) = contains k text.
Proof.
  intros Hk. destruct (contains k text) eqn:E.
  - apply contains_occurs. apply contains_occurs in E.
    now apply normalize_text_keeps.
  - apply not_contains_occurs. apply not_contains_occurs in E.
    intros H. apply E. now apply normalize_text_occurs.
Qed.

Lemma KEY_TERMS_NoDup : NoDup KEY_TERMS.
Proof.
  unfold KEY_TERMS.
  repeat (constructor;
          [cbn [In]; intros H;
           repeat (destruct H as [H|H]; [discriminate H|]); contradiction|]).
  constructor.
Qed.

Lemma NoDup_filter {A} (f : A -> bool) (l : list A) :
  NoDup l -> NoDup (filter f l).
Proof.
  induction 1 as [|x l Hx _ IH]; cbn [filter]; [constructor|].
  destruct (f x); [|exact IH]. constructor; [|exact IH].
  intros H. apply filter_In in H. now apply Hx.
Qed.

End EntitiesFacts.

(** X3.  Normalizing a text changes its white space only, and never makes
    it longer: the characters that are not white space are the same, in the
    same order. *)
Theorem normalize_text_keeps_visible :
  forall text : str,
    visible (tp.normalize_text text) = visible text
    /\ length (tp.normalize_text text) <= length text.
Proof.
  intros text. split.
  - apply filter_normalize_text. intros c H. now rewrite H.
  - unfold tp.normalize_text. rewrite replace_nbsp_sub.
    pose proof (length_strip (tp.sub_whitespace false text)).
    pose proof (length_sub_whitespace false text). lia.
Qed.

(** X4.  The numbers of the entity bundle are non-empty runs of digits that
    occur in the article text; put end to end they are exactly the digits
    of the text, in order. *)
Theorem extract_entities_numbers :
  forall (tokens : str -> option (list str)) (text : str),
    concat (tp.numbers (tp.extract_entities tokens text))
    = filter isdecimal text
    /\ Forall (fun m => m <> [] /\ all_digits m /\ Spec.occurs_in m text)
         (tp.numbers (tp.extract_entities tokens text)).
Proof.
  intros tokens text. cbn [tp.extract_entities tp.numbers].
  destruct (findall_number_concat (tp.normalize_text text)) as [H1 H2].
  split.
  - rewrite H1. apply filter_normalize_text. intros c H.
    destruct (isdecimal c) eqn:E; [|reflexivity].
    apply isdecimal_not_space in E. congruence.
  - rewrite Forall_forall in *. intros m Hm. split; [now apply H2|].
    destruct (findall_number_spec _ _ Hm) as [Hd Ho].
    split; [assumption|]. apply normalize_text_occurs; [|assumption].
    eapply Forall_impl; [|exact Hd]. apply isdecimal_not_space.
Qed.

(** X5.  The terms of the entity bundle are the words of the vocabulary
    that occur in the article text as it is (normalization does not add or
    remove any), in the order of the vocabulary and without repetition. *)
Theorem extract_entities_terms :
  forall (tokens : str -> option (list str)) (text : str),
    tp.terms (tp.extract_entities tokens text)
    = filter (fun k => contains k text) tp.KEY_TERMS
    /\ NoDup (tp.terms (tp.extract_entities tokens text)).
Proof.
  intros tokens text. cbn [tp.extract_entities tp.terms]. split.
  - apply filter_ext_in. intros k Hk. apply contains_normalize_text.
    pose proof KEY_TERMS_no_space as K. rewrite Forall_forall in K.
    now apply K.
  - apply NoDup_filter, KEY_TERMS_NoDup.
Qed.

Section Dates.

Import Spec tp.

Lemma four_digits_Some (s y r : str) :
  four_digits s = Some (y, r) ->
  s = y ++ r /\ length y = 4 /\ all_digits y.
Proof.
  unfold four_digits. destruct s as [|a [|b [|c [|d s]]]]; try discriminate.
  destruct (isdecimal a) eqn:Ea, (isdecimal b) eqn:Eb, (isdecimal c) eqn:Ec,
    (isdecimal d) eqn:Ed; try discriminate.
  intros [= <- <-]. repeat split. now repeat constructor.
Qed.

Lemma digits_then_Some (mark : char) (s m r : str) :
  digits_then mark s = Some (m, r) ->
  s = m ++ [mark] ++ r /\ 1 <= length m <= 2 /\ all_digits m.
Proof.
  unfold digits_then. destruct s as [|a [|b [|c s]]]; try discriminate.
  - destruct (isdecimal a) eqn:Ea; [|discriminate].
    destruct (N.eqb_spec b mark) as [->|]; [|discriminate]. cbn [andb].
    intros [= <- <-]. repeat split; simpl; try lia. now repeat constructor.
  - destruct (isdecimal a) eqn:Ea; [|discriminate]. cbn [andb].
    destruct (isdecimal b) eqn:Eb; cbn [andb].
    + destruct (N.eqb_spec c mark) as [->|].
      * intros [= <- <-]. repeat split; simpl; try lia.
        now repeat constructor.
      * destruct (N.eqb_spec b mark) as [->|]; [|discriminate].
        intros [= <- <-]. repeat split; simpl; try lia.
        now repeat constructor.
    + destruct (N.eqb_spec b mark) as [->|]; [|discriminate].
      intros [= <- <-]. repeat split; simpl; try lia. now repeat constructor.
Qed.

Lemma match_date_Some (s y m d : str) (n : nat) :
  match_date s = Some (y, m, d, n) ->
  date_shaped (y ++ [YEAR] ++ m ++ [MONTH] ++ d ++ [DAY])
  /\ exists post, s = (y ++ [YEAR] ++ m ++ [MONTH] ++ d ++ [DAY]) ++ post.
Proof.
  unfold match_date. destruct (four_digits s) as [[y0 [|c r]]|] eqn:Ey;
    try discriminate.
  destruct (N.eqb_spec c YEAR) as [->|]; [|discriminate].
  destruct (digits_then MONTH r) as [[m0 r']|] eqn:Em; [|discriminate].
  destruct (digits_then DAY r') as [[d0 r'']|] eqn:Ed; [|discriminate].
  intros [= <- <- <- _].
  apply four_digits_Some in Ey as (Es & Ly & Dy).
  apply digits_then_Some in Em as (Er & Lm & Dm).
  apply digits_then_Some in Ed as (Er' & Ld & Dd).
  split.
  - exists y0, m0, d0. repeat split; assumption || lia.
  - exists r''. rewrite Es, Er, Er'.
    repeat (rewrite <- app_assoc; cbn [app]). reflexivity.
Qed.

Lemma findall_date_spec (s : str) :
  forall skip,
    Forall (fun d => date_shaped d /\ occurs_in d s) (findall_date skip s).
Proof.
  induction s as [|c s IH]; intros skip; cbn [findall_date]; [constructor|].
  assert (T : forall k, Forall (fun d => date_shaped d /\ occurs_in d (c :: s))
                          (findall_date k s)).
  { intros k. eapply Forall_impl; [|exact (IH k)]. intros d [? ?].
    split; [assumption | now apply occurs_in_cons]. }
  destruct skip as [|k]; [|apply T].
  destruct (match_date (c :: s)) as [[[[y m] d] n]|] eqn:E; [|apply T].
  constructor; [|apply T]. apply match_date_Some in E as (Hs & post & E).
  split; [assumption|]. now exists [], post.
Qed.

Lemma date_shaped_no_space (d : str) : date_shaped d -> no_space d.
Proof.
  intros (y & m & dd & -> & _ & Hy & _ & Hm & _ & Hd).
  assert (D : forall l, all_digits l -> no_space l).
  { intros l H. eapply Forall_impl; [|exact H]. apply isdecimal_not_space. }
  unfold no_space. rewrite !Forall_app. repeat split; try now apply D.
  all: constructor; [reflexivity | constructor].
Qed.

End Dates.

(** X6.  Every date of the entity bundle is a four-digit year, "年", a
    month of one or two digits, "月", a day of one or two digits and
    "日", and occurs in the article text. *)
Theorem extract_entities_dates :
  forall (tokens : str -> option (list str)) (text : str),
    Forall (fun d => date_shaped d /\ Spec.occurs_in d text)
      (tp.dates (tp.extract_entities tokens text)).
Proof.
  intros tokens text. cbn [tp.extract_entities tp.dates].
  eapply Forall_impl; [|apply findall_date_spec]. intros d [Hs Ho].
  split; [assumption|]. apply normalize_text_occurs; [|assumption].
  now apply date_shaped_no_space.
Qed.

Section Keywords.

Import Spec tp.

Lemma dedup_acc_fresh (a : list str) :
  forall (seen b : list str),
    NoDup a -> (forall x, In x a -> ~ In x seen) ->
    dedup_acc seen (a ++ b) = a ++ dedup_acc (rev a ++ seen) b.
Proof.
  induction a as [|x a IH]; intros seen b Ha Hs; [reflexivity|].
  inversion Ha as [|? ? Hx Ha']; subst. cbn [app dedup_acc].
  assert (E : mem x seen = false).
  { apply mem_not_In. apply Hs. now left. }
  rewrite E. f_equal. rewrite IH; [|assumption|].
  - cbn [rev]. now rewrite <- app_assoc.
  - intros y Hy [<-|H]; [contradiction|]. apply (Hs y); [now right|assumption].
Qed.

Lemma firstn_In {A} (n : nat) (l : list A) (x : A) :
  In x (firstn n l) -> In x l.
Proof.
  intros H. rewrite <- (firstn_skipn n l). apply in_or_app. now left.
Qed.

Lemma terms_NoDup (tokens : str -> option (list str)) (text : str) :
  NoDup (terms (extract_entities tokens text)).
Proof. apply NoDup_filter, KEY_TERMS_NoDup. Qed.

Lemma fromkeys_prefix (a b : list str) :
  NoDup a -> exists rest, fromkeys (a ++ b) = a ++ rest.
Proof.
  intros Ha. unfold fromkeys. rewrite dedup_acc_fresh; [|assumption|easy].
  now eexists.
Qed.

End Keywords.

(** X7.  The keywords picked from the entities of a text are pairwise
    different, at most [max_k], each a term or a noun of the bundle, and the
    terms come first: the list starts with the first [max_k] terms. *)
Theorem pick_keywords_terms_first :
  forall (tokens : str -> option (list str)) (text : str) (max_k : nat),
    let entities := tp.extract_entities tokens text in
    let kws := tp.pick_keywords entities max_k in
    NoDup kws
    /\ length kws <= max_k
    /\ (forall kw, In kw kws ->
          In kw (tp.terms entities) \/ In kw (tp.nouns entities))
    /\ exists rest, kws = firstn max_k (tp.terms entities) ++ rest.
Proof.
  intros tokens text max_k entities kws. repeat split.
  - apply pick_keywords_NoDup.
  - unfold kws, tp.pick_keywords. rewrite length_firstn. lia.
  - intros kw H. unfold kws, tp.pick_keywords in H.
    apply in_app_or. apply fromkeys_In. now apply firstn_In with max_k.
  - unfold kws, tp.pick_keywords.
    destruct (@fromkeys_prefix (tp.terms entities) (tp.nouns entities))
      as (rest & ->).
    { apply terms_NoDup. }
    rewrite firstn_app. now eexists.
Qed.

(* ===================================================================== *)
(** ** make_short_answers, the distractor pool                            *)
(* ===================================================================== *)

Section ShortAnswers.

Variable count : Z.

Lemma sa_articles_spec (arts : list Article) :
  forall (results : list Question) (taken : list str),
    sa_articles count arts results taken
    = results
      ++ map short_question
           (firstn (Z.to_nat (count - len results))
              (distinct_articles taken arts)).
Proof.
  induction arts as [|art rest IH]; intros results taken;
    cbn [sa_articles distinct_articles].
  - now rewrite firstn_nil, app_nil_r.
  - destruct (Z.leb_spec count (len results)) as [Hc|Hc].
    + replace (Z.to_nat (count - len results)) with 0 by lia.
      now rewrite app_nil_r.
    + destruct (mem (article_no art) taken); [apply IH|].
      rewrite IH. unfold len. rewrite length_app. cbn [length].
      replace (Z.to_nat (count - Z.of_nat (length results)))
        with (S (Z.to_nat (count - Z.of_nat (length results + 1))))
        by (unfold len in Hc; lia).
      cbn [firstn map]. now rewrite <- app_assoc.
Qed.

Lemma distinct_articles_spec (arts : list Article) :
  forall taken : list str,
    NoDup (map article_no (distinct_articles taken arts))
    /\ (forall no, In no (map article_no (distinct_articles taken arts)) ->
          ~ In no taken)
    /\ (forall a, In a (distinct_articles taken arts) -> In a arts)
    /\ (forall a, In a arts ->
          In (article_no a) taken
          \/ In (article_no a) (map article_no (distinct_articles taken arts))).
Proof.
  induction arts as [|art rest IH]; intros taken; cbn [distinct_articles].
  - split; [constructor|]. split; [intros no []|].
    split; intros a [].
  - destruct (mem (article_no art) taken) eqn:E.
    + destruct (IH taken) as (H1 & H2 & H3 & H4).
      split; [assumption|]. split; [assumption|]. split.
      * intros a Ha. right. now apply H3.
      * intros a [<-|Ha]; [left; now apply mem_In | now apply H4].
    + destruct (IH (article_no art :: taken)) as (H1 & H2 & H3 & H4).
      cbn [map]. split; [|split; [|split]].
      * constructor; [|exact H1]. intros H. apply (H2 _ H). now left.
      * intros no [<-|H]; [now apply mem_not_In|].
        intros Hn. apply (H2 _ H). now right.
      * intros a [<-|Ha]; [now left | right; now apply H3].
      * intros a [<-|Ha]; [right; now left|].
        destruct (H4 a Ha) as [[<-|H]|H]; [right; now left | now left |].
        right. now right.
Qed.

End ShortAnswers.

(** X8.  The short-answer generator returns the questions of the first
    [count] articles with a number not met before, in the order of the
    list: one question per article number, its answer the text of the first
    article that has this number; every article number of the list is
    covered when [count] allows. *)
Theorem make_short_answers_first_of_each_number :
  forall (arts : list Article) (count : Z),
    make_short_answers arts count
    = map short_question
        (firstn (Z.to_nat count) (distinct_articles [] arts))
    /\ NoDup (map article_no (distinct_articles [] arts))
    /\ (forall a, In a (distinct_articles [] arts) -> In a arts)
    /\ (forall a, In a arts ->
          In (article_no a) (map article_no (distinct_articles [] arts))).
Proof.
  intros arts count. destruct (distinct_articles_spec arts [])
    as (H1 & _ & H3 & H4).
  split; [|split; [assumption|split; [assumption|]]].
  - unfold make_short_answers. rewrite sa_articles_spec. cbn [app len length].
    now rewrite Z.sub_0_r.
  - intros a Ha. now destruct (H4 a Ha) as [[]|].
Qed.

(** X9.  The distractor pool has no duplicates; its entries are exactly the
    distractor strings of the first four keywords of the articles. *)
Theorem build_distractor_pool_exact :
  forall (tokens : str -> option (list str)) (arts : list Article),
    NoDup (build_distractor_pool tokens arts)
    /\ forall p,
         In p (build_distractor_pool tokens arts) <->
         exists art kw,
           In art arts
           /\ In kw (tp.pick_keywords (extract tokens (text art)) 4)
           /\ p = distractor kw.
Proof.
  intros tokens arts. split; [apply fromkeys_NoDup|]. intros p.
  unfold build_distractor_pool. rewrite fromkeys_In, in_flat_map. split.
  - intros (art & Ha & H). apply in_map_iff in H as (kw & <- & Hk).
    now exists art, kw.
  - intros (art & kw & Ha & Hk & ->). exists art. split; [assumption|].
    now apply in_map.
Qed.

(** X10.  For [n >= 0], sampling distractors from a pool without duplicates
    never raises and returns pairwise different entries of the pool, [n] of
    them or all the candidates when there are fewer.  When at least [n]
    entries of the pool do not contain the key, none of the entries
    returned contains it. *)
Theorem sample_distractors_distinct :
  forall (R : Type) (RS : RandomSource R) (pool : list str) (key : str)
         (n : Z) (r : R),
    (0 <= n)%Z -> NoDup pool ->
    exists ds r',
      sample_distractors pool key n r = Ok (ds, r')
      /\ NoDup ds
      /\ (forall d, In d ds -> In d pool)
      /\ length ds
         = Nat.min (Z.to_nat n) (length (distractor_candidates pool key n))
      /\ ((n <= len (without_key pool key))%Z ->
          forall d, In d ds -> contains key d = false).
Proof.
  intros R RS pool key n r Hn Hp. apply returns_Ok.
  apply returns_sample_distractors; [assumption|]. intros ds r' L T.
  assert (Hc : NoDup (distractor_candidates pool key n)).
  { unfold distractor_candidates. destruct (len _ <? n)%Z; [assumption|].
    now apply NoDup_filter. }
  repeat split; try assumption.
  - exact (taken_from_NoDup Hc T).
  - intros d Hd. apply (@distractor_candidates_incl pool key n).
    now apply (taken_from_incl T).
  - intros Hk d Hd. apply (taken_from_incl T) in Hd.
    unfold distractor_candidates, without_key in *.
    destruct (Z.ltb_spec (len (filter (fun p => negb (contains key p)) pool))
                n); [lia|].
    apply filter_In in Hd as [_ Hd]. now apply negb_true_iff.
Qed.

Lemma sample_distractors_distinct_witness :
  exists ds r',
    sample_distractors (map distractor [u "应当"; u "禁止"; u "可以"])
      (u "应当") 2%Z [1]
    = Ok (ds, r')
    /\ NoDup ds
    /\ forall d, In d ds -> contains (u "应当") d = false.
Proof.
  destruct (@sample_distractors_distinct tape tape_source
              (map distractor [u "应当"; u "禁止"; u "可以"])
              (u "应当") 2%Z [1])
    as (ds & r' & E & N & _ & _ & K).
  - lia.
  - repeat constructor; cbn [In]; intros H;
      repeat (destruct H as [H|H]; [discriminate H|]); contradiction.
  - exists ds, r'. repeat split; try assumption. apply K. vm_compute.
    discriminate.
Defined.

(* ===================================================================== *)
(** ** The shape of the generated questions                               *)
(* ===================================================================== *)

Section Shapes.

Context {R : Type} {RS : RandomSource R}.
Variable tokens : str -> option (list str).
Variable count : Z.
Variable all : list Article.

Lemma NoDup_app_intro {A} (a b : list A) :
  NoDup a -> NoDup b -> (forall x, In x a -> ~ In x b) -> NoDup (a ++ b).
Proof.
  induction 1 as [|x a Hx _ IH]; intros Hb Hd; [exact Hb|].
  cbn [app]. constructor.
  - intros H. apply in_app_or in H as [H|H]; [contradiction|].
    apply (Hd x); [now left | assumption].
  - apply IH; [assumption|]. intros y Hy. apply Hd. now right.
Qed.

Lemma NoDup_snoc {A} (l : list A) (x : A) :
  NoDup l -> ~ In x l -> NoDup (l ++ [x]).
Proof.
  intros Hl Hx. apply NoDup_app_intro; [assumption | repeat constructor; easy|].
  intros y Hy [<-|[]]. contradiction.
Qed.

Lemma len_snoc {A} (l : list A) (x : A) :
  (count <=? len l)%Z = false -> (len l <= Z.max 0 count)%Z ->
  (len (l ++ [x]) <= Z.max 0 count)%Z.
Proof.
  intros H _. apply Z.leb_gt in H. unfold len in *. rewrite length_app.
  simpl. lia.
Qed.

Lemma candidates_NoDup (key : str) (n : Z) :
  NoDup (distractor_candidates (build_distractor_pool tokens all) key n).
Proof.
  unfold distractor_candidates. destruct (len _ <? n)%Z.
  - apply fromkeys_NoDup.
  - apply NoDup_filter, fromkeys_NoDup.
Qed.

Lemma multiple_correct_injective (a b : str) :
  multiple_correct a = multiple_correct b -> a = b.
Proof.
  unfold multiple_correct. intros E. apply app_inv_head in E.
  now apply app_inv_tail in E.
Qed.

Lemma NoDup_map_injective {A B} (f : A -> B) (l : list A) :
  (forall a b, f a = f b -> a = b) -> NoDup l -> NoDup (map f l).
Proof.
  intros Hf. induction 1 as [|x l Hx _ IH]; cbn [map]; constructor;
    [|exact IH].
  intros H. apply in_map_iff in H as (y & E & Hy). apply Hf in E.
  now subst.
Qed.

Lemma sc_articles_shape (arts : list Article) :
  forall (results : list Question) (seen_q : list str) (r : R),
    incl arts all ->
    (len results <= Z.max 0 count)%Z ->
    Forall (fun q => sourced all T_single q /\ distinct_options 1 4 q)
      results ->
    NoDup (map question results) ->
    (forall q, In q results -> In (question q) seen_q) ->
    returns
      (sc_articles tokens (build_distractor_pool tokens all) count arts
         results seen_q) r
      (fun results' _ =>
         (len results' <= Z.max 0 count)%Z
         /\ Forall (fun q => sourced all T_single q /\ distinct_options 1 4 q)
              results'
         /\ NoDup (map question results')).
Proof.
  induction arts as [|art rest IH];
    intros results seen_q r Hincl Hlen Hres Hnd Hseen; cbn [sc_articles].
  - now apply returns_ret.
  - assert (Hrest : incl rest all) by (intros a Ha; apply Hincl; now right).
    assert (Hart : In art all) by (apply Hincl; now left).
    destruct (count <=? len results)%Z eqn:Ec; [now apply returns_ret|].
    destruct (tp.pick_keywords (extract tokens (text art)) 5)
      as [|kw0 kws'] eqn:Ek; cbn [tp.nonempty negb]; [now apply IH|].
    apply returns_bind. apply returns_pick_stem. intros stem r1.
    apply returns_bind. apply returns_choice; [discriminate|].
    intros key r2 _.
    set (pool := build_distractor_pool tokens all).
    apply returns_bind. apply returns_sample_distractors; [lia|].
    intros ds r3 Lds Tds.
    apply returns_bind. apply returns_shuffle. intros opts r4 Hperm.
    assert (Hc : In (single_correct key) opts).
    { apply (Permutation_in _ Hperm). now left. }
    destruct (index_In _ _ Hc) as (ans & Ei & Hans). rewrite Ei.
    apply returns_bind. apply returns_ret.
    destruct (mem _ seen_q) eqn:Em; [now apply IH|].
    apply IH; try assumption.
    + now apply len_snoc.
    + apply Forall_app. split; [assumption|]. constructor; [|constructor].
      split; [split; [reflexivity | now exists art]|].
      exists opts. cbn [options]. split; [reflexivity|]. split.
      * apply (Permutation_NoDup Hperm). constructor.
        -- intros Hin. apply (taken_from_incl Tds) in Hin.
           apply distractor_candidates_incl in Hin.
           apply pool_distractor in Hin as (kw & E).
           now apply (single_correct_not_distractor E).
        -- apply (taken_from_NoDup (candidates_NoDup key 3) Tds).
      * rewrite <- (Permutation_length Hperm). cbn [length].
        change (Z.to_nat 3) with 3 in Lds. lia.
    + rewrite map_app. cbn [map question]. apply NoDup_snoc; [assumption|].
      intros Hin. apply in_map_iff in Hin as (q & Eq & Hq).
      apply Hseen in Hq. rewrite Eq in Hq. apply mem_not_In in Em.
      contradiction.
    + intros q Hq. apply in_app_or in Hq as [Hq|[<-|[]]].
      * right. now apply Hseen.
      * now left.
Qed.

Lemma pool_not_empty (art : Article) (kw : str) (kws : list str) :
  In art all ->
  tp.pick_keywords (extract tokens (text art)) 6 = kw :: kws ->
  build_distractor_pool tokens all <> [].
Proof.
  intros Ha Ek E.
  assert (H : In (distractor kw) (build_distractor_pool tokens all)).
  { apply pool_keyword with art; [assumption|].
    unfold tp.pick_keywords in *.
    destruct (fromkeys _) as [|k ks]; [discriminate|].
    cbn [firstn] in *. injection Ek as -> _. now left. }
  rewrite E in H. contradiction.
Qed.

Lemma mc_articles_shape (arts : list Article) :
  forall (results : list Question) (r : R),
    incl arts all ->
    (len results <= Z.max 0 count)%Z ->
    Forall (fun q => sourced all T_multiple q /\ distinct_options 3 5 q)
      results ->
    returns
      (mc_articles tokens (build_distractor_pool tokens all) count arts results)
      r
      (fun results' _ =>
         (len results' <= Z.max 0 count)%Z
         /\ Forall (fun q => sourced all T_multiple q
                             /\ distinct_options 3 5 q) results').
Proof.
  induction arts as [|art rest IH]; intros results r Hincl Hlen Hres;
    cbn [mc_articles].
  - now apply returns_ret.
  - assert (Hrest : incl rest all) by (intros a Ha; apply Hincl; now right).
    assert (Hart : In art all) by (apply Hincl; now left).
    destruct (count <=? len results)%Z eqn:Ec; [now apply returns_ret|].
    destruct (tp.pick_keywords (extract tokens (text art)) 6)
      as [|kw0 kws'] eqn:Ek.
    { cbn. now apply IH. }
    rewrite <- Ek.
    set (kws := tp.pick_keywords (extract tokens (text art)) 6).
    destruct (Z.ltb_spec (len kws) 2) as [Hk|Hk]; [now apply IH|].
    apply returns_bind. apply returns_pick_stem. intros stem r1.
    apply returns_bind. apply returns_randint; [lia|]. intros nc r2 Hnc.
    apply returns_bind. apply returns_sample; [lia|]. intros chosen r3 Lc Tc.
    set (pool := build_distractor_pool tokens all).
    apply returns_bind. apply returns_sample_distractors; [lia|].
    intros ds r4 Lds Tds.
    apply returns_bind. apply returns_shuffle. intros opts r5 Hperm.
    apply IH; try assumption; [now apply len_snoc|].
    apply Forall_app. split; [assumption|]. constructor; [|constructor].
    split; [split; [reflexivity | now exists art]|].
    exists opts. cbn [options]. split; [reflexivity|]. split.
    + apply (Permutation_NoDup Hperm). apply NoDup_app_intro.
      * apply NoDup_map_injective; [apply multiple_correct_injective|].
        apply (taken_from_NoDup (pick_keywords_NoDup _ _) Tc).
      * apply (taken_from_NoDup (candidates_NoDup _ _) Tds).
      * intros x Hx Hd. apply in_map_iff in Hx as (kw & E & _).
        apply (taken_from_incl Tds) in Hd.
        apply distractor_candidates_incl in Hd.
        apply pool_distractor in Hd as (kw' & ->).
        now apply (multiple_correct_not_distractor E).
    + rewrite <- (Permutation_length Hperm), length_app, length_map.
      assert (Hp : build_distractor_pool tokens all <> [])
        by (now apply pool_not_empty with art kw0 kws').
      assert (Hcand : 1 <= length (distractor_candidates pool
                                     (join BAR kws) (5 - nc))).
      { unfold distractor_candidates.
        destruct (Z.ltb_spec (len (filter (fun p => negb (contains
                    (join BAR kws) p)) pool)) (5 - nc)) as [Hl|Hl].
        - fold pool in Hp. destruct pool; [contradiction | simpl; lia].
        - unfold len in Hl. lia. }
      lia.
Qed.

Lemma fb_articles_shape (arts : list Article) :
  forall (results : list Question) (r : R),
    incl arts all ->
    (len results <= Z.max 0 count)%Z ->
    Forall (fun q => sourced all T_fill q /\ options q = None) results ->
    returns (fb_articles tokens count arts results) r
      (fun results' _ =>
         (len results' <= Z.max 0 count)%Z
         /\ Forall (fun q => sourced all T_fill q /\ options q = None)
              results').
Proof.
  induction arts as [|art rest IH]; intros results r Hincl Hlen Hres;
    cbn [fb_articles].
  - now apply returns_ret.
  - assert (Hrest : incl rest all) by (intros a Ha; apply Hincl; now right).
    assert (Hart : In art all) by (apply Hincl; now left).
    destruct (count <=? len results)%Z eqn:Ec; [now apply returns_ret|].
    destruct (tp.terms (extract tokens (text art))
              ++ tp.numbers (extract tokens (text art)))
      as [|c0 cands] eqn:E; cbn [tp.nonempty negb]; [now apply IH|].
    apply returns_bind. apply returns_choice; [discriminate|].
    intros target r1 _.
    apply returns_bind. apply returns_pick_stem. intros sent0 r2.
    apply IH; try assumption; [now apply len_snoc|].
    apply Forall_app. split; [assumption|]. constructor; [|constructor].
    split; [split; [reflexivity | now exists art] | reflexivity].
Qed.

End Shapes.

(** X11.  The single-choice, multiple-choice and fill-in generators never
    raise, return at most [count] questions (none for a count of zero or
    less), and every question has the type of its generator and one of the
    given articles as its source. *)
Theorem generators_within_count :
  forall (R : Type) (RS : RandomSource R) (tokens : str -> option (list str))
         (arts : list Article) (count : Z) (r : R),
    (exists results r',
        make_single_choice tokens arts count r = Ok (results, r')
        /\ (len results <= Z.max 0 count)%Z
        /\ Forall (sourced arts T_single) results)
    /\ (exists results r',
          make_multiple_choice tokens arts count r = Ok (results, r')
          /\ (len results <= Z.max 0 count)%Z
          /\ Forall (sourced arts T_multiple) results)
    /\ (exists results r',
          make_fill_blank tokens arts count r = Ok (results, r')
          /\ (len results <= Z.max 0 count)%Z
          /\ Forall (sourced arts T_fill) results).
Proof.
  intros R RS tokens arts count r. split; [|split]; apply returns_Ok.
  - unfold make_single_choice. eapply returns_weaken.
    + apply sc_articles_shape with (all := arts);
        [apply incl_refl | cbn; lia | constructor | constructor | intros q []].
    + intros res r' (H1 & H2 & _). split; [assumption|].
      eapply Forall_impl; [|exact H2]. now intros q [? _].
  - unfold make_multiple_choice. eapply returns_weaken.
    + apply mc_articles_shape with (all := arts);
        [apply incl_refl | cbn; lia | constructor].
    + intros res r' (H1 & H2). split; [assumption|].
      eapply Forall_impl; [|exact H2]. now intros q [? _].
  - unfold make_fill_blank. eapply returns_weaken.
    + apply fb_articles_shape with (all := arts);
        [apply incl_refl | cbn; lia | constructor].
    + intros res r' (H1 & H2). split; [assumption|].
      eapply Forall_impl; [|exact H2]. now intros q [? _].
Qed.

(** X12.  The single-choice questions of one run have pairwise different
    question texts, and the options of each question are pairwise
    different. *)
Theorem make_single_choice_no_repeats :
  forall (R : Type) (RS : RandomSource R) (tokens : str -> option (list str))
         (arts : list Article) (count : Z) (r : R),
  exists results r',
    make_single_choice tokens arts count r = Ok (results, r')
    /\ NoDup (map question results)
    /\ Forall (distinct_options 1 4) results.
Proof.
  intros R RS tokens arts count r. apply returns_Ok.
  unfold make_single_choice. eapply returns_weaken.
  - apply sc_articles_shape with (all := arts);
      [apply incl_refl | cbn; lia | constructor | constructor | intros q []].
  - intros res r' (_ & H2 & H3). split; [assumption|].
    eapply Forall_impl; [|exact H2]. now intros q [_ ?].
Qed.

(** X13.  Every multiple-choice question has three to five options,
    pairwise different. *)
Theorem make_multiple_choice_options :
  forall (R : Type) (RS : RandomSource R) (tokens : str -> option (list str))
         (arts : list Article) (count : Z) (r : R),
  exists results r',
    make_multiple_choice tokens arts count r = Ok (results, r')
    /\ Forall (distinct_options 3 5) results.
Proof.
  intros R RS tokens arts count r. apply returns_Ok.
  unfold make_multiple_choice. eapply returns_weaken.
  - apply mc_articles_shape with (all := arts);
      [apply incl_refl | cbn; lia | constructor].
  - intros res r' (_ & H2).
    eapply Forall_impl; [|exact H2]. now intros q [_ ?].
Qed.

(* ===================================================================== *)
(** ** assemble_exam on a non-empty list                                  *)
(* ===================================================================== *)

Section AssembleReturns.

Context {R : Type} {RS : RandomSource R}.
Context {G : Type} {GS : RandomSource G}.
Variable tokens : str -> option (list str).

Lemma drawn_incl (weights_cfg : Weights) (articles : list Article)
    (xs : list float) (sample : list Article) :
  Forall2 (drawn weights_cfg articles) xs sample -> incl sample articles.
Proof.
  induction 1 as [|x a xs sample Ha _ IH]; intros b; [intros []|].
  intros [<-|Hb]; [now apply nth_error_In in Ha | now apply IH].
Qed.

Lemma all_negatable_incl (arts sub : list Article) :
  all_negatable tokens arts = true -> incl sub arts ->
  all_negatable tokens sub = true.
Proof.
  unfold all_negatable. rewrite !forallb_forall. intros H Hs a Ha.
  apply H. now apply Hs.
Qed.

Lemma sample_articles_returns (articles : list Article) (cfg : Config)
    (g : G) :
  articles <> [] ->
  usable_total (get (weights cfg) no_weights) articles = true ->
  exists tf sc mc fb g',
    sample_articles articles cfg g = Ok ((tf, sc, mc, fb), g')
    /\ incl tf articles.
Proof.
  intros Hne Hu. unfold sample_articles, bind.
  destruct (@weighted_sample_returns G GS articles
              (get (weights cfg) no_weights)
              (get (true_false (get (counts cfg) no_counts)) 0 * 2)%Z g
              Hne Hu)
    as (tf & E & _ & D).
  cbv zeta. rewrite E. apply drawn_incl in D.
  repeat match goal with
         | |- context [weighted_sample articles ?w ?k ?s] =>
             let x := fresh "x" in
             let E := fresh "E" in
             destruct (@weighted_sample_returns G GS articles w k s Hne Hu)
               as (x & E & _);
             rewrite E
         end.
  now eexists _, _, _, _, _.
Qed.

Lemma tf_returns (arts : list Article) (count : Z) (r : R)
    (P : list Question -> R -> Prop) :
  all_negatable tokens arts = true ->
  (forall res r', (len res <= Z.max 0 count)%Z -> P res r') ->
  returns (make_true_false tokens arts count) r P.
Proof.
  intros Hn H.
  apply (@ends_never _ _ _ _ _ (negation_raised (sentence_of tokens arts)));
    [|intros e; now apply all_negatable_never].
  eapply ends_weaken; [apply make_true_false_ends| |intros e He; exact He].
  intros res r' [Hl _]. now apply H.
Qed.

Lemma generate_questions_returns (articles : list Article) (cfg : Config)
    (samples : list Article * list Article * list Article * list Article)
    (r : R) :
  all_negatable tokens (fst (fst (fst samples))) = true ->
  returns (generate_questions tokens articles cfg samples) r
    (fun exam _ => within_counts cfg exam).
Proof.
  unfold generate_questions. destruct samples as [[[tf sc] mc] fb].
  cbn [fst]. intros Hn.
  apply returns_bind. apply tf_returns; [assumption|]. intros q1 r1 H1.
  apply returns_bind. unfold make_single_choice. eapply returns_weaken.
  { apply sc_articles_shape with (all := sc);
      [apply incl_refl | cbn; lia | constructor | constructor | intros q []]. }
  intros q2 r2 (H2 & _). apply returns_bind.
  unfold make_multiple_choice. eapply returns_weaken.
  { apply mc_articles_shape with (all := mc);
      [apply incl_refl | cbn; lia | constructor]. }
  intros q3 r3 (H3 & _). apply returns_bind.
  unfold make_fill_blank. eapply returns_weaken.
  { apply fb_articles_shape with (all := fb);
      [apply incl_refl | cbn; lia | constructor]. }
  intros q4 r4 (H4 & _). apply returns_ret.
  unfold within_counts. cbn [exam_true_false exam_single exam_multiple
                             exam_fill exam_short].
  repeat (split; [assumption|]).
  unfold make_short_answers. rewrite sa_articles_spec.
  unfold len. cbn [app length]. rewrite length_map, length_firstn. lia.
Qed.

Lemma assemble_exam_returns (articles : list Article) (cfg : Config)
    (g : G) (r : R) :
  articles <> [] ->
  usable_total (get (weights cfg) no_weights) articles = true ->
  important_not_null (get (weights cfg) no_weights) = true ->
  all_negatable tokens articles = true ->
  exists exam s',
    assemble_exam tokens articles cfg (g, r) = Ok (exam, s')
    /\ within_counts cfg exam.
Proof.
  intros Hne Hu Hi Hn. rewrite assemble_exam_phases.
  destruct (sample_articles_returns cfg g Hne Hu)
    as (tf & sc & mc & fb & g' & -> & Htf).
  destruct (important_among_not_null articles _ Hi) as (l & ->).
  pose proof (@generate_questions_returns articles cfg (tf, sc, mc, fb) r
                (all_negatable_incl Hn Htf)) as H.
  unfold returns in H.
  destruct (generate_questions tokens articles cfg (tf, sc, mc, fb) r)
    as [[exam r']|e]; [|contradiction].
  now exists exam, (g', r').
Qed.

(** The list of important articles is [null]: the samplings pass, and the
    selection of the important articles raises. *)
Lemma assemble_exam_null (articles : list Article) (cfg : Config)
    (g : G) (r : R) :
  articles <> [] ->
  usable_total (get (weights cfg) no_weights) articles = true ->
  important_not_null (get (weights cfg) no_weights) = false ->
  assemble_exam tokens articles cfg (g, r) = Raise TypeError.
Proof.
  intros Hne Hu Hi. rewrite assemble_exam_phases.
  destruct (sample_articles_returns cfg g Hne Hu)
    as (tf & sc & mc & fb & g' & -> & _).
  set (w := get (weights cfg) no_weights) in *.
  unfold important_not_null in Hi. unfold important_among.
  destruct (important_articles w) as [[|imp]|]; try discriminate.
  cbn [get]. now destruct articles.
Qed.

End AssembleReturns.

(** X14.  [assemble_exam] returns an exam, and does not raise, on a
    non-empty article list when the total of the weights, computed in
    floats, is greater than zero and finite, the list of important articles
    is not [null], and every sentence of the articles can be negated (none
    has digits beyond the interpreter's limit); each of the five lists of
    the exam has at most as many questions as the configuration counts for
    its type.  With a total that passes and a list of important articles
    that is [null], it raises [TypeError]. *)
Theorem assemble_exam_returns_within_counts :
  forall (R : Type) (RS : RandomSource R) (G : Type) (GS : RandomSource G)
         (tokens : str -> option (list str)) (articles : list Article)
         (cfg : Config) (g : G) (r : R),
    articles <> [] ->
    usable_total (get (weights cfg) no_weights) articles = true ->
    (important_not_null (get (weights cfg) no_weights) = true ->
     all_negatable tokens articles = true ->
     exists exam s',
       assemble_exam tokens articles cfg (g, r) = Ok (exam, s')
       /\ within_counts cfg exam)
    /\ (important_not_null (get (weights cfg) no_weights) = false ->
        assemble_exam tokens articles cfg (g, r) = Raise TypeError).
Proof.
  intros R RS G GS tokens articles cfg g r Hne Hu. split.
  - intros Hi Hn. now apply assemble_exam_returns.
  - intros Hi. now apply assemble_exam_null.
Qed.

Lemma assemble_exam_returns_within_counts_witness :
  (exists exam s',
      assemble_exam no_tokens [article_1; article_2] one_of_each
        ([0; 0; 0; 0; 0; 0; 0; 0], [50; 0; 0; 0; 0; 0; 0; 0; 0; 0; 0; 0])
      = Ok (exam, s')
      /\ within_counts one_of_each exam)
  /\ assemble_exam no_tokens [article_1; article_2]
       {| counts := None;
          weights := Some {| important_articles := Some Null;
                             important_weight := None;
                             default := None |} |}
       ([0], [0])
     = Raise TypeError.
Proof.
  split.
  - apply (@assemble_exam_returns_within_counts tape tape_source tape
             tape_source no_tokens [article_1; article_2] one_of_each);
      [discriminate | reflexivity ..].
  - apply (@assemble_exam_returns_within_counts tape tape_source tape
             tape_source no_tokens [article_1; article_2]);
      [discriminate | reflexivity ..].
Defined.

(** Eight articles of weight 0.7 and a ninth of weight -5.6: the exact sum
    of the weights is zero, the sum in floats is [2 ** -50] (about
    8.9e-16), and the call returns. *)
Example weighted_sample_tiny_total :
  total_weight heavy_last (repeat article_2 8 ++ [article_1])
  = binary_normalize 53 1024 1 (-50) false
  /\ weighted_sample (repeat article_2 8 ++ [article_1]) heavy_last 1%Z [0]
     = Ok ([article_2], []).
Proof. split; vm_compute; reflexivity. Qed.

(** X15.  On a non-empty article list whose weights have a total, computed
    in floats, that is not greater than zero or is not finite (for instance
    a default weight of 0 and no important article, or two weights of
    1e308), the weighted sampling raises [ValueError], and so does
    [assemble_exam]. *)
Theorem assemble_exam_rejects_zero_weights :
  forall (R : Type) (RS : RandomSource R) (G : Type) (GS : RandomSource G)
         (tokens : str -> option (list str)) (articles : list Article)
         (cfg : Config) (g : G) (r : R),
    articles <> [] ->
    usable_total (get (weights cfg) no_weights) articles = false ->
    (forall k, weighted_sample articles (get (weights cfg) no_weights) k g
               = Raise ValueError)
    /\ assemble_exam tokens articles cfg (g, r) = Raise ValueError.
Proof.
  intros R RS G GS tokens articles cfg g r Hne Hle. split.
  - intros k. now apply weighted_sample_raises.
  - unfold assemble_exam, bind, on_global. cbn [fst].
    now rewrite weighted_sample_raises.
Qed.

Lemma assemble_exam_rejects_zero_weights_witness :
  assemble_exam no_tokens [article_1; article_2]
    {| counts := None;
       weights := Some {| important_articles := None;
                          important_weight := None;
                          default := Some float_zero |} |}
    ([0], [0])
  = Raise ValueError
  /\ assemble_exam no_tokens [article_1; article_2]
       {| counts := None;
          weights := Some {| important_articles := None;
                             important_weight := None;
                             default := Some (float_of_Z (10 ^ 308)) |} |}
       ([0], [0])
     = Raise ValueError.
Proof.
  split;
    apply (@assemble_exam_rejects_zero_weights tape tape_source tape
             tape_source);
    [discriminate | reflexivity | discriminate | reflexivity].
Defined.

(** X16.  The entry point never hands an empty list to [assemble_exam]:
    whatever was parsed, the exam is assembled without an exception, within
    the configured counts, when the total of the weights of the articles
    handed over, computed in floats, is greater than zero and finite, the
    list of important articles is not [null], and every sentence of these
    articles can be negated. *)
Theorem main_exam_of_returns :
  forall (R : Type) (RS : RandomSource R) (G : Type) (GS : RandomSource G)
         (tokens : str -> option (list str)) (parsed : list Article)
         (cfg : Config) (g : G) (r : R),
    main.articles_for_exam parsed <> []
    /\ (usable_total (get (weights cfg) no_weights)
          (main.articles_for_exam parsed) = true ->
        important_not_null (get (weights cfg) no_weights) = true ->
        all_negatable tokens (main.articles_for_exam parsed) = true ->
        exists exam s',
          main.exam_of tokens parsed cfg (g, r) = Ok (exam, s')
          /\ within_counts cfg exam).
Proof.
  intros R RS G GS tokens parsed cfg g r.
  assert (Hne : main.articles_for_exam parsed <> []).
  { unfold main.articles_for_exam. now destruct parsed. }
  split; [assumption|]. intros Hu Hi Hn. unfold main.exam_of.
  now apply assemble_exam_returns.
Qed.

Lemma main_exam_of_returns_witness :
  exists exam s',
    main.exam_of no_tokens [] one_of_each
      ([0; 0; 0; 0; 0; 0; 0; 0], [50; 0; 0; 0; 0; 0; 0; 0; 0; 0; 0; 0])
    = Ok (exam, s')
    /\ within_counts one_of_each exam.
Proof.
  apply (proj2 (@main_exam_of_returns tape tape_source tape tape_source
                  no_tokens [] one_of_each
                  [0; 0; 0; 0; 0; 0; 0; 0]
                  [50; 0; 0; 0; 0; 0; 0; 0; 0; 0; 0; 0]));
    reflexivity.
Defined.

(* ===================================================================== *)
(** ** The candidates of the short-answer questions                       *)
(* ===================================================================== *)

Section ShortCandidates.

Lemma distinct_articles_covered (b : list Article) :
  forall taken : list str,
    (forall y, In y b -> In (article_no y) taken) ->
    distinct_articles taken b = [].
Proof.
  induction b as [|y b IH]; intros taken H; [reflexivity|].
  cbn [distinct_articles].
  assert (E : mem (article_no y) taken = true).
  { apply mem_In. apply H. now left. }
  rewrite E. apply IH. intros z Hz. apply H. now right.
Qed.

Lemma distinct_articles_app_covered (a : list Article) :
  forall (taken : list str) (b : list Article),
    NoDup (map article_no a) ->
    (forall x, In x a -> ~ In (article_no x) taken) ->
    (forall y, In y b -> In (article_no y) (map article_no a ++ taken)) ->
    distinct_articles taken (a ++ b) = a.
Proof.
  induction a as [|x a IH]; intros taken b Hn Ht Hb.
  - now apply distinct_articles_covered.
  - cbn [app distinct_articles]. cbn [map] in Hn.
    inversion Hn as [|? ? Hx Hn']; subst.
    assert (E : mem (article_no x) taken = false).
    { apply mem_not_In. apply Ht. now left. }
    rewrite E. f_equal. apply IH; [assumption| |].
    + intros z Hz [Hin|Hin].
      * apply Hx. rewrite Hin. now apply in_map.
      * apply (Ht z); [now right | assumption].
    + intros y Hy. specialize (Hb y Hy). cbn [map app] in Hb.
      apply in_or_app. destruct Hb as [Hb|Hb]; [right; now left|].
      apply in_app_or in Hb as [Hb|Hb]; [now left | right; now right].
Qed.

Lemma filter_all {A} (f : A -> bool) (l : list A) :
  Forall (fun a => f a = true) l -> filter f l = l.
Proof.
  induction 1 as [|x l Hx _ IH]; [reflexivity|]. cbn [filter].
  now rewrite Hx, IH.
Qed.

Lemma filter_none {A} (f : A -> bool) (l : list A) :
  Forall (fun a => f a = false) l -> filter f l = [].
Proof.
  induction 1 as [|x l Hx _ IH]; [reflexivity|]. cbn [filter].
  now rewrite Hx.
Qed.

End ShortCandidates.

(** X17.  The candidates of the short-answer questions are padded before
    the articles are deduplicated.  When the important articles, with
    pairwise different numbers, stand first in the list and are fewer than
    the [count] asked for, but at least half of it, the padding only
    repeats them: the exam gets one short-answer question per important
    article and no more, however many other articles there are. *)
Theorem short_answers_padding_repeats :
  forall (cfg : Config) (imp rest : list Article) (count : Z),
    Forall (fun a => important cfg a = true) imp ->
    Forall (fun a => important cfg a = false) rest ->
    NoDup (map article_no imp) ->
    get (short_answer (get (counts cfg) no_counts)) 0%Z = count ->
    (len imp < count <= 2 * len imp)%Z ->
    make_short_answers (short_candidates (imp ++ rest) cfg) count
    = map short_question imp.
Proof.
  intros cfg imp rest count Hi Hr Hn Ec Hc.
  unfold short_candidates. fold (important cfg). rewrite Ec.
  rewrite filter_app, (filter_all _ Hi), (filter_none _ Hr), app_nil_r.
  destruct (Z.ltb_spec (len imp) count) as [_|]; [|lia].
  unfold slice_to. destruct (Z.leb_spec 0 count) as [_|]; [|unfold len in *; lia].
  unfold len in Hc.
  rewrite firstn_app, (firstn_all2 imp) by lia.
  rewrite firstn_app.
  replace (Z.to_nat count - length imp - length imp) with 0 by lia.
  rewrite firstn_0, app_nil_r.
  unfold make_short_answers. rewrite sa_articles_spec. cbn [app len length].
  rewrite Z.sub_0_r, distinct_articles_app_covered.
  - now rewrite firstn_all2 by lia.
  - assumption.
  - intros x _ [].
  - intros y Hy. apply firstn_In in Hy. rewrite app_nil_r.
    now apply in_map.
Qed.

Lemma short_answers_padding_repeats_witness :
  make_short_answers
    (short_candidates ([article_1] ++ [article_2])
       {| counts := Some {| true_false := None; single_choice := None;
                            multiple_choice := None; fill_blank := None;
                            short_answer := Some 2%Z |};
          weights := Some {| important_articles := Some (Value [u "第1条"]);
                             important_weight := None;
                             default := None |} |}) 2%Z
  = map short_question [article_1].
Proof.
  apply short_answers_padding_repeats.
  - repeat constructor.
  - repeat constructor.
  - repeat constructor. intros [].
  - reflexivity.
  - vm_compute. split; [reflexivity | discriminate].
Defined.

(* ===================================================================== *)
(** ** latex_escape                                                       *)
(* ===================================================================== *)

Section LatexEscape.

Import lg.

(** The cases of [repl]: one of the ten special characters, or none. *)
Ltac repl_cases ch :=
  unfold escape_char, repl;
  destruct (N.eqb_spec ch 0x5C); [|
  destruct (N.eqb_spec ch 0x26); [|
  destruct (N.eqb_spec ch 0x25); [|
  destruct (N.eqb_spec ch 0x24); [|
  destruct (N.eqb_spec ch 0x23); [|
  destruct (N.eqb_spec ch 0x5F); [|
  destruct (N.eqb_spec ch 0x7B); [|
  destruct (N.eqb_spec ch 0x7D); [|
  destruct (N.eqb_spec ch 0x7E); [|
  destruct (N.eqb_spec ch 0x5E)]]]]]]]]].

Lemma escape_char_prefix_free (a b : char) (x y : str) :
  escape_char a ++ x = escape_char b ++ y -> a = b.
Proof.
  repl_cases a; repl_cases b; cbn; intros H; congruence.
Qed.

Lemma escape_char_not_nil (a : char) : escape_char a <> [].
Proof. repl_cases a; discriminate. Qed.

Lemma latex_escape_injective (s : str) :
  forall t, latex_escape s = latex_escape t -> s = t.
Proof.
  induction s as [|a s IH]; intros [|b t]; cbn [latex_escape flat_map].
  - reflexivity.
  - intros H. symmetry in H. apply app_eq_nil in H as [H _].
    now apply escape_char_not_nil in H.
  - intros H. apply app_eq_nil in H as [H _].
    now apply escape_char_not_nil in H.
  - intros H. pose proof (escape_char_prefix_free _ _ _ _ H) as ->.
    apply app_inv_head in H. f_equal. now apply IH.
Qed.

Lemma guarded_latex_escape (s : str) :
  guarded_from false (latex_escape s) = true.
Proof.
  induction s as [|a s IH]; [reflexivity|].
  cbn [latex_escape flat_map]. fold (latex_escape s).
  repl_cases a; subst; try exact IH.
  cbn [app guarded_from]. unfold hot, BACKSLASH.
  repeat match goal with
         | H : a <> _ |- _ => apply N.eqb_neq in H; rewrite ?H; clear H
         end.
  exact IH.
Qed.

Lemma guarded_from_spec (s : str) :
  forall (prev : bool) (pre : str) (c : char) (post : str),
    guarded_from prev s = true ->
    s = pre ++ c :: post -> hot c = true ->
    (pre = [] /\ prev = true) \/ exists pre', pre = pre' ++ [BACKSLASH].
Proof.
  induction s as [|x s IH]; intros prev pre c post G E Hc.
  - now destruct pre.
  - cbn [guarded_from] in G. apply andb_true_iff in G as [G1 G2].
    destruct pre as [|p pre]; injection E as <- E.
    + left. rewrite Hc in G1. now split.
    + right. destruct (IH _ _ _ _ G2 E Hc) as [[-> Hx]|(pre' & ->)].
      * apply N.eqb_eq in Hx. subst. now exists [].
      * now exists (x :: pre').
Qed.

Lemma no_tilde_caret (s : str) (c : char) :
  In c (latex_escape s) -> c <> 0x7E%N /\ c <> 0x5E%N.
Proof.
  induction s as [|a s IH]; [intros []|].
  cbn [latex_escape flat_map]. fold (latex_escape s). intros H.
  apply in_app_or in H as [H|H]; [|now apply IH].
  revert H. repl_cases a; cbn; intros H;
    repeat (destruct H as [<-|H]; [split; congruence|]); contradiction.
Qed.

Lemma latex_escape_plain (s : str) :
  Forall (fun c => repl c = None) s -> latex_escape s = s.
Proof.
  induction 1 as [|c s Hc _ IH]; [reflexivity|].
  cbn [latex_escape flat_map]. fold (latex_escape s).
  unfold escape_char. now rewrite Hc, IH.
Qed.

Lemma no_backslash_r_latex_escape (s : str) :
  no_backslash_r false (latex_escape s) = true.
Proof.
  induction s as [|a s IH]; [reflexivity|].
  cbn [latex_escape flat_map]. fold (latex_escape s).
  repl_cases a; subst; try exact IH.
  cbn [app no_backslash_r andb negb]. unfold BACKSLASH.
  repeat match goal with
         | H : a <> _ |- _ => apply N.eqb_neq in H; rewrite ?H; clear H
         end.
  exact IH.
Qed.

Lemma no_backslash_r_spec (s : str) :
  forall (prev : bool) (pre post : str),
    no_backslash_r prev s = true ->
    s <> pre ++ BACKSLASH :: 0x72%N :: post.
Proof.
  induction s as [|x s IH]; intros prev pre post G E.
  - now destruct pre.
  - cbn [no_backslash_r] in G. apply andb_true_iff in G as [_ G2].
    destruct pre as [|p pre]; injection E as -> E.
    + destruct s as [|y s]; [discriminate|]. injection E as -> E.
      cbn [no_backslash_r] in G2. now rewrite N.eqb_refl in G2.
    + exact (IH _ pre post G2 E).
Qed.

Lemma format_fi (x : str) : format lit_fi [x] = Some lit_fi.
Proof. reflexivity. Qed.

Lemma format_question (x : str) :
  format lit_question [x] = Some (u "\question " ++ x).
Proof. cbn. now rewrite app_nil_r. Qed.

End LatexEscape.

(** X18.  [latex_escape] loses nothing: two different texts have different
    escaped forms. *)
Theorem latex_escape_lossless :
  forall s t : str, lg.latex_escape s = lg.latex_escape t -> s = t.
Proof. intros s t. apply latex_escape_injective. Qed.

Lemma latex_escape_lossless_witness :
  lg.latex_escape (u "a_b") = u "a\_b" /\ u "a_b" = u "a_b".
Proof. split; [reflexivity | apply latex_escape_lossless; reflexivity]. Defined.

(** X19.  In an escaped text every one of the characters [& % $ # _] comes
    right after a backslash, and the characters [~] and [^] do not occur; a
    text with none of the ten special characters is left as it is. *)
Theorem latex_escape_guards_specials :
  forall s : str,
    (forall pre c post,
        lg.latex_escape s = pre ++ c :: post -> hot c = true ->
        exists pre', pre = pre' ++ [BACKSLASH])
    /\ (forall c, In c (lg.latex_escape s) -> c <> 0x7E%N /\ c <> 0x5E%N)
    /\ (Forall (fun c => lg.repl c = None) s -> lg.latex_escape s = s).
Proof.
  intros s. split; [|split].
  - intros pre c post E Hc.
    destruct (guarded_from_spec _ _ _ _ (guarded_latex_escape s) E Hc)
      as [[_ H]|H]; [discriminate | exact H].
  - apply no_tilde_caret.
  - apply latex_escape_plain.
Qed.


(* ===================================================================== *)
(** ** render_exam_latex                                                  *)
(* ===================================================================== *)

Lemma all_lines_ext (f g : Question -> option (list str))
    (R : Question -> Question -> Prop) (qs qs' : list Question) :
  (forall q q', R q q' -> f q = g q') ->
  Forall2 R qs qs' -> lg.all_lines f qs = lg.all_lines g qs'.
Proof.
  intros Hfg. induction 1 as [|q q' qs qs' Hq _ IH]; [reflexivity|].
  cbn [lg.all_lines]. now rewrite (Hfg _ _ Hq), IH.
Qed.

Lemma nonempty_Forall2 (A B : Type) (R : A -> B -> Prop)
    (l : list A) (l' : list B) :
  Forall2 R l l' -> tp.nonempty l = tp.nonempty l'.
Proof. now destruct 1. Qed.

Lemma true_false_lines_answer (q : Question) (ans : str) :
  answer q = AnsStr ans ->
  lg.true_false_lines q = Some [lg.lit_question_answer ++ ans ++ lg.lit_fi].
Proof.
  intros E. unfold lg.true_false_lines. now rewrite E, format_fi.
Qed.

Lemma true_false_lines_same_answer (q q' : Question) :
  answer q = answer q' -> lg.true_false_lines q = lg.true_false_lines q'.
Proof.
  intros E. unfold lg.true_false_lines. now rewrite E, !format_fi.
Qed.

(** X20.  The rendered document does not show the text of a true/false
    question: its line is the literal [\question {}] followed by the answer
    part, and two exams whose true/false questions have the same answers in
    the same order, and whose other questions are the same, are rendered to
    the same document. *)
Theorem render_exam_latex_omits_true_false_text :
  forall (repr : list str -> str) (exam exam' : Exam) (cfg : Config)
         (layout : lg.Layout) (with_answers : bool),
    Forall2 (fun q q' => answer q = answer q')
            (exam_true_false exam) (exam_true_false exam') ->
    exam_single exam = exam_single exam' ->
    exam_multiple exam = exam_multiple exam' ->
    exam_fill exam = exam_fill exam' ->
    exam_short exam = exam_short exam' ->
    lg.render_exam_latex repr exam cfg layout with_answers
    = lg.render_exam_latex repr exam' cfg layout with_answers
    /\ (forall q ans,
           In q (exam_true_false exam) -> answer q = AnsStr ans ->
           lg.true_false_lines q
           = Some [u "\question {}\ifprintanswers\par\textbf{答案：}"
                   ++ ans ++ u "\fi"]).
Proof.
  intros repr exam exam' cfg layout b Htf Hs Hm Hf Hsh. split.
  - unfold lg.render_exam_latex, lg.block.
    rewrite <- Hs, <- Hm, <- Hf, <- Hsh.
    rewrite (nonempty_Forall2 Htf).
    now rewrite (@all_lines_ext lg.true_false_lines lg.true_false_lines
                   _ _ _ true_false_lines_same_answer Htf).
  - intros q ans _ E. now apply true_false_lines_answer.
Qed.

Lemma render_exam_latex_omits_true_false_text_witness :
  lg.render_exam_latex (fun _ => []) (true_false_only (u "甲")) one_of_each
    default_layout true
  = lg.render_exam_latex (fun _ => []) (true_false_only (u "乙")) one_of_each
      default_layout true.
Proof.
  apply (render_exam_latex_omits_true_false_text (fun _ => [])
           (true_false_only (u "甲")) (true_false_only (u "乙"))
           one_of_each default_layout true);
    [repeat constructor | reflexivity ..].
Defined.

Lemma latex_escape_BLANK : lg.latex_escape BLANK = ESCAPED_BLANK.
Proof. reflexivity. Qed.

Lemma latex_escape_app (s t : str) :
  lg.latex_escape (s ++ t) = lg.latex_escape s ++ lg.latex_escape t.
Proof. apply flat_map_app. Qed.

Lemma question_line_no_marker (q : Question) :
  exists line,
    lg.question_line q = Some line
    /\ line = u "\question " ++ lg.latex_escape (question q)
    /\ contains BLANK line = false.
Proof.
  unfold lg.question_line. rewrite format_question.
  eexists. split; [reflexivity|]. split; [reflexivity|].
  apply not_contains_occurs. intros (pre & post & E).
  refine (@no_backslash_r_spec _ false pre (skipn 2 BLANK ++ post) _ E).
  cbn [app u no_backslash_r]. apply no_backslash_r_latex_escape.
Qed.

(** X21.  The question line of a fill-in question is [\question ] followed by
    the escaped text.  The blank marker does not survive the escaping: the
    line does not contain it, and where the text has the marker the line has
    [\textbackslash{}rule\{2cm\}\{0.4pt\}]. *)
Theorem fill_lines_marker_escaped :
  forall (repr : list str -> str) (q : Question),
    exists line answer_line,
      lg.fill_lines repr q = Some [line; answer_line]
      /\ contains BLANK line = false
      /\ (forall pre post,
             question q = pre ++ BLANK ++ post ->
             line = u "\question " ++ lg.latex_escape pre
                    ++ ESCAPED_BLANK ++ lg.latex_escape post).
Proof.
  intros repr q. destruct (question_line_no_marker q) as (line & E & L & C).
  unfold lg.fill_lines. rewrite E. do 2 eexists.
  split; [reflexivity|]. split; [exact C|].
  intros pre post Hq. rewrite L, Hq, !latex_escape_app, latex_escape_BLANK.
  reflexivity.
Qed.

(* ===================================================================== *)
(** ** split_clauses                                                      *)
(* ===================================================================== *)

Lemma dp_concat_re_split (s : str) : concat (dp.re_split s) = s.
Proof.
  induction s as [|c r IH]; [reflexivity|].
  cbn [dp.re_split].
  assert (E : concat match dp.re_split r with
                     | p :: ps => (c :: p) :: ps
                     | [] => [[c]]
                     end = c :: r).
  { destruct (dp.re_split r) as [|p ps]; cbn [concat app] in *;
      now rewrite <- IH. }
  destruct (dp.marker_at (c :: r)); cbn [concat app]; exact E.
Qed.

Lemma line_boundary_isspace (c : char) :
  dp.line_boundary c = true -> isspace c = true.
Proof.
  unfold dp.line_boundary, dp.LINE_BOUNDARIES. cbn [existsb].
  repeat match goal with
         | |- context [(c =? ?k)%N] =>
             destruct (N.eqb_spec c k) as [->|_]; [reflexivity|]
         end.
  discriminate.
Qed.

Lemma visible_cons_space (c : char) (s : str) :
  isspace c = true -> visible (c :: s) = visible s.
Proof. intros H. unfold visible. cbn [filter]. now rewrite H. Qed.

Lemma visible_splitlines (s : str) :
  forall b, visible (concat (dp.splitlines_from b s)) = visible s.
Proof.
  induction s as [|c r IH]; intros b; [reflexivity|].
  cbn [dp.splitlines_from].
  destruct (b && (c =? 10)%N) eqn:E1.
  - apply andb_true_iff in E1 as [_ E1]. apply N.eqb_eq in E1 as ->.
    rewrite IH. now rewrite visible_cons_space.
  - destruct (dp.line_boundary c) eqn:E2.
    + cbn [concat app]. rewrite IH.
      now rewrite visible_cons_space by now apply line_boundary_isspace.
    + specialize (IH false).
      destruct (dp.splitlines_from false r) as [|p ps]; cbn [concat app] in *.
      * unfold visible in *. cbn [filter]. now rewrite <- IH.
      * unfold visible in *. cbn [filter]. now rewrite <- IH.
Qed.

Lemma visible_nil_strip (s : str) : strip s = [] -> visible s = [].
Proof. intros E. now rewrite <- visible_strip, E. Qed.

Lemma visible_lines (l : list str) :
  visible
    (concat (map strip (filter (fun ln => tp.nonempty (strip ln)) l)))
  = visible (concat l).
Proof.
  induction l as [|p l IH]; [reflexivity|]. cbn [filter concat].
  rewrite visible_app, <- IH.
  destruct (strip p) eqn:E; cbn [tp.nonempty].
  - now rewrite (visible_nil_strip _ E).
  - cbn [map concat]. now rewrite visible_app, E, <- E, visible_strip.
Qed.

Lemma visible_parts (l : list str) :
  visible (concat (filter (@tp.nonempty char) (map strip l)))
  = visible (concat l).
Proof.
  induction l as [|p l IH]; [reflexivity|]. cbn [map filter concat].
  rewrite visible_app, <- IH.
  destruct (strip p) eqn:E; cbn [tp.nonempty].
  - now rewrite (visible_nil_strip _ E).
  - cbn [concat]. now rewrite visible_app, <- E, visible_strip.
Qed.

Lemma visible_flat_parts (lines : list str) :
  visible
    (concat
       (flat_map
          (fun line =>
             filter (@tp.nonempty char) (map strip (dp.re_split line)))
          lines))
  = visible (concat lines).
Proof.
  induction lines as [|line lines IH]; [reflexivity|].
  cbn [flat_map concat]. rewrite concat_app, !visible_app, IH.
  now rewrite visible_parts, dp_concat_re_split.
Qed.

Lemma visible_chunks_of (text : str) :
  visible (concat (dp.chunks_of text)) = visible text.
Proof.
  unfold dp.chunks_of, dp.splitlines.
  rewrite visible_flat_parts, visible_lines. apply visible_splitlines.
Qed.

Lemma visible_nil_spaces (s : str) :
  visible s = [] -> Forall (fun c => isspace c = true) s.
Proof.
  induction s as [|c s IH]; [constructor|].
  unfold visible in *. cbn [filter]. destruct (isspace c) eqn:E; cbn [negb].
  - intros H. constructor; [exact E | now apply IH].
  - discriminate.
Qed.

(** X22.  [split_clauses] loses and adds no visible character: the clauses,
    put together, have the characters of the text other than white space, in
    the same order.  The result is empty only for the empty text. *)
Theorem split_clauses_lossless :
  forall text : str,
    visible (concat (dp.split_clauses text)) = visible text
    /\ (dp.split_clauses text = [] <-> text = []).
Proof.
  intros text. pose proof (visible_chunks_of text) as V.
  unfold dp.split_clauses. destruct (dp.chunks_of text) as [|c cs] eqn:E.
  - cbn [tp.nonempty]. destruct text as [|a text]; cbn [tp.nonempty].
    + split; [reflexivity | tauto].
    + split; [cbn [concat]; now rewrite app_nil_r|].
      split; discriminate.
  - cbn [tp.nonempty]. split; [exact V|]. split; [discriminate|].
    intros ->. discriminate E.
Qed.

Lemma span_app (p : char -> bool) (a x : str) :
  forall run t rest,
    dp.span p a = (run, t :: rest) ->
    dp.span p (a ++ x) = (run, (t :: rest) ++ x).
Proof.
  induction a as [|c a IH]; intros run t rest; [discriminate|].
  cbn [dp.span app]. destruct (p c).
  - destruct (dp.span p a) as [run' rest'] eqn:E. intros [= <- ->].
    now rewrite (IH _ _ _ eq_refl).
  - now intros [= <- <- <-].
Qed.

Lemma marker_at_app (t x : str) :
  dp.marker_at t = true -> dp.marker_at (t ++ x) = true.
Proof.
  destruct t as [|c r]; [discriminate|]. cbn [dp.marker_at app].
  destruct (dp.span dp.clause_numeral r) as [[|d run] [|e rest]] eqn:E;
    try (destruct (c =? dp.DI)%N;
         [|destruct ((c =? dp.LPAREN_WIDE) || (c =? dp.LPAREN))%N];
         discriminate).
  now rewrite (@span_app _ _ x _ _ _ E).
Qed.

Lemma marker_at_not_space (c : char) (r : str) :
  dp.marker_at (c :: r) = true -> isspace c = false.
Proof.
  cbn [dp.marker_at].
  destruct (N.eqb_spec c dp.DI) as [->|_]; [reflexivity|].
  destruct (N.eqb_spec c dp.LPAREN_WIDE) as [->|_]; [reflexivity|].
  destruct (N.eqb_spec c dp.LPAREN) as [->|_]; [reflexivity|].
  discriminate.
Qed.

Lemma marker_only_at_start_spaces (s : str) :
  Forall (fun c => isspace c = true) s -> marker_only_at_start s.
Proof.
  intros H pre post -> _. apply Forall_app in H as [_ H].
  destruct post as [|c r]; [reflexivity|].
  destruct (dp.marker_at (c :: r)) eqn:E; [|reflexivity].
  apply marker_at_not_space in E. inversion H; congruence.
Qed.

Lemma marker_only_at_start_strip (p : str) :
  marker_only_at_start p -> marker_only_at_start (strip p).
Proof.
  intros H pre post E Hpre.
  destruct (strip_spaces p) as (a & b & Ep & _ & _).
  destruct (dp.marker_at post) eqn:M; [|reflexivity].
  rewrite <- (H (a ++ pre) (post ++ b)).
  - symmetry. now apply marker_at_app.
  - rewrite Ep, E. now rewrite <- !app_assoc.
  - destruct a; [exact Hpre | discriminate].
Qed.

Lemma re_split_marker_only_at_start (s : str) :
  Forall marker_only_at_start (dp.re_split s).
Proof.
  induction s as [|c r IH].
  - repeat constructor. intros [|? ?] post; [congruence | discriminate].
  - cbn [dp.re_split].
    assert (K : Forall marker_only_at_start
                  match dp.re_split r with
                  | p :: ps => (c :: p) :: ps
                  | [] => [[c]]
                  end).
    { pose proof (dp_concat_re_split r) as C.
      destruct (dp.re_split r) as [|p ps] eqn:E.
      - repeat constructor. intros [|a [|? ?]] post; try discriminate;
          [congruence|]. now intros [= _ <-] _.
      - apply Forall_cons_iff in IH as [Hp Hps]. constructor; [|exact Hps].
        intros [|a pre] post; [congruence|]. intros [= <- ->] _.
        destruct pre as [|b pre].
        + cbn [app]. destruct (dp.marker_at post) eqn:M; [|reflexivity].
          cbn [concat app] in C.
          assert (Mr : dp.marker_at r = true)
            by (rewrite <- C; now apply marker_at_app).
          destruct r as [|x r]; [discriminate Mr|].
          cbn [dp.re_split] in E. rewrite Mr in E.
          injection E as <- _. discriminate M.
        + now apply (Hp (b :: pre) post). }
    destruct (dp.marker_at (c :: r)); [|exact K].
    constructor; [|exact K].
    intros [|? ?] post; [congruence | discriminate].
Qed.

Lemma In_concat_occurs (p : str) (l : list str) :
  In p l -> Spec.occurs_in p (concat l).
Proof.
  intros H. apply in_split in H as (l1 & l2 & ->).
  exists (concat l1), (concat l2). now rewrite concat_app.
Qed.

Lemma occurs_in_trans (a b c : str) :
  Spec.occurs_in a b -> Spec.occurs_in b c -> Spec.occurs_in a c.
Proof. intros H (pre & post & ->). now apply occurs_in_app. Qed.

Lemma splitlines_head (s : str) :
  forall p ps, dp.splitlines_from false s = p :: ps -> exists t, s = p ++ t.
Proof.
  induction s as [|c r IH]; intros p ps; [discriminate|].
  cbn [dp.splitlines_from andb].
  destruct (dp.line_boundary c).
  - intros [= <- _]. now exists (c :: r).
  - destruct (dp.splitlines_from false r) as [|p' ps'] eqn:E.
    + intros [= <- _]. now exists r.
    + intros [= <- _]. destruct (IH _ _ eq_refl) as (t & ->). now exists t.
Qed.

Lemma splitlines_occurs (s : str) :
  forall b l, In l (dp.splitlines_from b s) -> Spec.occurs_in l s.
Proof.
  induction s as [|c r IH]; intros b l; [intros []|].
  cbn [dp.splitlines_from].
  destruct (b && (c =? 10)%N).
  - intros H. apply occurs_in_cons. now apply (IH false).
  - destruct (dp.line_boundary c).
    + intros [<-|H]; [now exists [], (c :: r)|].
      apply occurs_in_cons. now apply (IH (c =? 13)%N).
    + destruct (dp.splitlines_from false r) as [|p ps] eqn:E.
      * intros [<-|[]]. now exists [], r.
      * intros [<-|H].
        -- destruct (splitlines_head _ E) as (t & ->). now exists [], t.
        -- apply occurs_in_cons. apply (IH false). rewrite E. now right.
Qed.

Lemma strip_strip (s : str) : strip (strip s) = strip s.
Proof.
  unfold strip at 1. now rewrite lstrip_strip, rstrip_strip.
Qed.

Lemma chunks_of_spec (text : str) :
  Forall (fun c => c <> [] /\ strip c = c /\ Spec.occurs_in c text
                   /\ marker_only_at_start c)
    (dp.chunks_of text).
Proof.
  apply Forall_forall. intros c Hc. unfold dp.chunks_of in Hc.
  apply in_flat_map in Hc as (line & Hline & Hc).
  apply filter_In in Hc as [Hc Hne].
  apply in_map_iff in Hc as (part & <- & Hpart).
  apply in_map_iff in Hline as (ln & <- & Hln).
  apply filter_In in Hln as [Hln _].
  split; [now destruct (strip part)|]. split; [apply strip_strip|]. split.
  - apply occurs_in_trans with ln; [|exact (splitlines_occurs _ _ _ Hln)].
    apply occurs_in_strip. apply occurs_in_trans with part.
    + apply occurs_in_strip. exists [], []. now rewrite app_nil_r.
    + rewrite <- (dp_concat_re_split (strip ln)). now apply In_concat_occurs.
  - apply marker_only_at_start_strip.
    pose proof (re_split_marker_only_at_start (strip ln)) as K.
    rewrite Forall_forall in K. now apply K.
Qed.

Lemma strip_all_spaces (s : str) :
  Forall (fun c => isspace c = true) s -> strip s = [].
Proof.
  intros H. unfold strip.
  assert (E : lstrip s = []).
  { induction H as [|c s Hc _ IH]; [reflexivity|]. cbn [lstrip].
    now rewrite Hc. }
  now rewrite E.
Qed.

Lemma visible_stripped (c : str) : c <> [] -> strip c = c -> visible c <> [].
Proof.
  intros Hne E. pose proof (lstrip_strip c) as L. rewrite E in L.
  apply lstrip_fixed in L. destruct c as [|x r]; [congruence|].
  unfold visible. cbn [filter]. now rewrite L.
Qed.

Lemma chunks_of_blank (text : str) : strip text = [] -> dp.chunks_of text = [].
Proof.
  intros E. pose proof (visible_chunks_of text) as V.
  rewrite (visible_nil_strip _ E) in V.
  destruct (dp.chunks_of text) as [|c cs] eqn:K; [reflexivity|].
  pose proof (chunks_of_spec text) as S. rewrite K in S.
  apply Forall_cons_iff in S as [(Hne & Hs & _) _].
  cbn [concat] in V. rewrite visible_app in V.
  apply app_eq_nil in V as [V _]. now apply visible_stripped in V.
Qed.

Lemma chunks_of_not_blank (text : str) :
  strip text <> [] -> dp.chunks_of text <> [].
Proof.
  intros H K. apply H. apply strip_all_spaces, visible_nil_spaces.
  now rewrite <- visible_chunks_of, K.
Qed.

(** X23.  Every clause that [split_clauses] returns is not empty, occurs in
    the text, and contains no clause marker except, possibly, at its start.
    For a text that is not blank the clauses are stripped; a blank text that
    is not empty comes back as it is, as the only clause. *)
Theorem split_clauses_clauses :
  forall text : str,
    Forall (fun c => c <> [] /\ Spec.occurs_in c text
                     /\ marker_only_at_start c)
      (dp.split_clauses text)
    /\ (strip text <> [] ->
        Forall (fun c => strip c = c) (dp.split_clauses text))
    /\ (strip text = [] -> text <> [] -> dp.split_clauses text = [text]).
Proof.
  intros text. pose proof (chunks_of_spec text) as S.
  unfold dp.split_clauses. split; [|split].
  - destruct (dp.chunks_of text) as [|c cs] eqn:K; cbn [tp.nonempty].
    + assert (M : marker_only_at_start text).
      { apply marker_only_at_start_spaces, visible_nil_spaces.
        now rewrite <- visible_chunks_of, K. }
      destruct text as [|a t]; cbn [tp.nonempty]; [constructor|].
      repeat constructor; [discriminate | | exact M].
      exists [], []. now rewrite app_nil_r.
    + eapply Forall_impl; [|exact S]. cbn beta. tauto.
  - intros H. apply chunks_of_not_blank in H.
    destruct (dp.chunks_of text) as [|c cs]; [congruence|].
    cbn [tp.nonempty]. eapply Forall_impl; [|exact S]. cbn beta. tauto.
  - intros H Hne. rewrite (chunks_of_blank _ H). cbn [tp.nonempty].
    now destruct text.
Qed.

(* ===================================================================== *)
(** ** read_docx                                                          *)
(* ===================================================================== *)

Lemma span_spec (p : char -> bool) (s : str) :
  forall run rest,
    dp.span p s = (run, rest) ->
    s = run ++ rest /\ Forall (fun c => p c = true) run.
Proof.
  induction s as [|c s IH]; intros run rest; cbn [dp.span].
  - intros [= <- <-]. now split.
  - destruct (p c) eqn:E.
    + destruct (dp.span p s) as [run' rest'].
      intros [= <- <-]. destruct (IH _ _ eq_refl) as [-> H].
      split; [reflexivity | now constructor].
    + intros [= <- <-]. now split.
Qed.

Lemma match_article_shape (para no rest : str) :
  dp.match_article para = Some (no, rest) ->
  article_no_shaped no /\ para = no ++ rest.
Proof.
  destruct para as [|c r]; [discriminate|]. cbn [dp.match_article].
  destruct (N.eqb_spec c dp.DI) as [->|_]; [|discriminate].
  destruct (dp.span dp.article_numeral r) as [[|d ds] [|t rest']] eqn:E;
    try discriminate.
  destruct (N.eqb_spec t dp.TIAO) as [->|_]; [|discriminate].
  intros [= <- <-]. apply span_spec in E as [-> H]. split.
  - exists (d :: ds). now repeat split.
  - cbn [app]. now rewrite <- app_assoc.
Qed.

Section StripChars.

Variable chars : str.

Lemma lstrip_chars_suffix (s : str) :
  exists a, s = a ++ dp.lstrip_chars chars s.
Proof.
  induction s as [|c s (a & IH)]; [now exists []|].
  cbn [dp.lstrip_chars].
  destruct (existsb (N.eqb c) chars); [|now exists []].
  exists (c :: a). cbn [app]. now f_equal.
Qed.

Lemma lstrip_chars_head (s : str) :
  match dp.lstrip_chars chars s with
  | [] => True
  | c :: _ => existsb (N.eqb c) chars = false
  end.
Proof.
  induction s as [|c s IH]; [exact I|].
  cbn [dp.lstrip_chars].
  destruct (existsb (N.eqb c) chars) eqn:E; [exact IH | exact E].
Qed.

Lemma lstrip_chars_fixed (s : str) :
  match s with
  | [] => True
  | c :: _ => existsb (N.eqb c) chars = false
  end ->
  dp.lstrip_chars chars s = s.
Proof.
  destruct s as [|c s]; [reflexivity|]. cbn [dp.lstrip_chars].
  now intros ->.
Qed.

Lemma strip_chars_idempotent (s : str) :
  dp.strip_chars chars (dp.strip_chars chars s) = dp.strip_chars chars s.
Proof.
  unfold dp.strip_chars.
  set (x := dp.lstrip_chars chars s). set (y := dp.lstrip_chars chars (rev x)).
  assert (E : dp.lstrip_chars chars (rev y) = rev y).
  { apply lstrip_chars_fixed.
    destruct (lstrip_chars_suffix (rev x)) as (a & Ea). fold y in Ea.
    apply (f_equal (@rev _)) in Ea. rewrite rev_involutive, rev_app_distr in Ea.
    pose proof (lstrip_chars_head s) as H. fold x in H. rewrite Ea in H.
    destruct (rev y) as [|c r]; [exact I | exact H]. }
  rewrite E, rev_involutive. f_equal. apply lstrip_chars_fixed.
  apply lstrip_chars_head.
Qed.

End StripChars.

Section ReadDocx.

Variable name : str.

Lemma flush_inv (st : dp.State) :
  read_inv name st -> read_inv name (dp.flush_article name st).
Proof.
  intros (Ha & Hn & Ht & Hs & Hb). unfold dp.flush_article.
  destruct (dp.current_no st) as [no|] eqn:E; [|now repeat split; rewrite ?E].
  repeat split; cbn; try easy; try lia.
  apply Forall_app. split; [exact Ha|]. constructor; [|constructor].
  unfold well_formed_article. cbn.
  split; [reflexivity|]. split; [now apply Hn|]. split; [exact Ht|].
  split; [exact Hs|]. split; [apply strip_strip | reflexivity].
Qed.

Lemma step_inv (st : dp.State) (para : str) :
  read_inv name st -> read_inv name (dp.step name st para).
Proof.
  intros H. unfold dp.step.
  destruct (dp.match_article para) as [[no rest]|] eqn:M.
  - apply match_article_shape in M as [Hno _].
    apply flush_inv in H. destruct H as (Ha & _ & _ & _ & _).
    destruct (tp.nonempty (dp.strip_chars dp.TITLE_STRIP rest)
              && (50 <? length (dp.strip_chars dp.TITLE_STRIP rest))%nat)
      eqn:E.
    + split; [exact Ha|]. split; [now intros ? [= <-]|].
      split; [cbn; lia|]. split; [reflexivity | discriminate].
    + split; [exact Ha|]. split; [now intros ? [= <-]|].
      split; [|split; [apply strip_chars_idempotent | discriminate]].
      cbn [dp.current_title]. apply andb_false_iff in E as [E|E].
      * destruct (dp.strip_chars dp.TITLE_STRIP rest); [cbn; lia|discriminate].
      * apply Nat.ltb_ge in E. exact E.
  - destruct H as (Ha & Hn & Ht & Hs & Hb).
    destruct (dp.current_no st) as [no|] eqn:E.
    + split; [exact Ha|]. cbn.
      split; [exact Hn|]. split; [exact Ht|]. split; [exact Hs|discriminate].
    + unfold read_inv. rewrite E. now repeat split.
Qed.

Lemma fold_inv (ps : list str) :
  forall st, read_inv name st -> read_inv name (fold_left (dp.step name) ps st).
Proof.
  induction ps as [|p ps IH]; intros st H; [exact H|].
  cbn [fold_left]. apply IH. now apply step_inv.
Qed.

Lemma initial_inv : read_inv name dp.initial.
Proof. repeat split; cbn; try easy; try lia. Qed.

Lemma numbers_flush (st : dp.State) :
  map article_no (dp.articles (dp.flush_article name st)) = numbers_of st.
Proof.
  unfold dp.flush_article, numbers_of.
  destruct (dp.current_no st); cbn; [now rewrite map_app|].
  now rewrite app_nil_r.
Qed.

Lemma numbers_step (st : dp.State) (para : str) :
  numbers_of (dp.step name st para)
  = numbers_of st
    ++ match dp.match_article para with
       | Some (no, _) => [no]
       | None => []
       end.
Proof.
  unfold dp.step.
  destruct (dp.match_article para) as [[no rest]|].
  - rewrite <- (numbers_flush st).
    now destruct (tp.nonempty _ && _).
  - rewrite app_nil_r. unfold numbers_of.
    destruct (dp.current_no st) eqn:E; cbn; now rewrite ?E.
Qed.

Lemma numbers_fold (ps : list str) :
  forall st,
    numbers_of (fold_left (dp.step name) ps st)
    = numbers_of st
      ++ flat_map (fun para => match dp.match_article para with
                               | Some (no, _) => [no]
                               | None => []
                               end) ps.
Proof.
  induction ps as [|p ps IH]; intros st; cbn [fold_left flat_map].
  - now rewrite app_nil_r.
  - now rewrite IH, numbers_step, <- app_assoc.
Qed.

Lemma heading_numbers (texts : list str) :
  flat_map (fun para => match dp.match_article para with
                        | Some (no, _) => [no]
                        | None => []
                        end) (dp.paragraphs texts)
  = map heading_no (filter is_heading texts).
Proof.
  unfold dp.paragraphs.
  induction texts as [|t texts IH]; [reflexivity|]. cbn [filter].
  unfold is_heading at 1.
  destruct (tp.nonempty t && tp.nonempty (strip t)) eqn:E.
  - cbn [map flat_map]. rewrite IH.
    destruct (dp.match_article (strip t)) as [[no rest]|] eqn:M;
      [|reflexivity].
    cbn [map app]. unfold heading_no at 2. now rewrite M.
  - rewrite IH.
    assert (K : strip t = []).
    { apply andb_false_iff in E as [E|E].
      - now destruct t.
      - now destruct (strip t). }
    now rewrite K.
Qed.

Lemma flush_shifted (pre : list Article) (st st' : dp.State) :
  shifted pre st st' ->
  shifted pre (dp.flush_article name st) (dp.flush_article name st').
Proof.
  intros (Ea & En & Et & Eb). unfold dp.flush_article.
  rewrite En, Et, Eb.
  destruct (dp.current_no st') eqn:K; [|repeat split; congruence].
  repeat split; cbn. now rewrite Ea, app_assoc.
Qed.

Lemma step_shifted (pre : list Article) (st st' : dp.State) (para : str) :
  shifted pre st st' ->
  shifted pre (dp.step name st para) (dp.step name st' para).
Proof.
  intros H. unfold dp.step.
  destruct (dp.match_article para) as [[no rest]|].
  - apply flush_shifted in H. destruct H as (Ea & En & Et & Eb).
    destruct (tp.nonempty _ && _); repeat split; cbn;
      congruence.
  - destruct H as (Ea & En & Et & Eb). rewrite En.
    destruct (dp.current_no st') eqn:K; repeat split; cbn; congruence.
Qed.

Lemma fold_shifted (pre : list Article) (ps : list str) :
  forall st st',
    shifted pre st st' ->
    shifted pre (fold_left (dp.step name) ps st)
      (fold_left (dp.step name) ps st').
Proof.
  induction ps as [|p ps IH]; intros st st' H; [exact H|].
  cbn [fold_left]. apply IH. now apply step_shifted.
Qed.

Lemma heading_shifted (st : dp.State) (para : str) :
  dp.match_article para <> None ->
  read_inv name st ->
  shifted (dp.articles (dp.flush_article name st)) (dp.step name st para)
    (dp.step name dp.initial para).
Proof.
  intros M (_ & _ & _ & _ & Hb). unfold dp.step.
  destruct (dp.match_article para) as [[no rest]|]; [|congruence].
  assert (B : dp.buffer (dp.flush_article name st) = []).
  { unfold dp.flush_article.
    destruct (dp.current_no st); [reflexivity | now apply Hb]. }
  destruct (tp.nonempty _ && _); repeat split; cbn;
    rewrite ?B, ?app_nil_r; reflexivity.
Qed.

Lemma paragraphs_app (a b : list str) :
  dp.paragraphs (a ++ b) = dp.paragraphs a ++ dp.paragraphs b.
Proof. unfold dp.paragraphs. now rewrite filter_app, map_app. Qed.

Lemma paragraphs_heading (t : str) (texts : list str) :
  is_heading t = true ->
  dp.paragraphs (t :: texts) = strip t :: dp.paragraphs texts
  /\ dp.match_article (strip t) <> None.
Proof.
  unfold is_heading, dp.paragraphs. cbn [filter].
  destruct (dp.match_article (strip t)) as [m|] eqn:M; [|discriminate].
  intros _. split; [|discriminate].
  destruct (strip t) as [|c r] eqn:E; [discriminate M|].
  destruct t as [|d t]; [discriminate E|]. cbn [tp.nonempty andb map].
  now rewrite E.
Qed.

Lemma paragraphs_no_heading (texts : list str) :
  forallb (fun t => negb (is_heading t)) texts = true ->
  Forall (fun para => dp.match_article para = None) (dp.paragraphs texts).
Proof.
  unfold dp.paragraphs.
  induction texts as [|t texts IH]; [constructor|]. cbn [forallb filter].
  intros H. apply andb_true_iff in H as [Ht H]. specialize (IH H).
  destruct (tp.nonempty t && tp.nonempty (strip t)); [|exact IH].
  cbn [map]. constructor; [|exact IH].
  unfold is_heading in Ht. now destruct (dp.match_article (strip t)).
Qed.

Lemma fold_preface (ps : list str) :
  Forall (fun para => dp.match_article para = None) ps ->
  fold_left (dp.step name) ps dp.initial = dp.initial.
Proof.
  induction 1 as [|p ps Hp _ IH]; [reflexivity|]. cbn [fold_left].
  replace (dp.step name dp.initial p) with dp.initial; [exact IH|].
  unfold dp.step. now rewrite Hp.
Qed.

Lemma fold_body (ps : list str) :
  Forall (fun para => dp.match_article para = None) ps ->
  forall arts no t buf,
    fold_left (dp.step name) ps
      {| dp.articles := arts; dp.current_no := Some no;
         dp.current_title := t; dp.buffer := buf |}
    = {| dp.articles := arts; dp.current_no := Some no;
         dp.current_title := t; dp.buffer := buf ++ ps |}.
Proof.
  induction 1 as [|p ps Hp _ IH]; intros arts no t buf; cbn [fold_left].
  - now rewrite app_nil_r.
  - unfold dp.step at 2. rewrite Hp. cbn.
    rewrite IH. now rewrite <- app_assoc.
Qed.

End ReadDocx.

(** X24.  Every article that [read_docx] returns names the file, has a number
    of the form of the heading pattern, a title of at most 50 characters with
    no separator at either end, a stripped text, and the clauses of that
    text.  The numbers of the articles are those of the heading paragraphs,
    in the order of the document. *)
Theorem read_docx_articles :
  forall (name : str) (texts : list str),
    Forall (well_formed_article name) (dp.read_docx name texts)
    /\ map article_no (dp.read_docx name texts)
       = map heading_no (filter is_heading texts).
Proof.
  intros name texts. unfold dp.read_docx. split.
  - apply flush_inv, fold_inv, initial_inv.
  - rewrite numbers_flush, numbers_fold. apply heading_numbers.
Qed.

(** X25.  [read_docx] works heading by heading: the articles of a document
    are those of the paragraphs before a heading, followed by those of the
    paragraphs from that heading on. *)
Theorem read_docx_splits_at_heading :
  forall (name : str) (before : list str) (t : str) (after : list str),
    is_heading t = true ->
    dp.read_docx name (before ++ t :: after)
    = dp.read_docx name before ++ dp.read_docx name (t :: after).
Proof.
  intros name before t after Ht. unfold dp.read_docx.
  destruct (@paragraphs_heading t after Ht) as [-> M].
  rewrite paragraphs_app, fold_left_app.
  destruct (@paragraphs_heading t after Ht) as [-> _]. cbn [fold_left].
  set (st := fold_left (dp.step name) (dp.paragraphs before) dp.initial).
  assert (I : read_inv name st) by apply fold_inv, initial_inv.
  pose proof (@heading_shifted name st (strip t) M I) as S.
  apply (@fold_shifted name _ (dp.paragraphs after)) in S.
  apply (@flush_shifted name) in S. exact (proj1 S).
Qed.

Lemma read_docx_splits_at_heading_witness :
  dp.read_docx (u "f.docx")
    ([u "第一条 总则"; u "甲。"] ++ [u "第二条"; u "乙。"])
  = dp.read_docx (u "f.docx") [u "第一条 总则"; u "甲。"]
    ++ dp.read_docx (u "f.docx") [u "第二条"; u "乙。"].
Proof.
  apply (read_docx_splits_at_heading (u "f.docx")
           [u "第一条 总则"; u "甲。"] (u "第二条") [u "乙。"]).
  reflexivity.
Defined.

(** X26.  Paragraphs before the first heading are skipped: they change
    nothing of the result, and a document with no heading gives no article. *)
Theorem read_docx_skips_preface :
  forall (name : str) (preface texts : list str),
    forallb (fun t => negb (is_heading t)) preface = true ->
    dp.read_docx name (preface ++ texts) = dp.read_docx name texts
    /\ dp.read_docx name preface = [].
Proof.
  intros name preface texts H. apply paragraphs_no_heading in H.
  unfold dp.read_docx. rewrite paragraphs_app, fold_left_app.
  now rewrite (@fold_preface name _ H).
Qed.

Lemma read_docx_skips_preface_witness :
  dp.read_docx (u "f.docx") ([u "前言"; u "总则 第一条"] ++ [u "第一条"; u "甲。"])
  = dp.read_docx (u "f.docx") [u "第一条"; u "甲。"]
  /\ dp.read_docx (u "f.docx") [u "前言"; u "总则 第一条"] = [].
Proof.
  apply (read_docx_skips_preface (u "f.docx")
           [u "前言"; u "总则 第一条"] [u "第一条"; u "甲。"]).
  reflexivity.
Defined.

(** X27.  The article of a heading and the paragraphs that follow it, up to
    the next heading.  What follows the number in the heading, separators
    stripped, is the title when it has at most 50 characters, and is then no
    part of the text; when it is longer the title is empty and the whole
    heading paragraph opens the text.  The text is the paragraphs, stripped,
    the blank ones dropped, joined by line breaks. *)
Theorem read_docx_one_article :
  forall (name h : str) (body : list str) (no rest : str),
    dp.match_article (strip h) = Some (no, rest) ->
    forallb (fun t => negb (is_heading t)) body = true ->
    let t := dp.strip_chars dp.TITLE_STRIP rest in
    let long := (50 <? length t)%nat in
    let full_text :=
      strip (join dp.NL
               ((if long then [strip h] else []) ++ dp.paragraphs body)) in
    dp.read_docx name (h :: body)
    = [{| source_file := name;
          article_no := no;
          title := if long then [] else t;
          text := full_text;
          clauses := dp.split_clauses full_text |}].
Proof.
  intros name h body no rest M Hb t long full_text.
  assert (Hh : is_heading h = true) by (unfold is_heading; now rewrite M).
  unfold dp.read_docx. destruct (@paragraphs_heading h body Hh) as [-> _].
  apply paragraphs_no_heading in Hb. cbn [fold_left].
  unfold dp.step at 2. rewrite M. cbn [dp.flush_article dp.initial
    dp.current_no dp.articles dp.buffer app].
  fold t. fold long.
  assert (E : tp.nonempty t && long = long).
  { subst long. destruct t; [reflexivity|]. reflexivity. }
  rewrite E. subst full_text. destruct long;
    rewrite (@fold_body name _ Hb); reflexivity.
Qed.

Lemma read_docx_one_article_witness :
  dp.read_docx (u "f.docx") [u "第一条 公民应当遵守法律。"]
  = [{| source_file := u "f.docx";
        article_no := u "第一条";
        title := u "公民应当遵守法律。";
        text := [];
        clauses := [] |}].
Proof.
  apply (@read_docx_one_article (u "f.docx") (u "第一条 公民应当遵守法律。")
           [] (u "第一条") (u " 公民应当遵守法律。")); reflexivity.
Defined.
